(** * Ingredient parser: segmentation and reconciliation

    A shallow embedding of the label-text pipeline of the repository
    ([ingredients_parser_0.312/test3.py], [ingredients_parser_0.312/Analyser.py],
    [ingredients_parser_0.1/img2text6.py]) and the properties its
    specification states about it.

    Conventions of the model.
    - A Python [str] is a [list ascii]: a sequence of code points below 256.
      The character classes of [re] and of the [str] methods are Python's
      Unicode classes restricted to that range.
    - The regular expressions of the source are transcribed, one by one, as
      terms of [Re.regex] and run by a backtracking matcher that follows
      Python's priorities (leftmost match, alternatives in order, greedy
      quantifiers longest first, lazy ones shortest first).
    - The reference service and the wall clock are explicit state. *)

From Stdlib Require Import Ascii String.
From Stdlib Require Import List Bool Arith NArith ZArith Lia.
Import ListNotations.

Set Implicit Arguments.

(** ** Characters and Python string primitives *)

Definition str := list ascii.

Definition s2l (s : string) : str := list_ascii_of_string s.

Definition cclass := ascii -> bool.

Definition code (c : ascii) : N := N_of_ascii c.

Definition in_range (lo hi : N) : cclass :=
  fun c => (N.leb lo (code c) && N.leb (code c) hi)%bool.

Definition is_char (x : ascii) : cclass := fun c => Ascii.eqb c x.

Definition one_of (s : string) : cclass :=
  fun c => existsb (Ascii.eqb c) (s2l s).

Definition cor (p q : cclass) : cclass := fun c => (p c || q c)%bool.
Definition cnot (p : cclass) : cclass := fun c => negb (p c).
Definition any_char : cclass := fun _ => true.

Definition ch_tab : ascii := ascii_of_N 9.
Definition ch_nl : ascii := ascii_of_N 10.
Definition ch_cr : ascii := ascii_of_N 13.
Definition ch_sp : ascii := " "%char.

(** [[a-z]], [[A-Z]], [[0-9]]: plain ranges, also under Unicode matching. *)
Definition az : cclass := in_range 97 122.
Definition AZ : cclass := in_range 65 90.
Definition d09 : cclass := in_range 48 57.
Definition alpha : cclass := cor az AZ.
Definition alnum : cclass := cor alpha d09.

(** [str.isspace], which is also [\s] of a [str] pattern: TAB..CR, FS..US,
    SPACE, NEL and NBSP below code point 256. *)
Definition is_space : cclass :=
  fun c => (in_range 9 13 c || in_range 28 32 c
            || N.eqb (code c) 133 || N.eqb (code c) 160)%bool.

(** [\w] of a [str] pattern: [str.isalnum] or the underscore.  Below 256 the
    alphanumerics are the ASCII ones, the letters of Latin-1, and the
    superscript digits and vulgar fractions. *)
Definition is_word : cclass :=
  fun c => (alnum c || is_char "_" c
            || N.eqb (code c) 170 || N.eqb (code c) 181 || N.eqb (code c) 186
            || in_range 192 214 c || in_range 216 246 c || in_range 248 255 c
            || N.eqb (code c) 178 || N.eqb (code c) 179 || N.eqb (code c) 185
            || in_range 188 190 c)%bool.

(** [str.lower] on one character. *)
Definition lower (c : ascii) : ascii :=
  if (AZ c || (in_range 192 222 c && negb (N.eqb (code c) 215)))%bool
  then ascii_of_N (code c + 32) else c.

Definition lower_str (s : str) : str := map lower s.

Definition str_eqb (a b : str) : bool :=
  if list_eq_dec ascii_dec a b then true else false.

(** [s.startswith(p)] *)
Fixpoint startswith (p s : str) : bool :=
  match p, s with
  | [], _ => true
  | x :: p', c :: s' => (Ascii.eqb x c && startswith p' s')%bool
  | _ :: _, [] => false
  end.

(** [p in s] for strings. *)
Fixpoint contains (p s : str) : bool :=
  (startswith p s ||
   match s with
   | [] => false
   | _ :: s' => contains p s'
   end)%bool.

(** [s.lstrip()], [s.rstrip()], [s.strip()] *)
Fixpoint lstrip (s : str) : str :=
  match s with
  | c :: t => if is_space c then lstrip t else s
  | [] => []
  end.

Definition rstrip (s : str) : str := rev (lstrip (rev s)).

Definition strip (s : str) : str := rstrip (lstrip s).

(** [s.split(sep)] for a one-character separator: always at least one field. *)
Fixpoint split_on (sep : ascii) (s : str) : list str :=
  match s with
  | [] => [[]]
  | c :: t =>
      if Ascii.eqb c sep then [] :: split_on sep t
      else match split_on sep t with
           | f :: fs => (c :: f) :: fs
           | [] => [[c]]
           end
  end.

(** [s.replace(a, b)] for one-character [a] and [b]. *)
Definition replace_char (a b : ascii) (s : str) : str :=
  map (fun c => if Ascii.eqb c a then b else c) s.

(** [s.count(a)] for a one-character [a]. *)
Definition count_char (a : ascii) (s : str) : nat :=
  length (filter (fun c => Ascii.eqb c a) s).

(** [s[i:j]] for [0 <= i], [0 <= j] (Python clamps both to [len(s)]). *)
Definition slice (i j : nat) (s : str) : str := firstn (j - i) (skipn i s).

(** ** The fragment of Python's [re] used by the source *)

Module Re.

(** Quantifiers occur in the source only over single-character classes, so
    [Star] takes a class; [greedy = false] is the lazy form ([*?]). *)
Inductive regex : Type :=
| Eps
| Chr (p : cclass)
| Seq (a b : regex)
| Alt (a b : regex)
| Star (greedy : bool) (p : cclass)
| Group (i : nat) (a : regex)
| Bol                      (* ^  (no MULTILINE in the source) *)
| Eol                      (* $  *)
| EndZ                     (* \Z *)
| WordB                    (* \b *)
| Ahead (a : regex).       (* (?=...) *)

Definition Plus (g : bool) (p : cclass) : regex := Seq (Chr p) (Star g p).
Definition Opt (p : cclass) : regex := Alt (Chr p) Eps.

Fixpoint seqs (l : list regex) : regex :=
  match l with
  | [] => Eps
  | [a] => a
  | a :: l' => Seq a (seqs l')
  end.

Fixpoint alts (l : list regex) : regex :=
  match l with
  | [] => Eps
  | [a] => a
  | a :: l' => Alt a (alts l')
  end.

(** A literal, case-sensitive. *)
Definition lit (s : string) : regex :=
  seqs (map (fun x => Chr (is_char x)) (s2l s)).

(** A literal under [re.IGNORECASE]. *)
Definition ci (x : ascii) : cclass := fun c => Ascii.eqb (lower c) (lower x).
Definition lit_ci (s : string) : regex :=
  seqs (map (fun x => Chr (ci x)) (s2l s)).

(** The matcher's state: the subject before the cursor (reversed), the
    subject from the cursor on, and the groups captured so far. *)
Record mstate : Type := MS {
  ms_pre : str;
  ms_rest : str;
  ms_caps : nat -> str
}.

Definition no_caps : nat -> str := fun _ => [].

Definition set_cap (i : nat) (v : str) (cs : nat -> str) : nat -> str :=
  fun j => if Nat.eqb j i then v else cs j.

Definition kont := mstate -> option mstate.

Definition orelse (a b : option mstate) : option mstate :=
  match a with
  | Some x => Some x
  | None => b
  end.

Fixpoint star_greedy (p : cclass) (cs : nat -> str) (k : kont)
    (pre rest : str) : option mstate :=
  match rest with
  | c :: t =>
      if p c then orelse (star_greedy p cs k (c :: pre) t) (k (MS pre rest cs))
      else k (MS pre rest cs)
  | [] => k (MS pre rest cs)
  end.

Fixpoint star_lazy (p : cclass) (cs : nat -> str) (k : kont)
    (pre rest : str) : option mstate :=
  orelse (k (MS pre rest cs))
    match rest with
    | c :: t => if p c then star_lazy p cs k (c :: pre) t else None
    | [] => None
    end.

Definition at_word_boundary (pre rest : str) : bool :=
  xorb (match pre with c :: _ => is_word c | [] => false end)
       (match rest with c :: _ => is_word c | [] => false end).

Definition at_eol (rest : str) : bool :=
  match rest with
  | [] => true
  | [c] => Ascii.eqb c ch_nl
  | _ => false
  end.

(** Text consumed between two states of one match. *)
Definition consumed (st st' : mstate) : str :=
  firstn (length (ms_rest st) - length (ms_rest st')) (ms_rest st).

(** The backtracking matcher, in continuation-passing style: [k] is what
    remains to be matched, and the first success in priority order wins. *)
Fixpoint rx (r : regex) (st : mstate) (k : kont) : option mstate :=
  match r with
  | Eps => k st
  | Chr p =>
      match ms_rest st with
      | c :: t => if p c then k (MS (c :: ms_pre st) t (ms_caps st)) else None
      | [] => None
      end
  | Seq a b => rx a st (fun st' => rx b st' k)
  | Alt a b => orelse (rx a st k) (rx b st k)
  | Star true p => star_greedy p (ms_caps st) k (ms_pre st) (ms_rest st)
  | Star false p => star_lazy p (ms_caps st) k (ms_pre st) (ms_rest st)
  | Group i a =>
      rx a st (fun st' =>
        k (MS (ms_pre st') (ms_rest st')
              (set_cap i (consumed st st') (ms_caps st'))))
  | Bol => match ms_pre st with [] => k st | _ :: _ => None end
  | Eol => if at_eol (ms_rest st) then k st else None
  | EndZ => match ms_rest st with [] => k st | _ :: _ => None end
  | WordB => if at_word_boundary (ms_pre st) (ms_rest st) then k st else None
  | Ahead a => match rx a st Some with Some _ => k st | None => None end
  end.

(** One match attempt at the cursor: the length of the match and its groups. *)
Definition match_at (r : regex) (pre rest : str) : option (nat * (nat -> str)) :=
  match rx r (MS pre rest no_caps) Some with
  | Some st' => Some (length rest - length (ms_rest st'), ms_caps st')
  | None => None
  end.

(** A replacement: from the whole match and its groups to the new text. *)
Definition repl := str -> (nat -> str) -> str.

Definition const_repl (s : string) : repl := fun _ _ => s2l s.

(** [re.sub]: scan left to right; [skip] counts the characters of the
    current match still to be passed over.  An empty match is replaced and
    the scan moves on by one character (Python 3.7 and later). *)
Fixpoint sub_from (r : regex) (f : repl) (skip : nat) (pre rest : str) : str :=
  match skip with
  | S n =>
      match rest with
      | c :: t => sub_from r f n (c :: pre) t
      | [] => []
      end
  | O =>
      match match_at r pre rest with
      | Some (n, cs) =>
          f (firstn n rest) cs ++
          match rest with
          | c :: t =>
              (if Nat.eqb n 0 then [c] else []) ++ sub_from r f (n - 1) (c :: pre) t
          | [] => []
          end
      | None =>
          match rest with
          | c :: t => c :: sub_from r f 0 (c :: pre) t
          | [] => []
          end
      end
  end.

Definition sub (r : regex) (f : repl) (s : str) : str := sub_from r f 0 [] s.

(** [re.search]: the leftmost position with a match; its start, length, groups. *)
Fixpoint search_from (r : regex) (pre rest : str) : option (nat * nat * (nat -> str)) :=
  match match_at r pre rest with
  | Some (n, cs) => Some (length pre, n, cs)
  | None =>
      match rest with
      | c :: t => search_from r (c :: pre) t
      | [] => None
      end
  end.

Definition search (r : regex) (s : str) : option (nat * nat * (nat -> str)) :=
  search_from r [] s.

Definition found (r : regex) (s : str) : bool :=
  match search r s with Some _ => true | None => false end.

(** [re.finditer]: the start positions of the successive non-overlapping
    matches (used in the source with patterns that never match empty). *)
Fixpoint starts_from (r : regex) (skip : nat) (pre rest : str) : list nat :=
  match skip with
  | S n =>
      match rest with
      | c :: t => starts_from r n (c :: pre) t
      | [] => []
      end
  | O =>
      match match_at r pre rest with
      | Some (n, _) =>
          length pre ::
          match rest with
          | c :: t => starts_from r (n - 1) (c :: pre) t
          | [] => []
          end
      | None =>
          match rest with
          | c :: t => starts_from r 0 (c :: pre) t
          | [] => []
          end
      end
  end.

Definition finditer_starts (r : regex) (s : str) : list nat := starts_from r 0 [] s.

(** [re.split]: [cur] is the field being read, reversed.  With
    [keep = true] the pattern is one capturing group around the whole
    match, so each separator is returned as a field of its own.  Used in the
    source with patterns that never match empty. *)
Fixpoint split_from (r : regex) (keep : bool) (skip : nat) (cur pre rest : str)
    : list str :=
  match skip with
  | S n =>
      match rest with
      | c :: t => split_from r keep n cur (c :: pre) t
      | [] => [rev cur]
      end
  | O =>
      match match_at r pre rest with
      | Some (S n, _) =>
          rev cur :: (if keep then [firstn (S n) rest] else []) ++
          match rest with
          | c :: t => split_from r keep n [] (c :: pre) t
          | [] => [[]]
          end
      | _ =>
          match rest with
          | c :: t => split_from r keep 0 (c :: cur) (c :: pre) t
          | [] => [rev cur]
          end
      end
  end.

Definition split (r : regex) (keep : bool) (s : str) : list str :=
  split_from r keep 0 [] [] s.

End Re.

(** ** Segmentation: [parse_ingredients_from_ocr] of [test3.py] *)

Import Re.

Definition nl_cr : cclass := cor (is_char ch_nl) (is_char ch_cr).

(** The stop keywords of the header patterns' lookahead. *)
Definition stop_keywords : list string :=
  ["directions"; "use"; "warning"; "caution"; "disclaimer"; "made in";
   "for external use"; "how to use"]%string.

(** [(?=\b(?:directions|...|how to use)\b|\Z)] under [re.IGNORECASE]. *)
Definition stop_ahead : regex :=
  Ahead (Alt (seqs [WordB; alts (map lit_ci stop_keywords); WordB]) EndZ).

(** [(.*?)] under [re.DOTALL]. *)
Definition lazy_group : regex := Group 1 (Star false any_char).

Definition sep_opt : regex := Opt (one_of ":-;").

(** The three [ingredient_patterns], in the order of the source. *)
Definition ingredient_patterns : list regex :=
  [ seqs [lit_ci "ingredients"; Star true is_space; sep_opt; Star true is_space;
          lazy_group; stop_ahead];
    seqs [lit_ci "ingredient"; Opt (ci "s"); sep_opt; Star true is_space;
          lazy_group; stop_ahead];
    seqs [lit_ci "contains"; sep_opt; Star true is_space;
          lazy_group; stop_ahead] ].

(** The loop over the patterns: the first one that matches gives
    [match.group(1).strip()] and ends the loop. *)
Fixpoint first_section (ps : list regex) (ocr_text : str) : option str :=
  match ps with
  | [] => None
  | p :: ps' =>
      match search p ocr_text with
      | Some (_, _, cs) => Some (strip (cs 1))
      | None => first_section ps' ocr_text
      end
  end.

(** The ingredient span: [if not ingredients_text: ingredients_text = ocr_text]. *)
Definition extract_span (ocr_text : str) : str :=
  match first_section ingredient_patterns ocr_text with
  | Some (c :: t) => c :: t
  | _ => ocr_text
  end.

(** The seven substitutions of lines 214-220, one definition per line. *)

(** [(\w+)\-\s*[\n\r]+\s*(\w+)] *)
Definition re_hyphen_break : regex :=
  seqs [Group 1 (Plus true is_word); Chr (is_char "-"); Star true is_space;
        Plus true nl_cr; Star true is_space; Group 2 (Plus true is_word)].

(** [(\w+)\s+\-\s+(\w+)] *)
Definition re_spaced_hyphen : regex :=
  seqs [Group 1 (Plus true is_word); Plus true is_space; Chr (is_char "-");
        Plus true is_space; Group 2 (Plus true is_word)].

Definition repl_12 : repl := fun _ cs => cs 1 ++ cs 2.
Definition repl_1_hyphen_2 : repl := fun _ cs => cs 1 ++ s2l "-" ++ cs 2.

Definition join_hyphen_breaks : str -> str := sub re_hyphen_break repl_12.
Definition tighten_hyphens : str -> str := sub re_spaced_hyphen repl_1_hyphen_2.
Definition newlines_to_space : str -> str := sub (Plus true nl_cr) (const_repl " ").
Definition collapse_spaces : str -> str := sub (Plus true is_space) (const_repl " ").
Definition separators_to_commas : str -> str := sub (Chr (one_of ";:")) (const_repl ",").
Definition open_paren_spaces : str -> str :=
  sub (Seq (Chr (is_char "(")) (Plus true is_space)) (const_repl "(").
Definition close_paren_spaces : str -> str :=
  sub (Seq (Plus true is_space) (Chr (is_char ")"))) (const_repl ")").

(** Lines 214-220 of [parse_ingredients_from_ocr]: the text normalizer. *)
Definition normalize (t : str) : str :=
  close_paren_spaces
    (open_paren_spaces
       (separators_to_commas
          (collapse_spaces
             (newlines_to_space
                (tighten_hyphens
                   (join_hyphen_breaks t)))))).

(** [common_abbrev] *)
Definition common_abbrev : list string :=
  ["vit."; "var."; "spp."; "sp."; "subsp."; "vol."; "no."; "dr."; "st."]%string.

(** [lambda m: m.group().replace(".", "@")] *)
Definition repl_protect : repl := fun m _ => replace_char "." "@" m.

(** The loop over [common_abbrev]: each abbreviation, escaped and matched
    case-insensitively, has its period replaced by [@]. *)
Definition protect_abbrev (item : str) : str :=
  fold_left (fun acc abbrev => sub (lit_ci abbrev) repl_protect acc)
            common_abbrev item.

(** [(\.\s+)(?=[A-Z])] *)
Definition re_period : regex :=
  Seq (Group 1 (Seq (Chr (is_char ".")) (Plus true is_space))) (Ahead (Chr AZ)).

(** The loop [for i in range(0, len(split_by_period), 2)]: the fields at even
    positions, each followed by a period unless it is the last entry. *)
Fixpoint period_parts (l : list str) : list str :=
  match l with
  | [] => []
  | [f] => [f]
  | f :: _ :: l' => (f ++ s2l ".") :: period_parts l'
  end.

(** [([a-z])([A-Z][a-z])] *)
Definition re_seam : regex :=
  Seq (Group 1 (Chr az)) (Group 2 (Seq (Chr AZ) (Chr az))).

Definition guard_prefixes : list string :=
  ["di"; "tri"; "tetra"; "poly"; "mono"; "iso"]%string.
Definition guard_terms : list string := ["vitamin"; "extract"; "oil"]%string.

(** The three [continue] guards on a candidate split point [idx]. *)
Definition valid_split (part : str) (idx : nat) : bool :=
  let open_parens := count_char "(" (firstn idx part) in
  let close_parens := count_char ")" (firstn idx part) in
  if Nat.ltb close_parens open_parens then false
  else
    let prefix_context := lower_str (slice (idx - 6) idx part) in
    if existsb (fun p => contains (s2l p) prefix_context) guard_prefixes then false
    else
      let context := slice (idx - 10) (Nat.min (length part) (idx + 10)) part in
      negb (existsb (fun p => contains (s2l p) (lower_str context)) guard_terms).

(** The loop [for idx in valid_splits] with its running [start_idx]; the
    last component is the final value of [start_idx]. *)
Fixpoint cut_at (part : str) (start_idx : nat) (splits : list nat)
    : list str * nat :=
  match splits with
  | [] => ([], start_idx)
  | idx :: rest =>
      let subpart := strip (slice start_idx idx part) in
      let (tl, last) := cut_at part idx rest in
      (match subpart with [] => tl | _ => subpart :: tl end, last)
  end.

(** The body of [for part in parts]. *)
Definition split_fused (part0 : str) : list str :=
  let part := replace_char "@" "." part0 in
  let matches := finditer_starts re_seam part in
  match matches with
  | [] => [part]
  | _ =>
      let valid_splits := filter (valid_split part) (map S matches) in
      match valid_splits with
      | [] => [part]
      | _ =>
          let (subparts, start_idx) := cut_at part 0 valid_splits in
          if Nat.ltb start_idx (length part)
          then subparts ++ [strip (skipn start_idx part)]
          else subparts
      end
  end.

(** The body of [for item in comma_split], for an item that is kept. *)
Definition segment_item (item : str) : list str :=
  let protected_item := protect_abbrev item in
  let split_by_period := split re_period true protected_item in
  let parts := match period_parts split_by_period with
               | [] => [protected_item]
               | ps => ps
               end in
  flat_map split_fused parts.

(** [processed_items] *)
Definition segment (ingredients_text : str) : list str :=
  let comma_split := map strip (split_on "," ingredients_text) in
  flat_map (fun item => if Nat.leb (length item) 2 then [] else segment_item item)
           comma_split.

(** [^[^a-zA-Z0-9(]+|[^a-zA-Z0-9)]+$] *)
Definition re_edges : regex :=
  Alt (Seq Bol (Plus true (cnot (cor alnum (is_char "(")))))
      (Seq (Plus true (cnot (cor alnum (is_char ")")))) Eol).

(** [([A-Za-z])l([0-9])] and [([A-Za-z])O([0-9])] *)
Definition re_confused (x : ascii) : regex :=
  seqs [Group 1 (Chr alpha); Chr (is_char x); Group 2 (Chr d09)].

(** Lines 294-298: the cleaning of one entry of [processed_items]. *)
Definition clean (ing : str) : str :=
  let ing := strip ing in
  let ing := sub re_edges (const_repl "") ing in
  let ing := sub (Plus true is_space) (const_repl " ") ing in
  let ing := sub (re_confused "l") repl_1_hyphen_2 ing in
  sub (re_confused "O") repl_1_hyphen_2 ing.

(** [final_ingredients] *)
Definition clean_all (processed_items : list str) : list str :=
  filter (fun ing => Nat.ltb 1 (length ing)) (map clean processed_items).

Definition parse_span (span : str) : list str := clean_all (segment (normalize span)).

Definition parse_ingredients_from_ocr (ocr_text : str) : list str :=
  match ocr_text with
  | [] => []
  | _ => parse_span (extract_span ocr_text)
  end.

(** ** The reference service: [EWGSkindeepAPI] of [Analyser.py] *)

(** What the selectors of [find_matches] read from one [.product-tile]:
    the text of its [.product-name] element, when there is one, and the
    [href] of its first link, when it has one. *)
Record Tile : Type := {
  tile_name : option str;
  tile_href : option str
}.

(** What the selectors read from a parsed page: the tiles of a search page,
    and the score, data level and concerns of an ingredient page. *)
Record Soup : Type := {
  product_tiles : list Tile;
  page_score_range : option str;
  page_data_level : option str;
  page_concerns : list (str * str)
}.

Record Response : Type := {
  status_code : Z;
  soup : Soup
}.

(** The world outside the program: a clock (in milliseconds), the
    requests sent so far with their sending times, oldest first, and, as a
    record of the run, the calls of [get_ingredient_data] with their
    [exact_match_only] flag. *)
Record World : Type := {
  now : Z;
  sent : list (Z * str);
  lookups : list (str * bool)
}.

(** The fields of an [EWGSkindeepAPI] object. *)
Record EWGSkindeepAPI : Type := {
  rate_limit : Z;
  last_request_time : Z
}.

(** [EWGSkindeepAPI()]: [rate_limit=1] second, [last_request_time = 0]. *)
Definition EWGSkindeepAPI_new : EWGSkindeepAPI :=
  {| rate_limit := 1000; last_request_time := 0 |}.

(** [Levenshtein.ratio(a, b)] is [2 * lcs / (len(a) + len(b))], with [lcs]
    the length of a longest common subsequence, and 1 for two empty
    strings. *)
Fixpoint lcs (a : str) : str -> nat :=
  fix lcs_a (b : str) : nat :=
    match a, b with
    | x :: a', y :: b' =>
        if Ascii.eqb x y then S (lcs a' b')
        else Nat.max (lcs a' b) (lcs_a b')
    | _, _ => 0
    end.

(** [Levenshtein.ratio(a, b) > 0.9] *)
Definition ratio_above_09 (a b : str) : bool :=
  match a, b with
  | [], [] => true
  | _, _ => Nat.ltb (9 * (length a + length b)) (20 * lcs a b)
  end.

(** Programs that use the service: state is the client object held in
    [ewg] (or [self.ewg_api]) and the world. *)
Definition M (A : Type) : Type := EWGSkindeepAPI * World -> A * (EWGSkindeepAPI * World).

Definition ret {A} (a : A) : M A := fun s => (a, s).
Definition bind {A B} (m : M A) (k : A -> M B) : M B :=
  fun s => let (a, s') := m s in k a s'.

Notation "x <- m ;; k" := (bind m (fun x => k))
  (at level 61, m at next level, right associativity).
Notation "' p <- m ;; k" := (bind m (fun p => k))
  (at level 61, p pattern, m at next level, right associativity).

(** Run [m] on a client object created on the spot; the object is dropped
    afterwards and the caller's client is untouched. *)
Definition on_new_client {A} (m : M A) : M A :=
  fun s => let (a, s') := m (EWGSkindeepAPI_new, snd s) in (a, (fst s, snd s')).

Inductive Error : Type :=
| SearchFailed (status : Z)
| NoSuitableMatch (term : str)
| PageFailed (status : Z).

Record IngredientInfo : Type := {
  info_name : option str;
  info_url : option str;
  info_score_range : option str;
  info_data_level : option str;
  info_concerns : option (list (str * str))
}.

Definition empty_info : IngredientInfo :=
  {| info_name := None; info_url := None; info_score_range := None;
     info_data_level := None; info_concerns := None |}.

Inductive AnalysisType : Type := Exact | NoExactMatch.

(** The dictionary built by [get_ingredient_data]; optional keys are options. *)
Record Result : Type := {
  search_term : str;
  ingredient_found : bool;
  ingredient_info : IngredientInfo;
  all_matches : list (str * option str);
  error : option Error;
  exact_match : option bool;
  analysis_type : option AnalysisType      (* key "match_type" *)
}.

(** [result.get("exact_match", False)] *)
Definition get_exact_match (r : Result) : bool :=
  match exact_match r with Some b => b | None => false end.

(** Python truth of an optional string: neither [None] nor empty. *)
Definition truthy (o : option str) : bool :=
  match o with Some (_ :: _) => true | _ => false end.

Section Service.

(** The service and the network: the response to a request and the time it
    takes, which may depend on everything that happened before. *)
Variable server : World -> str -> Response * N.

(** [_make_request] *)
Definition _make_request (url : str) : M Response :=
  fun '(self, w) =>
    let elapsed := (now w - last_request_time self)%Z in
    let t_send := if (elapsed <? rate_limit self)%Z
                  then (now w + (rate_limit self - elapsed))%Z   (* time.sleep *)
                  else now w in
    let w1 := {| now := t_send; sent := sent w; lookups := lookups w |} in
    let (response, took) := server w1 url in
    let w2 := {| now := (t_send + Z.of_N took)%Z;
                 sent := sent w ++ [(t_send, url)];
                 lookups := lookups w |} in
    (response, ({| rate_limit := rate_limit self; last_request_time := now w2 |}, w2)).

Definition search_url (term : str) : str :=
  s2l "http://www.ewg.org/skindeep/search/?search=" ++ term
  ++ s2l "&search_type=ingredients".

(** [search_ingredient] and [get_ingredient_page]: the status and, for
    status 200, the parsed page. *)
Definition search_ingredient (term : str) : M (Z * option Soup) :=
  response <- _make_request (search_url term) ;;
  ret (if (status_code response =? 200)%Z
       then (status_code response, Some (soup response))
       else (status_code response, None)).

Definition get_ingredient_page (url : str) : M (Z * option Soup) :=
  response <- _make_request url ;;
  ret (if (status_code response =? 200)%Z
       then (status_code response, Some (soup response))
       else (status_code response, None)).

End Service.

Definition tile_link (t : Tile) : option str :=
  match tile_href t with
  | Some h => Some (if startswith (s2l "http") h then h
                    else s2l "https://www.ewg.org" ++ h)
  | None => None
  end.

(** The loop of [find_matches] over the tiles: [inl] is the early return on an
    exact match, [inr] the state at the end of the loop. *)
Fixpoint find_loop (products : list Tile) (search_term_normalized : str)
    (all : list (str * option str)) (best_match best_match_link : option str)
    : (str * option str * list (str * option str))
      + (list (str * option str) * option str * option str) :=
  match products with
  | [] => inr (all, best_match, best_match_link)
  | product :: rest =>
      match tile_name product with
      | None => find_loop rest search_term_normalized all best_match best_match_link
      | Some text =>
          let product_name := strip text in
          let product_link := tile_link product in
          let all' := all ++ [(product_name, product_link)] in
          let product_name_normalized := lower_str product_name in
          if str_eqb search_term_normalized product_name_normalized
          then inl (product_name, product_link, all')
          else if (contains search_term_normalized product_name_normalized
                   && negb (truthy best_match))%bool
          then find_loop rest search_term_normalized all' (Some product_name) product_link
          else find_loop rest search_term_normalized all' best_match best_match_link
      end
  end.

(** [find_matches] *)
Definition find_matches (s : Soup) (term : str) (exact_match_only : bool)
    : option str * option str * list (str * option str) :=
  match find_loop (product_tiles s) (lower_str term) [] None None with
  | inl (name, link, all) => (Some name, link, all)
  | inr (all, best_match, best_match_link) =>
      if exact_match_only then (None, None, all)
      else if truthy best_match then (best_match, best_match_link, all)
      else match all with
           | (name, link) :: _ => (Some name, link, all)
           | [] => (None, None, all)
           end
  end.

(** [extract_score] and [extract_concerns], on the selectors' results. *)
Definition extract_score (s : Soup) : option str * option str :=
  (page_score_range s, page_data_level s).
Definition extract_concerns (s : Soup) : list (str * str) := page_concerns s.

Section Client.

Variable server : World -> str -> Response * N.

Definition log_lookup (term : str) (exact_match_only : bool) : M unit :=
  fun '(self, w) =>
    (tt, (self, {| now := now w; sent := sent w;
                   lookups := lookups w ++ [(term, exact_match_only)] |})).

(** [get_ingredient_data] *)
Definition get_ingredient_data (term : str) (exact_match_only : bool) : M Result :=
  let result := {| search_term := term; ingredient_found := false;
                   ingredient_info := empty_info; all_matches := [];
                   error := None; exact_match := None; analysis_type := None |} in
  _ <- log_lookup term exact_match_only ;;
  '(status, search_soup) <- search_ingredient server term ;;
  match (status =? 200)%Z, search_soup with
  | true, Some search_soup =>
      let '(ingredient_name, ingredient_url, all) :=
        find_matches search_soup term exact_match_only in
      match ingredient_name, ingredient_url with
      | Some (n0 :: n'), Some (u0 :: u') =>
          let name := n0 :: n' in
          let url := u0 :: u' in
          let is_exact := ratio_above_09 term name in
          '(status, ingredient_soup) <- get_ingredient_page server url ;;
          match (status =? 200)%Z, ingredient_soup with
          | true, Some ingredient_soup =>
              let (score_range, data_level) := extract_score ingredient_soup in
              let concerns := extract_concerns ingredient_soup in
              ret {| search_term := term; ingredient_found := true;
                     ingredient_info :=
                       {| info_name := Some name; info_url := Some url;
                          info_score_range :=
                            if truthy score_range then score_range else None;
                          info_data_level :=
                            if truthy data_level then data_level else None;
                          info_concerns :=
                            match concerns with [] => None | _ => Some concerns end |};
                     all_matches := all; error := None;
                     exact_match := Some is_exact; analysis_type := None |}
          | _, _ =>
              ret {| search_term := term; ingredient_found := true;
                     ingredient_info :=
                       {| info_name := Some name; info_url := Some url;
                          info_score_range := None; info_data_level := None;
                          info_concerns := None |};
                     all_matches := all; error := Some (PageFailed status);
                     exact_match := Some is_exact; analysis_type := None |}
          end
      | _, _ =>
          ret {| search_term := term; ingredient_found := false;
                 ingredient_info := empty_info; all_matches := all;
                 error := Some (NoSuitableMatch term);
                 exact_match := None; analysis_type := None |}
      end
  | _, _ =>
      ret {| search_term := term; ingredient_found := false;
             ingredient_info := empty_info; all_matches := [];
             error := Some (SearchFailed status);
             exact_match := None; analysis_type := None |}
  end.

Definition set_analysis_type (t : AnalysisType) (r : Result) : Result :=
  {| search_term := search_term r; ingredient_found := ingredient_found r;
     ingredient_info := ingredient_info r; all_matches := all_matches r;
     error := error r; exact_match := exact_match r; analysis_type := Some t |}.

(** The test [result["ingredient_found"] and result.get("exact_match", False)]. *)
Definition is_exact_hit (r : Result) : bool :=
  (ingredient_found r && get_exact_match r)%bool.

(** [analyze_ingredient] (the same in [EWGSkindeepAPI] and [IngredientAnalyzer]) *)
Definition analyze_ingredient (ingredient : str) : M Result :=
  result <- get_ingredient_data ingredient true ;;
  ret (if is_exact_hit result then set_analysis_type Exact result
       else set_analysis_type NoExactMatch result).

End Client.

(** ** Reconciliation: [smart_analyze] and [smart_analyze_list] *)

Inductive MatchType : Type :=
| MtExact | MtSplitExact | MtFuzzy | MtNoMatch
| MtCombinedExact | MtCombinedCommaExact | MtFinalFuzzy.

Definition MatchType_eqb (a b : MatchType) : bool :=
  match a, b with
  | MtExact, MtExact | MtSplitExact, MtSplitExact | MtFuzzy, MtFuzzy
  | MtNoMatch, MtNoMatch | MtCombinedExact, MtCombinedExact
  | MtCombinedCommaExact, MtCombinedCommaExact | MtFinalFuzzy, MtFinalFuzzy => true
  | _, _ => false
  end.

(** The dictionaries returned by [smart_analyze] and collected in [results]. *)
Record MatchResult : Type := {
  original : str;
  corrected : option str;
  match_type : MatchType;
  data : option Result
}.

(** [[\s,/\-]+] *)
Definition re_word_sep : regex := Plus true (cor is_space (one_of ",/-")).

Definition stop_words : list string := ["and"; "with"; "plus"; "the"]%string.

(** [words], after the list comprehension. *)
Definition words_of (ingredient : str) : list str :=
  filter (fun w => (Nat.ltb 2 (length w)
                    && negb (existsb (str_eqb (lower_str w)) (map s2l stop_words)))%bool)
         (split re_word_sep false ingredient).

(** [result["match_type"] in ["exact", "fuzzy"]] *)
Definition direct_or_fuzzy (r : MatchResult) : bool :=
  (MatchType_eqb (match_type r) MtExact || MatchType_eqb (match_type r) MtFuzzy)%bool.

Section Reconciliation.

Variable server : World -> str -> Response * N.

(** [test3.py] sends the fuzzy query of [smart_analyze] through
    [EWGSkindeepAPI()], a client created on the spot; the method of
    [IngredientAnalyzer] in [Analyser.py] sends it through [self.ewg_api].
    The two are otherwise the same text; [new_client] tells them apart. *)
Variable new_client : bool.

(** The loop [for word in words] that fills [found_matches]. *)
Fixpoint split_phase (words : list str) : M (list MatchResult) :=
  match words with
  | [] => ret []
  | word :: rest =>
      result <- analyze_ingredient server word ;;
      found <- split_phase rest ;;
      ret (if is_exact_hit result
           then {| original := word; corrected := Some word;
                   match_type := MtSplitExact; data := Some result |} :: found
           else found)
  end.

Definition fuzzy_query (ingredient : str) : M Result :=
  if new_client then on_new_client (get_ingredient_data server ingredient false)
  else get_ingredient_data server ingredient false.

Definition smart_analyze_with (ingredient : str) : M MatchResult :=
  result <- analyze_ingredient server ingredient ;;
  if is_exact_hit result
  then ret {| original := ingredient; corrected := Some ingredient;
              match_type := MtExact; data := Some result |}
  else
    let words := words_of ingredient in
    found_matches <- (if Nat.ltb 1 (length words) then split_phase words else ret []) ;;
    match found_matches with
    | m :: _ => ret m
    | [] =>
        result <- fuzzy_query ingredient ;;
        ret (if ingredient_found result
             then {| original := ingredient;
                     corrected := info_name (ingredient_info result);
                     match_type := MtFuzzy; data := Some result |}
             else {| original := ingredient; corrected := None;
                     match_type := MtNoMatch; data := None |})
    end.

(** "PHASE 1" of [smart_analyze_list]: [results] and [unmatched]. *)
Fixpoint first_pass (ingredient_list : list str) : M (list MatchResult * list str) :=
  match ingredient_list with
  | [] => ret ([], [])
  | ingredient :: rest =>
      result <- smart_analyze_with ingredient ;;
      '(results, unmatched) <- first_pass rest ;;
      ret (if direct_or_fuzzy result then (result :: results, unmatched)
           else (results, ingredient :: unmatched))
  end.

Definition combined_result (a b corrected : str) (t : MatchType) (r : Result)
    : MatchResult :=
  {| original := a ++ s2l " + " ++ b; corrected := Some corrected;
     match_type := t; data := Some r |}.

(** The loop [while i < len(unmatched) - 1], on the suffix [unmatched[i:]]:
    the results it appends and the suffix at which it stops. *)
Fixpoint combine_scan (unmatched : list str) : M (list MatchResult * list str) :=
  match unmatched with
  | a :: ((b :: rest) as tail) =>
      let combined := a ++ s2l " " ++ b in
      combined_res <- analyze_ingredient server combined ;;
      if is_exact_hit combined_res
      then '(rs, remaining) <- combine_scan rest ;;
           ret (combined_result a b combined MtCombinedExact combined_res :: rs, remaining)
      else
        let combined_comma := a ++ s2l ", " ++ b in
        comma_res <- analyze_ingredient server combined_comma ;;
        if is_exact_hit comma_res
        then '(rs, remaining) <- combine_scan rest ;;
             ret (combined_result a b combined_comma MtCombinedCommaExact comma_res :: rs,
                  remaining)
        else combine_scan tail
  | remaining => ret ([], remaining)
  end.

(** The loop [while i < len(unmatched)] that follows, on [unmatched[i:]]. *)
Fixpoint final_fuzzy (remaining : list str) : M (list MatchResult) :=
  match remaining with
  | [] => ret []
  | u :: rest =>
      fuzzy_result <- get_ingredient_data server u false ;;
      rs <- final_fuzzy rest ;;
      ret ((if ingredient_found fuzzy_result
            then {| original := u;
                    corrected := info_name (ingredient_info fuzzy_result);
                    match_type := MtFinalFuzzy; data := Some fuzzy_result |}
            else {| original := u; corrected := None;
                    match_type := MtNoMatch; data := None |}) :: rs)
  end.

Definition smart_analyze_list_with (ingredient_list : list str) : M (list MatchResult) :=
  '(results, unmatched) <- first_pass ingredient_list ;;
  if Nat.leb 2 (length unmatched)
  then '(rs, remaining) <- combine_scan unmatched ;;
       fs <- final_fuzzy remaining ;;
       ret (results ++ rs ++ fs)
  else ret results.

End Reconciliation.

(** [smart_analyze] and [smart_analyze_list] of [test3.py]. *)
Definition smart_analyze server := smart_analyze_with server true.
Definition smart_analyze_list server := smart_analyze_list_with server true.

(** The methods of [IngredientAnalyzer] in [Analyser.py]. *)
Module IngredientAnalyzer.
Definition smart_analyze server := smart_analyze_with server false.
Definition smart_analyze_list server := smart_analyze_list_with server false.
End IngredientAnalyzer.

(** ** [remove_non_ingredients] and the separator step of [img2text6.py] *)

(** [[;:\|]] of [parse_ingredients], line 48. *)
Definition separators_to_commas_v1 : str -> str :=
  sub (Chr (one_of ";:|")) (const_repl ",").

Definition digits_dots : regex := Plus true (cor d09 (is_char ".")).

(** [non_ingredient_patterns], searched with [re.IGNORECASE]. *)
Definition non_ingredient_patterns : list regex :=
  [ seqs [Bol; digits_dots; Eol];
    seqs [Bol; digits_dots; Star true is_space; Chr (is_char "%"); Eol];
    seqs [Bol; lit_ci "may"; Plus true is_space; lit_ci "contain"];
    seqs [Bol; lit_ci "and"; Eol];
    seqs [Bol; lit_ci "contains"; Eol];
    seqs [Bol; lit_ci "ingredients"; Eol];
    seqs [Bol; lit_ci "warning"; Opt (ci "s"); Eol];
    seqs [Bol; lit_ci "caution"];
    seqs [Bol; lit_ci "direction"] ].

(** The first loop: [seen] holds the lower-cased tokens met so far. *)
Fixpoint unique_from (seen : list str) (ingredients_list : list str) : list str :=
  match ingredients_list with
  | [] => []
  | ing :: rest =>
      if existsb (str_eqb (lower_str ing)) seen then unique_from seen rest
      else ing :: unique_from (lower_str ing :: seen) rest
  end.

Definition is_non_ingredient (ing : str) : bool :=
  existsb (fun pattern => found pattern ing) non_ingredient_patterns.

Definition remove_non_ingredients (ingredients_list : list str) : list str :=
  let unique_ingredients := unique_from [] ingredients_list in
  filter (fun ing => (negb (is_non_ingredient ing) && Nat.leb 2 (length ing))%bool)
         unique_ingredients.

(** ** Reconciliation with the input positions made visible

    The dictionaries of the source do not record which input tokens a
    result stands for.  The functions below are [first_pass],
    [combine_scan], [final_fuzzy] and [smart_analyze_list_with] again, each
    result paired with the positions, in [ingredient_list], of the tokens
    it was made from; [ix_erase] relates them to the originals. *)

Section Positions.

Variable server : World -> str -> Response * N.
Variable new_client : bool.

Fixpoint first_pass_ix (i : nat) (ingredient_list : list str)
    : M (list (list nat * MatchResult) * list (nat * str)) :=
  match ingredient_list with
  | [] => ret ([], [])
  | ingredient :: rest =>
      result <- smart_analyze_with server new_client ingredient ;;
      '(results, unmatched) <- first_pass_ix (S i) rest ;;
      ret (if direct_or_fuzzy result then (([i], result) :: results, unmatched)
           else (results, (i, ingredient) :: unmatched))
  end.

Fixpoint combine_scan_ix (unmatched : list (nat * str))
    : M (list (list nat * MatchResult) * list (nat * str)) :=
  match unmatched with
  | (i, a) :: (((j, b) :: rest) as tail) =>
      let combined := a ++ s2l " " ++ b in
      combined_res <- analyze_ingredient server combined ;;
      if is_exact_hit combined_res
      then '(rs, remaining) <- combine_scan_ix rest ;;
           ret (([i; j], combined_result a b combined MtCombinedExact combined_res) :: rs,
                remaining)
      else
        let combined_comma := a ++ s2l ", " ++ b in
        comma_res <- analyze_ingredient server combined_comma ;;
        if is_exact_hit comma_res
        then '(rs, remaining) <- combine_scan_ix rest ;;
             ret (([i; j],
                   combined_result a b combined_comma MtCombinedCommaExact comma_res) :: rs,
                  remaining)
        else combine_scan_ix tail
  | remaining => ret ([], remaining)
  end.

Fixpoint final_fuzzy_ix (remaining : list (nat * str)) : M (list (list nat * MatchResult)) :=
  match remaining with
  | [] => ret []
  | (i, u) :: rest =>
      fuzzy_result <- get_ingredient_data server u false ;;
      rs <- final_fuzzy_ix rest ;;
      ret (([i],
            if ingredient_found fuzzy_result
            then {| original := u;
                    corrected := info_name (ingredient_info fuzzy_result);
                    match_type := MtFinalFuzzy; data := Some fuzzy_result |}
            else {| original := u; corrected := None;
                    match_type := MtNoMatch; data := None |}) :: rs)
  end.

Definition smart_analyze_list_ix (ingredient_list : list str)
    : M (list (list nat * MatchResult)) :=
  '(results, unmatched) <- first_pass_ix 0 ingredient_list ;;
  if Nat.leb 2 (length unmatched)
  then '(rs, remaining) <- combine_scan_ix unmatched ;;
       fs <- final_fuzzy_ix remaining ;;
       ret (results ++ rs ++ fs)
  else ret results.

End Positions.

(** ** Vocabulary of the statements *)

(** The lookups a run adds to the record of the world. *)
Definition new_lookups {A} (m : M A) (s : EWGSkindeepAPI * World) : list (str * bool) :=
  skipn (length (lookups (snd s))) (lookups (snd (snd (m s)))).




(** Sending times at least [interval] apart, request after request. *)
Fixpoint spaced (interval : Z) (log : list (Z * str)) : Prop :=
  match log with
  | (t1, _) :: (((t2, _) :: _) as log') => (t1 + interval <= t2)%Z /\ spaced interval log'
  | _ => True
  end.

(** Strictly increasing positions. *)
Fixpoint increasing (l : list nat) : Prop :=
  match l with
  | i :: ((j :: _) as l') => i < j /\ increasing l'
  | _ => True
  end.

Fixpoint non_decreasing (l : list nat) : Prop :=
  match l with
  | i :: ((j :: _) as l') => i <= j /\ non_decreasing l'
  | _ => True
  end.

(** [t] is, element by element, related by [R] to a subsequence of [s]. *)
Inductive rsub {A : Type} (R : A -> A -> Prop) : list A -> list A -> Prop :=
| rsub_nil : forall s, rsub R [] s
| rsub_skip : forall t c s, rsub R t s -> rsub R t (c :: s)
| rsub_take : forall x t c s, R c x -> rsub R t s -> rsub R (x :: t) (c :: s).

(** Plain subsequence. *)
Definition subseq {A : Type} : list A -> list A -> Prop := rsub eq.

(** How a character of the span may appear in a token: unchanged; a
    whitespace character as a space; [@] as a period; [l] or [O] as a hyphen. *)
Definition rendered (c x : ascii) : Prop :=
  x = c
  \/ (is_space c = true /\ x = " "%char)
  \/ (c = "@"%char /\ x = "."%char)
  \/ ((c = "l"%char \/ c = "O"%char) /\ x = "-"%char).

(** A service for the examples: a table from search terms to the tiles of
    the result page; any other address answers with an empty page.  Every
    request takes [took] milliseconds. *)
Definition page_of (tiles : list Tile) : Response :=
  {| status_code := 200;
     soup := {| product_tiles := tiles; page_score_range := None;
                page_data_level := None; page_concerns := [] |} |}.

Fixpoint site_lookup (site : list (string * list Tile)) (url : str) : Response :=
  match site with
  | [] => page_of []
  | (term, tiles) :: rest =>
      if str_eqb (search_url (s2l term)) url then page_of tiles
      else site_lookup rest url
  end.

Definition site_server (site : list (string * list Tile)) (took : N)
    : World -> str -> Response * N :=
  fun _ url => (site_lookup site url, took).

Definition tile (name href : string) : Tile :=
  {| tile_name := Some (s2l name); tile_href := Some (s2l href) |}.

(** A run that starts five seconds after the clock's origin, nothing sent yet. *)
Definition world0 : World := {| now := 5000; sent := []; lookups := [] |}.
Definition start : EWGSkindeepAPI * World := (EWGSkindeepAPI_new, world0).

(** Outcomes that [smart_analyze_list] keeps from the first pass, and the
    types of the results its second pass makes. *)
Definition first_pass_outcome (o : MatchType) : bool :=
  (MatchType_eqb o MtExact || MatchType_eqb o MtFuzzy)%bool.

Definition combined_type (o : MatchType) : Prop :=
  o = MtCombinedExact \/ o = MtCombinedCommaExact.

Definition final_type (o : MatchType) : Prop :=
  o = MtFinalFuzzy \/ o = MtNoMatch.

(** The answer of the service to the direct query for token [t] in state [s]. *)
Definition direct_response (server : World -> str -> Response * N) (t : str)
    (s : EWGSkindeepAPI * World) : Response :=
  fst (bind (log_lookup t true) (fun _ => _make_request server (search_url t)) s).

(** [name] and [link] are those of the first tile whose name, stripped,
    equals [t] up to case. *)
Definition first_exact_tile (tiles : list Tile) (t name : str) (link : option str)
    : Prop :=
  exists before tl after raw,
    tiles = before ++ tl :: after
    /\ Forall (fun p => forall raw', tile_name p = Some raw' ->
                                     lower_str (strip raw') <> lower_str t) before
    /\ tile_name tl = Some raw
    /\ name = strip raw
    /\ lower_str name = lower_str t
    /\ link = tile_link tl.

(** What makes the direct phase report an exact match. *)
Definition direct_hit (r : Response) (t : str) : Prop :=
  status_code r = 200%Z
  /\ exists name link,
       first_exact_tile (product_tiles (soup r)) t name (Some link)
       /\ name <> [] /\ link <> []
       /\ ratio_above_09 t name = true.

(** Sites of the examples. *)
Definition site_stearic : list (string * list Tile) :=
  [("Stearic", [tile "Stearic Acid" "/skindeep/ingredients/stearic-acid"])]%string.
Definition site_water : list (string * list Tile) :=
  [("Water", [tile "Water" "/skindeep/ingredients/water"])]%string.
Definition site_water_lowercase : list (string * list Tile) :=
  [("WATER", [tile "water" "/skindeep/ingredients/water"])]%string.

(** Positions between [lo] (included) and [hi] (excluded), strictly increasing. *)
Fixpoint inc_bounded (lo hi : nat) (l : list nat) : Prop :=
  match l with
  | [] => True
  | k :: l' => lo <= k < hi /\ inc_bounded (S k) hi l'
  end.

(** A result with its positions stands for one token of the input, or for
    two of them joined by the combine scan. *)
Definition stands_for (l : list str) (e : list nat * MatchResult) : Prop :=
  (exists i, fst e = [i] /\ nth_error l i = Some (original (snd e)))
  \/ (exists i j a b,
        fst e = [i; j] /\ i < j
        /\ nth_error l i = Some a /\ nth_error l j = Some b
        /\ original (snd e) = a ++ s2l " + " ++ b).

(** ** The substitutions as scanners

    What each simple substitution of the source computes, written as a
    plain recursion on the text; the theorems prove that the matcher, run on
    the pattern of the source, computes the same. *)

(** The longest prefix in class [p], and what follows it. *)
Fixpoint run (p : cclass) (s : str) : str :=
  match s with
  | c :: t => if p c then c :: run p t else []
  | [] => []
  end.

Fixpoint after (p : cclass) (s : str) : str :=
  match s with
  | c :: t => if p c then after p t else s
  | [] => []
  end.

(** [re.sub(p+, x)]: every maximal run in class [p] becomes [x]. *)
Fixpoint squeeze (p : cclass) (x : str) (in_run : bool) (s : str) : str :=
  match s with
  | [] => []
  | c :: t =>
      if p c then (if in_run then [] else x) ++ squeeze p x true t
      else c :: squeeze p x false t
  end.

(** [re.sub([...], x)]: every character in class [p] becomes [x]. *)
Definition replace_class (p : cclass) (x : str) (s : str) : str :=
  flat_map (fun c => if p c then x else [c]) s.

(** [re.sub(\(\s+, "(")]: whitespace right after an opening parenthesis goes. *)
Fixpoint drop_after_open (after_open : bool) (s : str) : str :=
  match s with
  | [] => []
  | c :: t =>
      if (after_open && is_space c)%bool then drop_after_open true t
      else c :: drop_after_open (Ascii.eqb c "(") t
  end.

Definition closes (s : str) : bool :=
  match after is_space s with
  | c :: _ => Ascii.eqb c ")"
  | [] => false
  end.

(** [re.sub(\s+\), ")")]: whitespace right before a closing parenthesis goes. *)
Fixpoint drop_before_close (s : str) : str :=
  match s with
  | [] => []
  | c :: t =>
      if (is_space c && closes t)%bool then drop_before_close t
      else c :: drop_before_close t
  end.

(** The characters a token may start with and end with. *)
Definition head_ok : cclass := cor alnum (is_char "(").
Definition last_ok : cclass := cor alnum (is_char ")").

(** Dropping the trailing characters that are not in [last_ok]. *)
Fixpoint rtrim (s : str) : str :=
  match s with
  | [] => []
  | c :: t => if forallb (cnot last_ok) s then [] else c :: rtrim t
  end.

(** [re.sub([A-Za-z])x([0-9]), \1-\2)] for [x] a letter. *)
Fixpoint unconfuse (x : ascii) (s : str) : str :=
  match s with
  | a :: ((b :: d :: t) as s') =>
      if (alpha a && Ascii.eqb b x && d09 d)%bool
      then a :: "-"%char :: d :: unconfuse x t
      else a :: unconfuse x s'
  | _ => s
  end.

(** ** What a match is

    [matches r st st'] holds when [r] can take the matcher from [st] to
    [st'], whatever the order in which the matcher tries things. *)
Inductive matches : regex -> mstate -> mstate -> Prop :=
| M_Eps : forall st, matches Eps st st
| M_Chr : forall p c pre t cs,
    p c = true -> matches (Chr p) (MS pre (c :: t) cs) (MS (c :: pre) t cs)
| M_Seq : forall a b st1 st2 st3,
    matches a st1 st2 -> matches b st2 st3 -> matches (Seq a b) st1 st3
| M_AltL : forall a b st st', matches a st st' -> matches (Alt a b) st st'
| M_AltR : forall a b st st', matches b st st' -> matches (Alt a b) st st'
| M_Star : forall g p pre m rest cs,
    forallb p m = true ->
    matches (Star g p) (MS pre (m ++ rest) cs) (MS (rev m ++ pre) rest cs)
| M_Group : forall i a st st',
    matches a st st' ->
    matches (Group i a) st
            (MS (ms_pre st') (ms_rest st') (set_cap i (consumed st st') (ms_caps st')))
| M_Bol : forall st, ms_pre st = [] -> matches Bol st st
| M_Eol : forall st, at_eol (ms_rest st) = true -> matches Eol st st
| M_EndZ : forall st, ms_rest st = [] -> matches EndZ st st
| M_WordB : forall st,
    at_word_boundary (ms_pre st) (ms_rest st) = true -> matches WordB st st
| M_Ahead : forall a st st', matches a st st' -> matches (Ahead a) st st.

(** Characters that the normalizer may turn into a comma. *)
Definition comma_like : cclass := one_of ",;:".

(** Patterns that never match the empty string. *)
Definition never_empty (r : regex) : Prop :=
  forall pre rest cs, match_at r pre rest <> Some (0, cs).


(** Number of characters of [s] in class [q]. *)
Definition count (q : cclass) (s : str) : nat := length (filter q s).

(** Classes without whitespace and without the hyphen: the normalizer
    neither adds nor removes their characters, commas apart. *)
Definition solid (q : cclass) : Prop :=
  forall c, q c = true -> is_space c = false /\ c <> "-"%char.

(** Shapes of a normalized text.  [single_spaced prev s]: every whitespace
    character of [s] is a space and no two are adjacent, [prev] telling
    whether the character before [s] is whitespace. *)
Fixpoint single_spaced (prev : bool) (s : str) : bool :=
  match s with
  | [] => true
  | c :: t =>
      if is_space c
      then (Ascii.eqb c " " && negb prev && single_spaced true t)%bool
      else single_spaced false t
  end.

(** No whitespace right after an opening parenthesis. *)
Fixpoint open_tight (after_open : bool) (s : str) : bool :=
  match s with
  | [] => true
  | c :: t => (negb (after_open && is_space c) && open_tight (Ascii.eqb c "(") t)%bool
  end.

(** No whitespace right before a closing parenthesis. *)
Fixpoint close_tight (s : str) : bool :=
  match s with
  | [] => true
  | c :: t => (negb (is_space c && closes t) && close_tight t)%bool
  end.

(** How each stage may change a character it keeps. *)
Definition spaced_from (c x : ascii) : Prop :=
  x = c \/ (is_space c = true /\ x = " "%char).

Definition normalized_from (c x : ascii) : Prop :=
  x = c \/ (is_space c = true /\ x = " "%char)
  \/ (one_of ";:" c = true /\ x = ","%char).

Definition protected_from (c x : ascii) : Prop :=
  x = c \/ (c = "."%char /\ x = "@"%char).

Definition unconfused_from (a : ascii) (c x : ascii) : Prop :=
  x = c \/ (c = a /\ x = "-"%char).

(** ** Vocabulary of the properties of the service client *)

(** The sending time of the latest request of a log. *)
Definition last_send (log : list (Z * str)) : option Z :=
  match rev log with
  | (t, _) :: _ => Some t
  | [] => None
  end.

(** The state of a client that has kept the pace so far: the requests of
    the log are [rate_limit] apart, and the latest one was sent no later
    than the client's [last_request_time]. *)
Definition limiter_ok (s : EWGSkindeepAPI * World) : Prop :=
  spaced (rate_limit (fst s)) (sent (snd s))
  /\ match last_send (sent (snd s)) with
     | Some t => (t <= last_request_time (fst s))%Z
     | None => True
     end.

(** What every program of [M] built from [_make_request] and [log_lookup]
    keeps, when these two keep it. *)
Definition preserves {A} (I : EWGSkindeepAPI * World -> Prop) (m : M A) : Prop :=
  forall s, I s -> I (snd (m s)).

(** The entries that the loop of [find_matches] appends to [all_matches]
    when it runs over all the tiles: one per tile that has a
    [.product-name] element. *)
Definition tile_entries (products : list Tile) : list (str * option str) :=
  flat_map (fun product =>
              match tile_name product with
              | Some text => [(strip text, tile_link product)]
              | None => []
              end) products.

(** A link that is absent or absolute. *)
Definition absolute (link : option str) : Prop :=
  match link with
  | Some l => startswith (s2l "http") l = true
  | None => True
  end.

(** An entry whose name is empty or does not contain the term. *)
Definition no_partial (term : str) (m : str * option str) : Prop :=
  fst m = [] \/ contains (lower_str term) (lower_str (fst m)) = false.

(** The contract of the dictionary returned by [get_ingredient_data]. *)
Definition lookup_contract (term : str) (r : Result) : Prop :=
  search_term r = term /\ analysis_type r = None
  /\ if ingredient_found r
     then exists name url,
            name <> [] /\ url <> []
            /\ info_name (ingredient_info r) = Some name
            /\ info_url (ingredient_info r) = Some url
            /\ exact_match r = Some (ratio_above_09 term name)
            /\ In (name, Some url) (all_matches r)
            /\ (error r = None
                \/ exists status, error r = Some (PageFailed status) /\ status <> 200%Z
                                  /\ info_score_range (ingredient_info r) = None
                                  /\ info_data_level (ingredient_info r) = None
                                  /\ info_concerns (ingredient_info r) = None)
     else ingredient_info r = empty_info /\ exact_match r = None
          /\ ((exists status, error r = Some (SearchFailed status) /\ status <> 200%Z
                              /\ all_matches r = [])
              \/ error r = Some (NoSuitableMatch term)).

(** What a consumer of a [MatchResult] may rely on, by match type. *)
Definition consistent (r : MatchResult) : Prop :=
  match match_type r with
  | MtNoMatch => corrected r = None /\ data r = None
  | MtExact | MtSplitExact =>
      corrected r = Some (original r)
      /\ exists d, data r = Some d /\ is_exact_hit d = true
                   /\ search_term d = original r /\ analysis_type d = Some Exact
  | MtCombinedExact | MtCombinedCommaExact =>
      exists c d, corrected r = Some c /\ data r = Some d /\ is_exact_hit d = true
                  /\ search_term d = c /\ analysis_type d = Some Exact
  | MtFuzzy | MtFinalFuzzy =>
      exists name d, corrected r = Some name /\ name <> [] /\ data r = Some d
                     /\ ingredient_found d = true /\ search_term d = original r
                     /\ info_name (ingredient_info d) = Some name
  end.

(** ** [RobustIngredientOCR] of [test3.py]: from the lines to the candidates *)

(** [STOP_SECTION_KEYWORDS]: a set in the source, read only through [any],
    whose result does not depend on the order. *)
Definition STOP_SECTION_KEYWORDS : list string :=
  ["directions"; "warning"; "warnings"; "caution"; "how to use"; "storage";
   "manufactured"; "distributed"; "made in"; "best before"; "expiration";
   "exp"; "lot"; "barcode"]%string.

(** [Levenshtein.ratio(a, b) >= 0.73] *)
Definition ratio_at_least_073 (a b : str) : bool :=
  match a, b with
  | [], [] => true
  | _, _ => Nat.leb (73 * (length a + length b)) (200 * lcs a b)
  end.

(** [" ".join(chunk)] *)
Fixpoint join_sp (chunk : list str) : str :=
  match chunk with
  | [] => []
  | [x] => x
  | x :: rest => x ++ s2l " " ++ join_sp rest
  end.

(** [sorted(..., reverse=True)] on the key [(len(items), sum(len(i) for i
    in items))]: a stable sort, the lists with equal keys keeping their
    order. *)
Definition candidate_key (items : list str) : nat * nat :=
  (length items, list_sum (map (@length ascii) items)).

Definition key_ltb (a b : nat * nat) : bool :=
  (Nat.ltb (fst a) (fst b) || (Nat.eqb (fst a) (fst b) && Nat.ltb (snd a) (snd b)))%bool.

Fixpoint insert_desc (x : list str) (sorted : list (list str)) : list (list str) :=
  match sorted with
  | [] => [x]
  | y :: ys =>
      if key_ltb (candidate_key x) (candidate_key y) then y :: insert_desc x ys
      else x :: y :: ys
  end.

Definition sort_desc (candidate_lists : list (list str)) : list (list str) :=
  fold_right insert_desc [] candidate_lists.

Module RobustIngredientOCR.

Definition _normalize_text (text : str) : str :=
  sub (Plus true is_space) (const_repl " ") (strip text).

(** [str] holds code points below 256, on which [text.lower()] gives no
    ASCII letter from a character that is not one, so that [compact] is
    the ASCII letters of the text in lower case.  Above 255 two characters
    do: U+0130 lower-cases to "i" and a combining dot, U+212A to "k". *)
Definition _is_ingredient_header (text : str) : bool :=
  let compact := sub (Chr (cnot az)) (const_repl "") (lower_str text) in
  match compact with
  | [] => false
  | _ =>
      if (contains (s2l "ingredient") compact || contains (s2l "ingredients") compact)%bool
      then true
      else ratio_at_least_073 (s2l "ingredients") (firstn 11 compact)
  end.

Definition _is_section_stop (text : str) : bool :=
  let lowered := lower_str text in
  existsb (fun keyword => contains (s2l keyword) lowered) STOP_SECTION_KEYWORDS.

Section Lines.

(** An [OCRLine], of which the methods below read the [text] only. *)
Variable OCRLine : Type.
Variable text : OCRLine -> str.

(** The loop [for follower in sorted_lines[idx + 1 : idx + 45]]; [n] is
    [len(chunk)], and the result is what the loop appends to [chunk]. *)
Fixpoint followers_loop (n : nat) (followers : list OCRLine) : list str :=
  match followers with
  | [] => []
  | follower :: rest =>
      if (_is_section_stop (text follower) && Nat.ltb 2 n)%bool then []
      else text follower :: followers_loop (S n) rest
  end.

(** The loop [for idx, line in enumerate(sorted_lines)], on
    [sorted_lines[idx:]]: the chunks of the header lines. *)
Fixpoint header_chunks (lines : list OCRLine) : list (list str) :=
  match lines with
  | [] => []
  | line :: rest =>
      (if _is_ingredient_header (text line)
       then [text line :: followers_loop 1 (firstn 44 rest)]
       else [])
      ++ header_chunks rest
  end.

Definition _build_text_windows (sorted_lines : list OCRLine) : list str :=
  match sorted_lines with
  | [] => []
  | _ => map join_sp (header_chunks sorted_lines) ++ [join_sp (map text sorted_lines)]
  end.

(** [extract_ingredient_candidates], from the lines that [extract_lines]
    read in the image. *)
Definition extract_ingredient_candidates (lines : list OCRLine) : list str :=
  let windows := _build_text_windows lines in
  let candidate_lists :=
    filter (fun parsed => match parsed with [] => false | _ => true end)
           (map parse_ingredients_from_ocr windows) in
  match sort_desc candidate_lists with
  | [] => []
  | best :: _ => best
  end.

End Lines.

End RobustIngredientOCR.

(** ** [fix_hyphenated_words] of [img2text6.py] *)

(** [(\w+)\s*-\s*(\w+)] *)
Definition re_inner_hyphen : regex :=
  seqs [Group 1 (Plus true is_word); Star true is_space; Chr (is_char "-");
        Star true is_space; Group 2 (Plus true is_word)].

(** [current.endswith('-')] *)
Definition ends_with_hyphen (current : str) : bool :=
  match rev current with
  | c :: _ => Ascii.eqb c "-"
  | [] => false
  end.

(** The [while] loop, on [ingredients_list[i:]]; [current[:-1]] is
    [removelast current]. *)
Fixpoint fix_hyphenated_words (ingredients_list : list str) : list str :=
  match ingredients_list with
  | [] => []
  | current :: rest =>
      if ends_with_hyphen current
      then match rest with
           | next :: rest' => (removelast current ++ next) :: fix_hyphenated_words rest'
           | [] => [sub re_inner_hyphen repl_12 current]
           end
      else sub re_inner_hyphen repl_12 current :: fix_hyphenated_words rest
  end.

(** ** Vocabulary of the properties of the text functions *)

(** Positions at which two texts differ, the extra length of the longer
    one counted in. *)
Fixpoint mismatches (a b : str) : nat :=
  match a, b with
  | [], _ => length b
  | _, [] => length a
  | x :: a', y :: b' => (if Ascii.eqb x y then 0 else 1) + mismatches a' b'
  end.

(** [t] is a contiguous part of [s]. *)
Definition factor_of (t s : str) : Prop := exists a b, s = a ++ t ++ b.

(** The extent of a header chunk of [_build_text_windows]: a header line and
    its first [k] followers, where [k] is 44, or the number of followers
    there are, or the position of the first follower, after the second,
    that is a section stop. *)
Definition chunk_extent (OCRLine : Type) (text : OCRLine -> str)
    (lines : list OCRLine) (chunk : list str) : Prop :=
  exists before line rest k,
    lines = before ++ line :: rest
    /\ RobustIngredientOCR._is_ingredient_header (text line) = true
    /\ chunk = map text (line :: firstn k rest)
    /\ k <= 44
    /\ Forall (fun l => RobustIngredientOCR._is_section_stop (text l) = false)
              (skipn 2 (firstn k rest))
    /\ (k = Nat.min 44 (length rest)
        \/ (2 <= k /\ k < 44
            /\ exists l, nth_error rest k = Some l
                         /\ RobustIngredientOCR._is_section_stop (text l) = true)).

(** ** Vocabulary of the second pass and of the rewritings of a text *)


(** [rewritten d R t s]: the text [t] is the text [s] in which characters
    of class [d] only have been dropped, every other character [c] standing
    at its place as an [x] with [R c x]. *)
Inductive rewritten (d : ascii -> Prop) (R : ascii -> ascii -> Prop) : str -> str -> Prop :=
| rewritten_nil : rewritten d R [] []
| rewritten_drop : forall t c s, d c -> rewritten d R t s -> rewritten d R t (c :: s)
| rewritten_take : forall x t c s, R c x -> rewritten d R t s -> rewritten d R (x :: t) (c :: s).

(** What the normalizer may drop: whitespace and hyphens. *)
Definition space_or_hyphen (c : ascii) : Prop := is_space c = true \/ c = "-"%char.

(** What the normalizer makes of a character it keeps: a comma of a
    semicolon or a colon; of any other character the character itself, or
    a space if it is whitespace. *)
Definition separator_replaced (c x : ascii) : Prop :=
  if one_of ";:" c then x = ","%char
  else x = c \/ (is_space c = true /\ x = " "%char).

(** [text.split()]: the maximal runs of characters that are not
    whitespace; [cur] is the run being read, reversed. *)
Fixpoint split_ws_from (cur : str) (text : str) : list str :=
  match text with
  | [] => match cur with [] => [] | _ => [rev cur] end
  | c :: t =>
      if is_space c
      then match cur with
           | [] => split_ws_from [] t
           | _ => rev cur :: split_ws_from [] t
           end
      else split_ws_from (c :: cur) t
  end.

Definition split_ws (text : str) : list str := split_ws_from [] text.

(** A line without its ASCII characters that are not letters, its ASCII
    letters in lower case; the characters from code point 128 on are
    kept as they are. *)
Definition ascii_folded (text : str) : str :=
  flat_map (fun c => if N.ltb (code c) 128
                     then (if alpha c then [lower c] else [])
                     else [c]) text.

(** * Properties *)

Unset Implicit Arguments.

(** ** Reasoning about programs in [M] *)

Lemma bind_inv {A B} (m : M A) (k : A -> M B) s b s2 :
  bind m k s = (b, s2) -> exists a s1, m s = (a, s1) /\ k a s1 = (b, s2).
Proof.
  unfold bind. destruct (m s) as [a s1]. intros H. exists a, s1. auto.
Qed.

Lemma ret_inv {A} (a b : A) s s1 : ret a s = (b, s1) -> b = a /\ s1 = s.
Proof. unfold ret. intros H. inversion H. auto. Qed.


Ltac run_inv H :=
  match type of H with
  | bind _ _ _ = _ =>
      let a := fresh "a" in let s := fresh "s" in
      let H1 := fresh "Hrun" in let H2 := fresh "Hrun" in
      apply bind_inv in H; destruct H as (a & s & H1 & H2); try run_inv H2
  | ret _ _ = _ =>
      let E1 := fresh "E" in let E2 := fresh "E" in
      apply ret_inv in H; destruct H as [E1 E2]
  | (if ?c then _ else _) _ = _ => destruct c eqn:?; run_inv H
  | _ => idtac
  end.

Section ServiceFacts.

Variable server : World -> str -> Response * N.

Lemma make_request_lookups url s r s1 :
  _make_request server url s = (r, s1) -> lookups (snd s1) = lookups (snd s).
Proof.
  destruct s as [self w]. unfold _make_request.
  destruct (server _ url) as [resp took]. intros H. inversion H. reflexivity.
Qed.

Lemma search_ingredient_lookups t s r s1 :
  search_ingredient server t s = (r, s1) -> lookups (snd s1) = lookups (snd s).
Proof.
  unfold search_ingredient. intros H. run_inv H. subst.
  eapply make_request_lookups; eauto.
Qed.

Lemma get_ingredient_page_lookups u s r s1 :
  get_ingredient_page server u s = (r, s1) -> lookups (snd s1) = lookups (snd s).
Proof.
  unfold get_ingredient_page. intros H. run_inv H. subst.
  eapply make_request_lookups; eauto.
Qed.

Lemma log_lookup_lookups t e s u s1 :
  log_lookup t e s = (u, s1) -> lookups (snd s1) = lookups (snd s) ++ [(t, e)].
Proof.
  destruct s as [self w]. unfold log_lookup. intros H. inversion H. reflexivity.
Qed.

(** Every call of [get_ingredient_data] is recorded once, with its flag. *)
Lemma get_ingredient_data_lookups t e s r s1 :
  get_ingredient_data server t e s = (r, s1) ->
  lookups (snd s1) = lookups (snd s) ++ [(t, e)].
Proof.
  unfold get_ingredient_data. intros H.
  apply bind_inv in H. destruct H as (u & s2 & H1 & H).
  apply log_lookup_lookups in H1.
  apply bind_inv in H. destruct H as ([status osoup] & s3 & H2 & H).
  apply search_ingredient_lookups in H2.
  assert (E3 : lookups (snd s1) = lookups (snd s3)).
  { destruct (status =? 200)%Z; [destruct osoup as [sp|]|].
    - destruct (find_matches sp t e) as [[oname ourl] all].
      destruct oname as [[|n0 n']|]; try (apply ret_inv in H; destruct H; subst; reflexivity).
      destruct ourl as [[|u0 u']|]; try (apply ret_inv in H; destruct H; subst; reflexivity).
      apply bind_inv in H. destruct H as ([st2 osoup2] & s4 & H3 & H).
      apply get_ingredient_page_lookups in H3.
      destruct (st2 =? 200)%Z; [destruct osoup2|];
        try destruct (extract_score _);
        apply ret_inv in H; destruct H; subst; auto.
    - apply ret_inv in H; destruct H; subst; reflexivity.
    - apply ret_inv in H; destruct H; subst; reflexivity. }
  congruence.
Qed.

Lemma is_exact_hit_set a r : is_exact_hit (set_analysis_type a r) = is_exact_hit r.
Proof. reflexivity. Qed.

Lemma analyze_ingredient_lookups t s r s1 :
  analyze_ingredient server t s = (r, s1) ->
  lookups (snd s1) = lookups (snd s) ++ [(t, true)].
Proof.
  unfold analyze_ingredient. intros H. run_inv H.
  subst. eapply get_ingredient_data_lookups; eauto.
Qed.

End ServiceFacts.

(** ** Reconciliation *)

Section ReconciliationFacts.

Variable server : World -> str -> Response * N.
Variable new_client : bool.

Lemma split_phase_spec words s rs s1 :
  split_phase server words s = (rs, s1) ->
  lookups (snd s1) = lookups (snd s) ++ map (fun w => (w, true)) words
  /\ Forall (fun r => match_type r = MtSplitExact) rs.
Proof.
  revert s rs s1. induction words as [|w ws IH]; simpl; intros s rs s1 H.
  - apply ret_inv in H. destruct H; subst. rewrite app_nil_r. auto.
  - apply bind_inv in H. destruct H as (r & s2 & H1 & H).
    apply bind_inv in H. destruct H as (found & s3 & H2 & H).
    apply ret_inv in H. destruct H as [E1 E2]. subst s1.
    apply analyze_ingredient_lookups in H1.
    apply IH in H2. destruct H2 as [H2 H3]. split.
    + rewrite H2, H1, <- app_assoc. reflexivity.
    + subst rs. destruct (is_exact_hit r); auto.
Qed.




Lemma combine_scan_spec u s rs remaining s1 :
  combine_scan server u s = ((rs, remaining), s1) ->
  exists Lc, lookups (snd s1) = lookups (snd s) ++ Lc
             /\ Forall (fun q => snd q = true) Lc
             /\ Forall (fun r => combined_type (match_type r)) rs
             /\ length remaining <= 1.
Proof.
  remember (length u) as n eqn:En. revert u En s rs remaining s1.
  induction n as [n IH] using lt_wf_ind. intros u En s rs remaining s1 H.
  destruct u as [|a [|b rest]].
  - simpl in H. apply ret_inv in H. destruct H as [E ?]. inversion E; subst.
    exists []. rewrite app_nil_r. simpl. auto.
  - simpl in H. apply ret_inv in H. destruct H as [E ?]. inversion E; subst.
    exists []. rewrite app_nil_r. simpl. auto.
  - cbn [combine_scan] in H.
    apply bind_inv in H. destruct H as (cr & s2 & H1 & H).
    apply analyze_ingredient_lookups in H1.
    destruct (is_exact_hit cr).
    + apply bind_inv in H. destruct H as ([rs' rem'] & s3 & H2 & H).
      apply ret_inv in H. destruct H as [E ?]. inversion E; subst.
      destruct (IH (length rest) ltac:(simpl in *; lia) rest eq_refl _ _ _ _ H2)
        as (Lc & Hl & Hc & Hr & Hn).
      exists ((a ++ s2l " " ++ b, true) :: Lc).
      split; [rewrite Hl, H1, <- app_assoc; reflexivity|].
      repeat split; auto. constructor; auto. left. reflexivity.
    + apply bind_inv in H. destruct H as (cm & s3 & H2 & H).
      apply analyze_ingredient_lookups in H2.
      destruct (is_exact_hit cm).
      * apply bind_inv in H. destruct H as ([rs' rem'] & s4 & H3 & H).
        apply ret_inv in H. destruct H as [E ?]. inversion E; subst.
        destruct (IH (length rest) ltac:(simpl in *; lia) rest eq_refl _ _ _ _ H3)
          as (Lc & Hl & Hc & Hr & Hn).
        exists ((a ++ s2l " " ++ b, true) :: (a ++ s2l ", " ++ b, true) :: Lc).
        split; [rewrite Hl, H2, H1, <- !app_assoc; reflexivity|].
        repeat split; auto. constructor; auto. right. reflexivity.
      * destruct (IH (length (b :: rest)) ltac:(simpl in *; lia) (b :: rest) eq_refl
                      _ _ _ _ H) as (Lc & Hl & Hc & Hr & Hn).
        exists ((a ++ s2l " " ++ b, true) :: (a ++ s2l ", " ++ b, true) :: Lc).
        split; [rewrite Hl, H2, H1, <- !app_assoc; reflexivity|].
        repeat split; auto.
Qed.


End ReconciliationFacts.



Section ScanFacts.

Variable server : World -> str -> Response * N.


End ScanFacts.



(** C3: what the code does.  A list of one token that the first pass leaves
    unmatched gives no result at all: both loops of the second pass are
    inside [if len(unmatched) >= 2]. *)
Theorem C3_single_unmatched_dropped
    (server : World -> str -> Response * N) (t : str) (s : EWGSkindeepAPI * World) :
  direct_or_fuzzy (fst (smart_analyze server t s)) = false ->
  fst (smart_analyze_list server [t] s) = [].
Proof.
  unfold smart_analyze_list, smart_analyze, smart_analyze_list_with. simpl.
  unfold bind at 1. unfold bind at 1.
  destruct (smart_analyze_with server true t s) as [r s1]. simpl.
  intros ->. reflexivity.
Qed.

Lemma C3_single_unmatched_dropped_witness :
  direct_or_fuzzy (fst (smart_analyze (site_server [] 200) (s2l "Xyzzqqplorp") start))
  = false
  /\ fst (smart_analyze_list (site_server [] 200) [s2l "Xyzzqqplorp"] start) = [].
Proof.
  split.
  - vm_compute. reflexivity.
  - apply (C3_single_unmatched_dropped (site_server [] 200) (s2l "Xyzzqqplorp") start).
    vm_compute. reflexivity.
Defined.

(** The same defect, seen on three unmatched tokens: the scan steps over
    "Foo" and "Bar" when their combinations fail, and only the last token
    reaches the final loop. *)
Example unmatched_tokens_lost :
  map (fun r => (original r, match_type r))
      (fst (smart_analyze_list (site_server [] 200)
              (map s2l ["Foo"; "Bar"; "Baz"]%string) start))
  = [(s2l "Baz", MtNoMatch)].
Proof. vm_compute. reflexivity. Qed.

(** C6: what the code does.  [smart_analyze] of [test3.py] sends its fuzzy
    query through a client made on the spot, whose [last_request_time] is 0:
    with a service that answers in 200 ms, the second request leaves 200 ms
    after the first, although [rate_limit] is one second. *)
Theorem C6_new_client_skips_the_wait :
  map fst (sent (snd (snd (smart_analyze (site_server [] 200) (s2l "Xyzzqqplorp") start))))
  = [5000; 5200]%Z
  /\ ~ spaced (rate_limit EWGSkindeepAPI_new)
         (sent (snd (snd (smart_analyze (site_server [] 200) (s2l "Xyzzqqplorp") start)))).
Proof.
  split; [vm_compute; reflexivity|].
  vm_compute. intros [H _]. apply H. reflexivity.
Qed.

(** The method of [IngredientAnalyzer], which keeps to [self.ewg_api],
    waits on the same input. *)
Example shared_client_waits :
  map fst (sent (snd (snd (IngredientAnalyzer.smart_analyze (site_server [] 200)
                             (s2l "Xyzzqqplorp") start))))
  = [5000; 6200]%Z.
Proof. vm_compute. reflexivity. Qed.

(** ** The direct phase *)

Lemma str_eqb_eq a b : str_eqb a b = true <-> a = b.
Proof.
  unfold str_eqb. destruct (list_eq_dec ascii_dec a b); split; auto; discriminate.
Qed.

Lemma find_loop_inl ps term all b bl name link all' :
  find_loop ps term all b bl = inl (name, link, all') ->
  exists before tl after raw,
    ps = before ++ tl :: after
    /\ Forall (fun p => forall raw', tile_name p = Some raw' ->
                                     lower_str (strip raw') <> term) before
    /\ tile_name tl = Some raw /\ name = strip raw
    /\ lower_str name = term /\ link = tile_link tl.
Proof.
  revert all b bl. induction ps as [|p ps IH]; simpl; intros all b bl H; [discriminate|].
  assert (K : forall all1 b1 bl1,
             find_loop ps term all1 b1 bl1 = inl (name, link, all') ->
             (forall raw', tile_name p = Some raw' -> lower_str (strip raw') <> term) ->
             exists before tl after raw,
               p :: ps = before ++ tl :: after
               /\ Forall (fun p => forall raw', tile_name p = Some raw' ->
                                                lower_str (strip raw') <> term) before
               /\ tile_name tl = Some raw /\ name = strip raw
               /\ lower_str name = term /\ link = tile_link tl).
  { intros all1 b1 bl1 H1 Hp. apply IH in H1.
    destruct H1 as (before & tl & after & raw & E & F & R).
    exists (p :: before), tl, after, raw. rewrite E. split; [reflexivity|].
    split; [constructor; assumption|exact R]. }
  destruct (tile_name p) as [text|] eqn:Ep.
  - destruct (str_eqb term (lower_str (strip text))) eqn:Eq.
    + inversion H; subst. apply str_eqb_eq in Eq.
      exists [], p, ps, text. repeat split; auto.
    + assert (Hp : forall raw', Some text = Some raw' -> lower_str (strip raw') <> term).
      { intros raw' Er. inversion Er; subst. intros C.
        assert (T : str_eqb term (lower_str (strip raw')) = true)
          by (apply str_eqb_eq; auto).
        congruence. }
      destruct (contains term (lower_str (strip text)) && negb (truthy b))%bool;
        eapply K; eauto.
  - eapply K; eauto. intros raw' Er. discriminate Er.
Qed.

Lemma find_loop_first ps term all b bl before tl after raw :
  ps = before ++ tl :: after ->
  Forall (fun p => forall raw', tile_name p = Some raw' ->
                                lower_str (strip raw') <> term) before ->
  tile_name tl = Some raw -> lower_str (strip raw) = term ->
  exists all', find_loop ps term all b bl = inl (strip raw, tile_link tl, all').
Proof.
  intros -> F Hn Hl. subst term. revert all b bl.
  induction before as [|p before IH]; simpl; intros all b bl.
  - rewrite Hn. replace (str_eqb (lower_str (strip raw)) (lower_str (strip raw))) with true.
    + eexists. reflexivity.
    + symmetry. apply str_eqb_eq. auto.
  - inversion F as [|x xs Hp F']; subst x xs.
    destruct (tile_name p) as [text|] eqn:Ep; [|apply IH; assumption].
    replace (str_eqb (lower_str (strip raw)) (lower_str (strip text))) with false.
    + destruct (contains (lower_str (strip raw)) (lower_str (strip text))
                && negb (truthy b))%bool; apply IH; assumption.
    + symmetry.
      destruct (str_eqb (lower_str (strip raw)) (lower_str (strip text))) eqn:Eq; auto.
      apply str_eqb_eq in Eq. exfalso. apply (Hp text); auto.
Qed.

Lemma find_loop_inl_unique ps term all b bl name link all' name2 link2 before tl after raw :
  find_loop ps term all b bl = inl (name, link, all') ->
  ps = before ++ tl :: after ->
  Forall (fun p => forall raw', tile_name p = Some raw' ->
                                lower_str (strip raw') <> term) before ->
  tile_name tl = Some raw -> name2 = strip raw -> lower_str name2 = term ->
  link2 = tile_link tl ->
  name = name2 /\ link = link2.
Proof.
  intros H E F Hn -> Hl ->.
  destruct (find_loop_first _ _ all b bl _ _ _ _ E F Hn Hl) as (all2 & H2).
  rewrite H in H2. inversion H2. auto.
Qed.

Section DirectPhase.

Variable server : World -> str -> Response * N.
Variable new_client : bool.

Lemma smart_analyze_exact_iff t s :
  match_type (fst (smart_analyze_with server new_client t s)) = MtExact
  <-> is_exact_hit (fst (get_ingredient_data server t true s)) = true.
Proof.
  destruct (smart_analyze_with server new_client t s) as [r s1] eqn:H.
  unfold smart_analyze_with, analyze_ingredient in H.
  apply bind_inv in H. destruct H as (res & s2 & H1 & H).
  apply bind_inv in H1. destruct H1 as (res0 & s3 & H0 & H1).
  rewrite H0. simpl.
  assert (Er : is_exact_hit res = is_exact_hit res0).
  { apply ret_inv in H1. destruct H1 as [E1 _]. rewrite E1.
    destruct (is_exact_hit res0) eqn:Eh; rewrite is_exact_hit_set; exact Eh. }
  rewrite <- Er. clear Er H0 H1.
  destruct (is_exact_hit res).
  - apply ret_inv in H. destruct H; subst. simpl. split; auto.
  - split; [|discriminate]. intros Hm. exfalso.
    apply bind_inv in H. destruct H as (found & s4 & H2 & H).
    assert (Forall (fun r => match_type r = MtSplitExact) found).
    { destruct (Nat.ltb 1 (length (words_of t))).
      - apply split_phase_spec in H2. tauto.
      - apply ret_inv in H2. destruct H2; subst. constructor. }
    destruct found as [|m found'].
    + apply bind_inv in H. destruct H as (fr & s5 & _ & H).
      apply ret_inv in H. destruct H; subst.
      destruct (ingredient_found fr); discriminate Hm.
    + apply ret_inv in H. destruct H; subst.
      inversion H0; subst. congruence.
Qed.

Lemma direct_lookup_exact_iff t s :
  is_exact_hit (fst (get_ingredient_data server t true s)) = true
  <-> direct_hit (direct_response server t s) t.
Proof.
  destruct (log_lookup t true s) as [u s1] eqn:E1.
  destruct (_make_request server (search_url t) s1) as [resp s2] eqn:E2.
  assert (Ed : direct_response server t s = resp)
    by (unfold direct_response, bind; rewrite E1, E2; reflexivity).
  rewrite Ed. clear Ed.
  unfold get_ingredient_data, search_ingredient, bind. rewrite E1, E2.
  unfold ret at 1. unfold direct_hit.
  destruct (status_code resp =? 200)%Z eqn:Es.
  2:{ simpl. rewrite Es. simpl. split; [discriminate|].
      intros [E _]. apply Z.eqb_neq in Es. contradiction. }
  cbn beta iota. rewrite Es. cbn beta iota.
  unfold find_matches.
  destruct (find_loop (product_tiles (soup resp)) (lower_str t) [] None None)
    as [[[name link] all]|[[all b] bl]] eqn:Ef.
  2:{ simpl. split; [discriminate|].
      intros (_ & name & link2 & T & _).
      destruct T as (before & tl & after & raw & E & F & Ht & En & El & Ek).
      destruct (find_loop_first _ _ [] None None _ _ _ _ E F Ht) as (all2 & H2).
      { rewrite <- En. exact El. }
      rewrite Ef in H2. discriminate H2. }
  assert (U : forall name2 link2,
             first_exact_tile (product_tiles (soup resp)) t name2 (Some link2) ->
             name = name2 /\ link = Some link2).
  { intros name2 link2 (before & tl & after & raw & E & F & Ht & En & El & Ek).
    exact (find_loop_inl_unique _ _ _ _ _ _ _ _ _ _ _ _ _ _ Ef E F Ht En El Ek). }
  assert (X : first_exact_tile (product_tiles (soup resp)) t name link).
  { apply find_loop_inl in Ef.
    destruct Ef as (before & tl & after & raw & E & F & R).
    exists before, tl, after, raw. tauto. }
  destruct name as [|n0 n'].
  { simpl. split; [discriminate|]. intros (_ & name2 & link2 & T & Hn & _).
    apply U in T. destruct T as [T _]. congruence. }
  destruct link as [[|u0 u']|].
  - simpl. split; [discriminate|]. intros (_ & name2 & link2 & T & _ & Hl & _).
    apply U in T. destruct T as [_ T]. congruence.
  - destruct (get_ingredient_page server (u0 :: u') s2) as [[st2 os2] s3].
    assert (Hx : forall P : bool -> Prop,
               P (ratio_above_09 t (n0 :: n')) ->
               P (is_exact_hit
                    (fst ((if (st2 =? 200)%Z
                           then
                            match os2 with
                            | Some ingredient_soup0 =>
                                let (score_range, data_level) :=
                                  extract_score ingredient_soup0 in
                                ret
                                  {| search_term := t; ingredient_found := true;
                                     ingredient_info :=
                                       {| info_name := Some (n0 :: n');
                                          info_url := Some (u0 :: u');
                                          info_score_range :=
                                            if truthy score_range then score_range else None;
                                          info_data_level :=
                                            if truthy data_level then data_level else None;
                                          info_concerns :=
                                            match extract_concerns ingredient_soup0 with
                                            | [] => None
                                            | _ :: _ => Some (extract_concerns ingredient_soup0)
                                            end |};
                                     all_matches := all; error := None;
                                     exact_match := Some (ratio_above_09 t (n0 :: n'));
                                     analysis_type := None |}
                            | None =>
                                ret
                                  {| search_term := t; ingredient_found := true;
                                     ingredient_info :=
                                       {| info_name := Some (n0 :: n');
                                          info_url := Some (u0 :: u');
                                          info_score_range := None;
                                          info_data_level := None;
                                          info_concerns := None |};
                                     all_matches := all; error := Some (PageFailed st2);
                                     exact_match := Some (ratio_above_09 t (n0 :: n'));
                                     analysis_type := None |}
                            end
                           else
                            ret
                              {| search_term := t; ingredient_found := true;
                                 ingredient_info :=
                                   {| info_name := Some (n0 :: n');
                                      info_url := Some (u0 :: u');
                                      info_score_range := None;
                                      info_data_level := None;
                                      info_concerns := None |};
                                 all_matches := all; error := Some (PageFailed st2);
                                 exact_match := Some (ratio_above_09 t (n0 :: n'));
                                 analysis_type := None |}) s3)))).
    { intros P HP. destruct (st2 =? 200)%Z; [destruct os2 as [sp|]|]; exact HP. }
    apply Hx. clear Hx. split.
    + intros Hr. split; [apply Z.eqb_eq; exact Es|].
      exists (n0 :: n'), (u0 :: u'). repeat split; auto; discriminate.
    + intros (_ & name2 & link2 & T & _ & _ & Hr).
      apply U in T. destruct T as [T _]. rewrite T. exact Hr.
  - simpl. split; [discriminate|]. intros (_ & name2 & link2 & T & _).
    apply U in T. destruct T as [_ T]. discriminate T.
Qed.


End DirectPhase.

(** C4: what the code does.  The direct phase reports [exact] exactly when
    the search page has status 200 and the first tile whose name equals the
    token up to case has a name and a link that are not empty and a name
    whose Levenshtein ratio with the token, case included, is above 0.9:
    the ratio of line 293 is taken on the strings as they are, so that
    equality up to case is not enough. *)
Theorem C4_direct_exact_iff
    (server : World -> str -> Response * N) (new_client : bool)
    (t : str) (s : EWGSkindeepAPI * World) :
  match_type (fst (smart_analyze_with server new_client t s)) = MtExact
  <-> direct_hit (direct_response server t s) t.
Proof.
  rewrite smart_analyze_exact_iff. apply direct_lookup_exact_iff.
Qed.

(** C4 (as stated) fails: the service returns the record "water" for the
    query "WATER", the two are equal up to case, and the match is reported
    as fuzzy. *)
Lemma C4_equal_up_to_case_not_exact :
  let r := fst (smart_analyze (site_server site_water_lowercase 200) (s2l "WATER") start) in
  corrected r = Some (s2l "water")
  /\ lower_str (s2l "WATER") = lower_str (s2l "water")
  /\ match_type r = MtFuzzy.
Proof. vm_compute. repeat split. Qed.

(** ** Order of the results *)

Lemma inc_bounded_weaken lo lo' hi l :
  lo' <= lo -> inc_bounded lo hi l -> inc_bounded lo' hi l.
Proof. destruct l as [|k l]; simpl; auto. intros ? [? ?]. split; auto. lia. Qed.

Lemma inc_bounded_increasing lo hi l : inc_bounded lo hi l -> increasing l.
Proof.
  revert lo. induction l as [|k [|k' l] IH]; simpl; auto.
  intros lo (Hk & Hk' & Hl). split; [lia|]. apply (IH (S k)). simpl. auto.
Qed.

Section PositionFacts.

Variable server : World -> str -> Response * N.
Variable new_client : bool.

Lemma first_pass_ix_erase i l s :
  first_pass server new_client l s
  = (let '((rsx, ux), s1) := first_pass_ix server new_client i l s in
     ((map snd rsx, map snd ux), s1)).
Proof.
  revert i s. induction l as [|t l IH]; intros i s; simpl; [reflexivity|].
  unfold bind. destruct (smart_analyze_with server new_client t s) as [r s1].
  rewrite (IH (S i) s1).
  destruct (first_pass_ix server new_client (S i) l s1) as [[rsx ux] s2].
  unfold ret. destruct (direct_or_fuzzy r); reflexivity.
Qed.

Lemma combine_scan_ix_erase ux s :
  combine_scan server (map snd ux) s
  = (let '((rsx, remx), s1) := combine_scan_ix server ux s in
     ((map snd rsx, map snd remx), s1)).
Proof.
  remember (length ux) as n eqn:En. revert ux En s.
  induction n as [n IH] using lt_wf_ind. intros ux En s.
  destruct ux as [|[i a] [|[j b] rest]]; try reflexivity.
  cbn [combine_scan combine_scan_ix map snd]. unfold bind.
  destruct (analyze_ingredient server (a ++ s2l " " ++ b) s) as [cr s1].
  destruct (is_exact_hit cr).
  - rewrite (IH (length rest) ltac:(simpl in En; lia) rest eq_refl s1).
    destruct (combine_scan_ix server rest s1) as [[rsx remx] s2]. reflexivity.
  - destruct (analyze_ingredient server (a ++ s2l ", " ++ b) s1) as [cm s2].
    destruct (is_exact_hit cm).
    + rewrite (IH (length rest) ltac:(simpl in En; lia) rest eq_refl s2).
      destruct (combine_scan_ix server rest s2) as [[rsx remx] s3]. reflexivity.
    + apply (IH (length ((j, b) :: rest)) ltac:(simpl in *; lia) ((j, b) :: rest) eq_refl).
Qed.

Lemma final_fuzzy_ix_erase remx s :
  final_fuzzy server (map snd remx) s
  = (let '(fsx, s1) := final_fuzzy_ix server remx s in (map snd fsx, s1)).
Proof.
  revert s. induction remx as [|[i u] remx IH]; intros s; simpl; [reflexivity|].
  unfold bind. destruct (get_ingredient_data server u false s) as [fr s1].
  rewrite (IH s1). destruct (final_fuzzy_ix server remx s1) as [fsx s2]. reflexivity.
Qed.

(** Dropping the positions gives back the function of the source. *)
Lemma ix_erase l s :
  smart_analyze_list_with server new_client l s
  = (let '(out, s1) := smart_analyze_list_ix server new_client l s in (map snd out, s1)).
Proof.
  unfold smart_analyze_list_with, smart_analyze_list_ix, bind.
  rewrite (first_pass_ix_erase 0 l s).
  destruct (first_pass_ix server new_client 0 l s) as [[rsx ux] s1].
  rewrite length_map. destruct (Nat.leb 2 (length ux)); [|reflexivity].
  rewrite combine_scan_ix_erase.
  destruct (combine_scan_ix server ux s1) as [[rs remx] s2].
  rewrite final_fuzzy_ix_erase.
  destruct (final_fuzzy_ix server remx s2) as [fsx s3].
  unfold ret. rewrite !map_app. reflexivity.
Qed.

Lemma smart_analyze_original t s :
  direct_or_fuzzy (fst (smart_analyze_with server new_client t s)) = true ->
  original (fst (smart_analyze_with server new_client t s)) = t.
Proof.
  unfold smart_analyze_with, bind.
  destruct (analyze_ingredient server t s) as [res s1].
  destruct (is_exact_hit res); [reflexivity|].
  destruct ((if Nat.ltb 1 (length (words_of t))
             then split_phase server (words_of t) else ret []) s1) as [found s2] eqn:E.
  assert (F : Forall (fun r => match_type r = MtSplitExact) found).
  { destruct (Nat.ltb 1 (length (words_of t))).
    - apply split_phase_spec in E. tauto.
    - apply ret_inv in E. destruct E; subst. constructor. }
  destruct found as [|m found'].
  - destruct (fuzzy_query server new_client t s2) as [fr s3]. simpl.
    destruct (ingredient_found fr); reflexivity.
  - simpl. inversion F; subst. unfold direct_or_fuzzy. rewrite H1. discriminate.
Qed.

Lemma first_pass_ix_spec i l s rsx ux s1 :
  first_pass_ix server new_client i l s = ((rsx, ux), s1) ->
  inc_bounded i (i + length l) (concat (map fst rsx))
  /\ inc_bounded i (i + length l) (map fst ux)
  /\ Forall (fun e => exists k, fst e = [k] /\ i <= k
                                /\ nth_error l (k - i) = Some (original (snd e))
                                /\ first_pass_outcome (match_type (snd e)) = true) rsx
  /\ Forall (fun e => i <= fst e /\ nth_error l (fst e - i) = Some (snd e)) ux.
Proof.
  revert i s rsx ux s1. induction l as [|t l IH]; intros i s rsx ux s1 H; simpl in H.
  - apply ret_inv in H. destruct H as [E _]. inversion E; subst. simpl. auto.
  - apply bind_inv in H. destruct H as (r & s2 & H1 & H).
    apply bind_inv in H. destruct H as ([rs us] & s3 & H2 & H).
    apply ret_inv in H. destruct H as [E _].
    apply IH in H2. destruct H2 as (A & B & C & D).
    assert (C' : Forall (fun e => exists k, fst e = [k] /\ i <= k
                           /\ nth_error (t :: l) (k - i) = Some (original (snd e))
                           /\ first_pass_outcome (match_type (snd e)) = true) rs).
    { eapply Forall_impl; [|exact C]. intros e (k & E1 & E2 & E3 & E4).
      exists k. repeat split; auto; try lia.
      replace (k - i) with (S (k - S i)) by lia. exact E3. }
    assert (D' : Forall (fun e => i <= fst e
                           /\ nth_error (t :: l) (fst e - i) = Some (snd e)) us).
    { eapply Forall_impl; [|exact D]. intros e (E2 & E3).
      split; [lia|]. replace (fst e - i) with (S (fst e - S i)) by lia. exact E3. }
    replace (S i + length l) with (i + length (t :: l)) in A, B by (simpl; lia).
    destruct (direct_or_fuzzy r) eqn:Ed; inversion E; subst; simpl.
    + split; [split; [lia|exact A]|].
      split; [eapply inc_bounded_weaken; [|exact B]; lia|].
      split; [|exact D'].
      constructor; [|exact C']. exists i. simpl. repeat split; auto.
      rewrite Nat.sub_diag. simpl. f_equal.
      pose proof (smart_analyze_original t s) as O. rewrite H1 in O. simpl in O.
      symmetry. apply O. exact Ed.
    + split; [eapply inc_bounded_weaken; [|exact A]; lia|].
      split; [split; [lia|exact B]|].
      split; [exact C'|].
      constructor; [|exact D']. simpl. rewrite Nat.sub_diag. auto.
Qed.

Lemma combine_scan_ix_spec (l : list str) ux s rsx remx s1 lo hi :
  combine_scan_ix server ux s = ((rsx, remx), s1) ->
  inc_bounded lo hi (map fst ux) ->
  Forall (fun e => nth_error l (fst e) = Some (snd e)) ux ->
  inc_bounded lo hi (concat (map fst rsx) ++ map fst remx)
  /\ Forall (fun e => stands_for l e /\ combined_type (match_type (snd e))) rsx
  /\ Forall (fun e => nth_error l (fst e) = Some (snd e)) remx.
Proof.
  remember (length ux) as n eqn:En. revert ux En s rsx remx s1 lo.
  induction n as [n IH] using lt_wf_ind. intros ux En s rsx remx s1 lo H B F.
  destruct ux as [|[i a] [|[j b] rest]].
  - simpl in H. apply ret_inv in H. destruct H as [E _]. inversion E; subst. simpl. auto.
  - simpl in H. apply ret_inv in H. destruct H as [E _]. inversion E; subst. simpl. auto.
  - cbn [combine_scan_ix] in H.
    simpl in B. destruct B as (Bi & Bj & Br).
    inversion F as [|x xs Fi F1]; subst x xs.
    inversion F1 as [|x xs Fj Fr]; subst x xs. simpl in Fi, Fj.
    apply bind_inv in H. destruct H as (cr & s2 & _ & H).
    assert (K : forall t ty r s3 rs0 rem0 s4,
               combine_scan_ix server rest s3 = (rs0, rem0, s4) ->
               combined_type ty ->
               inc_bounded lo hi
                 (concat (map fst (([i; j], combined_result a b t ty r) :: rs0))
                  ++ map fst rem0)
               /\ Forall (fun e => stands_for l e /\ combined_type (match_type (snd e)))
                         (([i; j], combined_result a b t ty r) :: rs0)
               /\ Forall (fun e => nth_error l (fst e) = Some (snd e)) rem0).
    { intros t ty r s3 rs0 rem0 s4 H0 Hty.
      destruct (IH (length rest) ltac:(simpl in En; lia) rest eq_refl s3 rs0 rem0 s4 (S j)
                   H0 Br Fr) as (A1 & A2 & A3).
      split; [|split; [|exact A3]].
      - simpl. repeat split; auto; lia.
      - constructor; [|exact A2]. split; [|exact Hty].
        right. exists i, j, a, b. simpl. repeat split; auto; lia. }
    destruct (is_exact_hit cr).
    + apply bind_inv in H. destruct H as ([rs' rem'] & s3 & H2 & H).
      apply ret_inv in H. destruct H as [E E2]. inversion E; subst.
      eapply K; eauto. left. reflexivity.
    + apply bind_inv in H. destruct H as (cm & s3 & _ & H).
      destruct (is_exact_hit cm).
      * apply bind_inv in H. destruct H as ([rs' rem'] & s4 & H2 & H).
        apply ret_inv in H. destruct H as [E E2]. inversion E; subst.
        eapply K; eauto. right. reflexivity.
      * destruct (IH (length ((j, b) :: rest)) ltac:(simpl in *; lia) ((j, b) :: rest)
                    eq_refl s3 rsx remx s1 (S i) H) as (A1 & A2 & A3).
        { simpl. auto. }
        { exact F1. }
        split; [|auto]. eapply inc_bounded_weaken; [|exact A1]. lia.
Qed.

Lemma final_fuzzy_ix_spec (l : list str) remx s fsx s1 :
  final_fuzzy_ix server remx s = (fsx, s1) ->
  Forall (fun e => nth_error l (fst e) = Some (snd e)) remx ->
  concat (map fst fsx) = map fst remx
  /\ Forall (fun e => stands_for l e /\ final_type (match_type (snd e))) fsx.
Proof.
  revert s fsx s1. induction remx as [|[i u] remx IH]; intros s fsx s1 H F; simpl in H.
  - apply ret_inv in H. destruct H; subst. simpl. auto.
  - apply bind_inv in H. destruct H as (fr & s2 & _ & H).
    apply bind_inv in H. destruct H as (rs & s3 & H2 & H).
    apply ret_inv in H. destruct H as [E _]. subst fsx.
    inversion F as [|x xs Fi Fr]; subst x xs. simpl in Fi.
    destruct (IH _ _ _ H2 Fr) as (A1 & A2). simpl. split; [rewrite A1; reflexivity|].
    constructor; [|exact A2]. split.
    + left. exists i. simpl. split; [reflexivity|].
      destruct (ingredient_found fr); exact Fi.
    + simpl. destruct (ingredient_found fr); [left|right]; reflexivity.
Qed.

End PositionFacts.

(** C2 (amended).  The output is made of two groups: the results the first
    pass kept (exact or fuzzy), then the results of the second pass
    (combined, final fuzzy, no match).  Inside each group the positions of
    the underlying input tokens increase strictly, a combined pair standing
    once, at the place of its first token. *)
Theorem C2_order_within_each_pass
    (server : World -> str -> Response * N) (new_client : bool)
    (l : list str) (s : EWGSkindeepAPI * World) :
  map snd (fst (smart_analyze_list_ix server new_client l s))
  = fst (smart_analyze_list_with server new_client l s)
  /\ exists g1 g2,
       fst (smart_analyze_list_ix server new_client l s) = g1 ++ g2
       /\ increasing (concat (map fst g1))
       /\ increasing (concat (map fst g2))
       /\ Forall (stands_for l) (g1 ++ g2)
       /\ Forall (fun e => first_pass_outcome (match_type (snd e)) = true) g1
       /\ Forall (fun e => combined_type (match_type (snd e))
                           \/ final_type (match_type (snd e))) g2.
Proof.
  split.
  { rewrite ix_erase. destruct (smart_analyze_list_ix _ _ _ _). reflexivity. }
  unfold smart_analyze_list_ix, bind.
  destruct (first_pass_ix server new_client 0 l s) as [[rsx ux] s1] eqn:H1.
  apply first_pass_ix_spec in H1. destruct H1 as (A & B & C & D). simpl in A, B.
  assert (C1 : Forall (stands_for l) rsx).
  { eapply Forall_impl; [|exact C]. intros e (k & E1 & _ & E3 & _).
    left. exists k. rewrite Nat.sub_0_r in E3. auto. }
  assert (C2 : Forall (fun e => first_pass_outcome (match_type (snd e)) = true) rsx).
  { eapply Forall_impl; [|exact C]. intros e (k & _ & _ & _ & E4). exact E4. }
  assert (D1 : Forall (fun e => nth_error l (fst e) = Some (snd e)) ux).
  { eapply Forall_impl; [|exact D]. intros e (_ & E3).
    rewrite Nat.sub_0_r in E3. exact E3. }
  destruct (Nat.leb 2 (length ux)).
  - destruct (combine_scan_ix server ux s1) as [[rs remx] s2] eqn:H2.
    destruct (combine_scan_ix_spec _ l _ _ _ _ _ _ _ H2 B D1) as (E1 & E2 & E3).
    destruct (final_fuzzy_ix server remx s2) as [fsx s3] eqn:H3.
    destruct (final_fuzzy_ix_spec _ l _ _ _ _ H3 E3) as (G1 & G2).
    exists rsx, (rs ++ fsx). simpl. split; [reflexivity|].
    split; [eapply inc_bounded_increasing; exact A|].
    split; [rewrite map_app, concat_app, G1; eapply inc_bounded_increasing; exact E1|].
    split; [|split; [exact C2|]].
    + apply Forall_app. split; [exact C1|]. apply Forall_app.
      split; [eapply Forall_impl; [|exact E2]|eapply Forall_impl; [|exact G2]];
        intros e [? ?]; assumption.
    + apply Forall_app.
      split; [eapply Forall_impl; [|exact E2]|eapply Forall_impl; [|exact G2]];
        intros e [? ?]; [left|right]; assumption.
  - exists rsx, []. simpl. rewrite app_nil_r. split; [reflexivity|].
    split; [eapply inc_bounded_increasing; exact A|]. auto.
Qed.

(** C2 (as stated) fails: "Foo" and "Bar" are unmatched, "Water" is an
    exact match; the result for "Water" (position 2) comes before the one
    for "Bar" (position 1). *)
Lemma C2_positions_out_of_order :
  map fst (fst (smart_analyze_list_ix (site_server site_water 200) true
                  (map s2l ["Foo"; "Bar"; "Water"]%string) start))
  = [[2]; [1]]
  /\ ~ non_decreasing
         (concat (map fst (fst (smart_analyze_list_ix (site_server site_water 200) true
                                  (map s2l ["Foo"; "Bar"; "Water"]%string) start)))).
Proof.
  assert (E : map fst (fst (smart_analyze_list_ix (site_server site_water 200) true
                              (map s2l ["Foo"; "Bar"; "Water"]%string) start))
              = [[2]; [1]]) by (vm_compute; reflexivity).
  split; [exact E|]. rewrite E. simpl. intros [H _]. lia.
Qed.


(** ** Deduplication and the non-ingredient filter *)

Lemma existsb_str_eqb x l : existsb (str_eqb x) l = true <-> In x l.
Proof.
  rewrite existsb_exists. split.
  - intros (y & Hy & E). apply str_eqb_eq in E. subst. exact Hy.
  - intros H. exists x. split; [exact H|]. apply str_eqb_eq. reflexivity.
Qed.

Lemma unique_from_first seen l tok :
  In tok (unique_from seen l) ->
  ~ In (lower_str tok) seen
  /\ exists l1 l2, l = l1 ++ tok :: l2 /\ ~ In (lower_str tok) (map lower_str l1).
Proof.
  revert seen. induction l as [|ing rest IH]; simpl; intros seen H; [contradiction|].
  destruct (existsb (str_eqb (lower_str ing)) seen) eqn:E.
  - destruct (IH _ H) as (Hs & l1 & l2 & El & Hn). split; [exact Hs|].
    exists (ing :: l1), l2. rewrite El. split; [reflexivity|].
    simpl. intros [C|C]; [|exact (Hn C)].
    apply existsb_str_eqb in E. rewrite C in E. exact (Hs E).
  - assert (Hi : ~ In (lower_str ing) seen).
    { intros C. apply existsb_str_eqb in C. congruence. }
    destruct H as [<-|H].
    + split; [exact Hi|]. exists [], rest. simpl. auto.
    + destruct (IH _ H) as (Hs & l1 & l2 & El & Hn).
      split; [intros C; apply Hs; right; exact C|].
      exists (ing :: l1), l2. rewrite El. split; [reflexivity|].
      simpl. intros [C|C]; [|exact (Hn C)].
      apply Hs. left. exact C.
Qed.

Lemma unique_from_nodup seen l : NoDup (map lower_str (unique_from seen l)).
Proof.
  revert seen. induction l as [|ing rest IH]; simpl; intros seen; [constructor|].
  destruct (existsb (str_eqb (lower_str ing)) seen); [apply IH|].
  simpl. constructor; [|apply IH].
  intros C. apply in_map_iff in C. destruct C as (tok & E & Hin).
  apply unique_from_first in Hin. destruct Hin as [Hs _].
  apply Hs. left. symmetry. exact E.
Qed.

Lemma unique_from_subseq seen l : subseq (unique_from seen l) l.
Proof.
  revert seen. induction l as [|ing rest IH]; simpl; intros seen; [constructor|].
  destruct (existsb (str_eqb (lower_str ing)) seen).
  - apply rsub_skip. apply IH.
  - apply rsub_take; [reflexivity|apply IH].
Qed.

Lemma filter_subseq {A} (p : A -> bool) (l : list A) : subseq (filter p l) l.
Proof.
  induction l as [|x l IH]; simpl; [constructor|].
  destruct (p x); [apply rsub_take; auto|apply rsub_skip; auto].
Qed.

Lemma rsub_trans_eq {A} (a b c : list A) : subseq a b -> subseq b c -> subseq a c.
Proof.
  intros H1 H2. revert a H1. induction H2 as [s|t x s H IH|y t x s E H IH]; intros a H1.
  - inversion H1; subst. constructor.
  - apply rsub_skip. apply IH. exact H1.
  - subst y. inversion H1; subst.
    + constructor.
    + apply rsub_skip. apply IH. assumption.
    + apply rsub_take; [reflexivity|]. apply IH. assumption.
Qed.

Lemma filter_keeps_unique (keep : str -> bool) (tokens : list str) :
  NoDup (map lower_str tokens) -> NoDup (map lower_str (filter keep tokens)).
Proof.
  intros H. induction tokens as [|tok rest IH]; simpl; [constructor|].
  simpl in H. inversion H as [|y ys Hn Hd]; subst.
  destruct (keep tok); [|apply IH; exact Hd].
  simpl. constructor; [|apply IH; exact Hd].
  intros C. apply Hn. apply in_map_iff in C. destruct C as (z & E & Hz).
  apply filter_In in Hz. apply in_map_iff. exists z. tauto.
Qed.

Lemma clean_all_length (items : list str) :
  Forall (fun tok => 2 <= length tok) (clean_all items).
Proof.
  unfold clean_all. apply Forall_forall. intros tok H.
  apply filter_In in H. destruct H as [_ H]. apply Nat.ltb_lt in H. lia.
Qed.

(** C5 (amended).  The tokens returned by [remove_non_ingredients] have at
    least two characters and match none of the non-ingredient patterns; no
    two of them are equal up to case; they come in the order of the input,
    each one being the first of the input with its lower-case form.
    [parse_ingredients_from_ocr] of [test3.py] guarantees the length only. *)
Theorem C5_filtered_tokens (l : list str) (ocr_text : str) :
  Forall (fun tok => 2 <= length tok /\ is_non_ingredient tok = false)
         (remove_non_ingredients l)
  /\ NoDup (map lower_str (remove_non_ingredients l))
  /\ subseq (remove_non_ingredients l) l
  /\ (forall tok, In tok (remove_non_ingredients l) ->
        exists l1 l2, l = l1 ++ tok :: l2 /\ ~ In (lower_str tok) (map lower_str l1))
  /\ Forall (fun tok => 2 <= length tok) (parse_ingredients_from_ocr ocr_text).
Proof.
  unfold remove_non_ingredients. repeat split.
  - apply Forall_forall. intros tok H. apply filter_In in H. destruct H as [_ H].
    apply andb_true_iff in H. destruct H as [H1 H2].
    apply Nat.leb_le in H2. apply negb_true_iff in H1. auto.
  - apply filter_keeps_unique. apply unique_from_nodup.
  - eapply rsub_trans_eq; [apply filter_subseq|apply unique_from_subseq].
  - intros tok H. apply filter_In in H. destruct H as [H _].
    apply unique_from_first in H. tauto.
  - unfold parse_ingredients_from_ocr, parse_span.
    destruct ocr_text; [constructor|apply clean_all_length].
Qed.

(** C5 (as stated) fails on [parse_ingredients_from_ocr], which neither
    removes duplicates nor filters: two tokens equal up to case, a token made
    of digits only and the stop word "and" all come out. *)
Lemma C5_duplicates_and_noise_kept :
  parse_ingredients_from_ocr (s2l "Water, water, 123, and")
  = map s2l ["Water"; "water"; "123"; "and"]%string
  /\ lower_str (s2l "Water") = lower_str (s2l "water")
  /\ forallb d09 (s2l "123") = true
  /\ is_non_ingredient (s2l "and") = true.
Proof. repeat split; vm_compute; reflexivity. Qed.

(** ** The matcher *)

Lemma run_after p s : run p s ++ after p s = s.
Proof.
  induction s as [|c t IH]; simpl; [reflexivity|].
  destruct (p c); simpl; [rewrite IH|]; reflexivity.
Qed.

Lemma run_all p s : forallb p (run p s) = true.
Proof.
  induction s as [|c t IH]; simpl; [reflexivity|].
  destruct (p c) eqn:E; simpl; [rewrite E, IH|]; reflexivity.
Qed.

Lemma after_head p s c t : after p s = c :: t -> p c = false.
Proof.
  induction s as [|x s IH]; simpl; [discriminate|].
  destruct (p x) eqn:E; [exact IH|]. intros H. inversion H; subst. exact E.
Qed.

(** A greedy star followed by something that always succeeds takes the
    whole run. *)
Lemma star_greedy_total p cs (k : kont) pre rest :
  (forall st, k st <> None) ->
  star_greedy p cs k pre rest = k (MS (rev (run p rest) ++ pre) (after p rest) cs).
Proof.
  intros Hk. revert pre. induction rest as [|c t IH]; intros pre; simpl; [reflexivity|].
  destruct (p c); [|reflexivity].
  rewrite IH. simpl. rewrite <- app_assoc. simpl.
  destruct (k _) eqn:E; [reflexivity|]. exfalso. exact (Hk _ E).
Qed.

(** A greedy star followed by something that fails in front of a character
    of the class takes the whole run as well. *)
Lemma star_greedy_disjoint p cs (k : kont) pre rest :
  (forall pre' c t cs', p c = true -> k (MS pre' (c :: t) cs') = None) ->
  star_greedy p cs k pre rest = k (MS (rev (run p rest) ++ pre) (after p rest) cs).
Proof.
  intros Hk. revert pre. induction rest as [|c t IH]; intros pre; simpl; [reflexivity|].
  destruct (p c) eqn:E; [|reflexivity].
  rewrite IH. simpl. rewrite <- app_assoc. simpl.
  destruct (k (MS (rev (run p t) ++ c :: pre) (after p t) cs)); [reflexivity|].
  simpl. apply Hk. exact E.
Qed.

Lemma star_greedy_sound p cs (k : kont) pre rest x :
  star_greedy p cs k pre rest = Some x ->
  exists m rest', rest = m ++ rest' /\ forallb p m = true
                  /\ k (MS (rev m ++ pre) rest' cs) = Some x.
Proof.
  revert pre. induction rest as [|c t IH]; intros pre; simpl; intros H.
  - exists [], []. auto.
  - destruct (p c) eqn:E.
    + destruct (star_greedy p cs k (c :: pre) t) eqn:E1.
      * simpl in H. inversion H; subst. apply IH in E1.
        destruct E1 as (m & rest' & -> & Hm & Hk).
        exists (c :: m), rest'. simpl. rewrite E, Hm, <- app_assoc. auto.
      * simpl in H. exists [], (c :: t). auto.
    + exists [], (c :: t). auto.
Qed.

Lemma star_lazy_sound p cs (k : kont) pre rest x :
  star_lazy p cs k pre rest = Some x ->
  exists m rest', rest = m ++ rest' /\ forallb p m = true
                  /\ k (MS (rev m ++ pre) rest' cs) = Some x.
Proof.
  revert pre. induction rest as [|c t IH]; intros pre; simpl; intros H.
  - destruct (k (MS pre [] cs)) eqn:E; simpl in H; [|discriminate].
    inversion H; subst. exists [], []. auto.
  - destruct (k (MS pre (c :: t) cs)) eqn:E; simpl in H.
    + inversion H; subst. exists [], (c :: t). auto.
    + destruct (p c) eqn:Ec; [|discriminate]. apply IH in H.
      destruct H as (m & rest' & -> & Hm & Hk).
      exists (c :: m), rest'. simpl. rewrite Ec, Hm, <- app_assoc. auto.
Qed.

(** Every result of the matcher is a match. *)
Lemma rx_sound r : forall st (k : kont) x,
  rx r st k = Some x -> exists st', matches r st st' /\ k st' = Some x.
Proof.
  induction r as [|p|a IHa b IHb|a IHa b IHb|g p|i a IHa| | | | |a IHa];
    intros [pre rest cs] k x H; simpl in H.
  - eexists. split; [constructor|exact H].
  - destruct rest as [|c t]; [discriminate|]. destruct (p c) eqn:E; [|discriminate].
    eexists. split; [constructor; exact E|exact H].
  - apply IHa in H. destruct H as (st1 & H1 & H). apply IHb in H.
    destruct H as (st2 & H2 & H). exists st2. split; [econstructor; eauto|exact H].
  - destruct (rx a (MS pre rest cs) k) eqn:E; simpl in H.
    + inversion H; subst. apply IHa in E. destruct E as (st1 & H1 & E1).
      exists st1. split; [apply M_AltL; exact H1|exact E1].
    + apply IHb in H. destruct H as (st1 & H1 & E1).
      exists st1. split; [apply M_AltR; exact H1|exact E1].
  - assert (S : exists m rest', rest = m ++ rest' /\ forallb p m = true
                /\ k (MS (rev m ++ pre) rest' cs) = Some x).
    { destruct g; [eapply star_greedy_sound|eapply star_lazy_sound]; exact H. }
    destruct S as (m & rest' & -> & Hm & Hk).
    eexists. split; [apply M_Star; exact Hm|exact Hk].
  - apply IHa in H. destruct H as (st1 & H1 & H).
    eexists. split; [apply M_Group; exact H1|exact H].
  - destruct pre; [|discriminate]. eexists. split; [apply M_Bol; reflexivity|exact H].
  - destruct (at_eol rest) eqn:E; [|discriminate].
    eexists. split; [apply M_Eol; exact E|exact H].
  - destruct rest; [|discriminate]. eexists. split; [apply M_EndZ; reflexivity|exact H].
  - destruct (at_word_boundary pre rest) eqn:E; [|discriminate].
    eexists. split; [apply M_WordB; exact E|exact H].
  - destruct (rx a (MS pre rest cs) Some) eqn:E; [|discriminate].
    apply IHa in E. destruct E as (st1 & H1 & _).
    eexists. split; [eapply M_Ahead; exact H1|exact H].
Qed.

(** A match moves the cursor forward over a piece [m] of the subject. *)
Lemma matches_consumed r st st' :
  matches r st st' ->
  exists m, ms_rest st = m ++ ms_rest st' /\ ms_pre st' = rev m ++ ms_pre st.
Proof.
  induction 1 as [st|p c pre t cs Hp|a b st1 st2 st3 H1 IH1 H2 IH2|a b st st' H IH
                  |a b st st' H IH|g p pre m rest cs Hm|i a st st' H IH|st H|st H|st H
                  |st H|a st st' H IH]; simpl;
    try (exists []; split; reflexivity).
  - exists [c]. auto.
  - destruct IH1 as (m1 & E1 & P1). destruct IH2 as (m2 & E2 & P2).
    exists (m1 ++ m2). rewrite E1, E2, P2, P1, rev_app_distr, <- !app_assoc. auto.
  - exact IH.
  - exact IH.
  - exists m. auto.
  - exact IH.
Qed.

Lemma consumed_app pre m rest cs pre' cs' :
  consumed (MS pre (m ++ rest) cs) (MS pre' rest cs') = m.
Proof.
  unfold consumed. simpl. rewrite length_app.
  replace (length m + length rest - length rest) with (length m) by lia.
  rewrite firstn_app, Nat.sub_diag, firstn_all. simpl. apply app_nil_r.
Qed.

Lemma matches_consumed_eq r st st' :
  matches r st st' -> ms_rest st = consumed st st' ++ ms_rest st'.
Proof.
  intros H. apply matches_consumed in H. destruct H as (m & E & _).
  destruct st as [pre rest cs], st' as [pre' rest' cs']. simpl in *. subst rest.
  rewrite consumed_app. reflexivity.
Qed.

(** What [match_at] returns: a match that starts at the cursor, the
    length of the text it covers and its groups. *)
Lemma match_at_sound r pre rest n cs :
  match_at r pre rest = Some (n, cs) ->
  exists m rest' pre',
    rest = m ++ rest' /\ n = length m
    /\ matches r (MS pre rest no_caps) (MS pre' rest' cs).
Proof.
  unfold match_at. destruct (rx r (MS pre rest no_caps) Some) as [st'|] eqn:E; [|discriminate].
  intros H. inversion H; subst. apply rx_sound in E.
  destruct E as (st1 & Hm & E). inversion E; subst st1.
  destruct (matches_consumed _ _ _ Hm) as (m & Er & _). simpl in Er.
  exists m, (ms_rest st'), (ms_pre st'). split; [exact Er|].
  split; [rewrite Er, length_app; lia|]. destruct st'. exact Hm.
Qed.

Lemma match_at_length r pre rest n cs :
  match_at r pre rest = Some (n, cs) -> n <= length rest.
Proof.
  intros H. apply match_at_sound in H. destruct H as (m & rest' & _ & -> & -> & _).
  rewrite length_app. lia.
Qed.

(** ** [re.sub] *)

Lemma sub_from_skip r f n : forall pre rest,
  n <= length rest ->
  sub_from r f n pre rest = sub_from r f 0 (rev (firstn n rest) ++ pre) (skipn n rest).
Proof.
  induction n as [|n IH]; intros pre rest H; [reflexivity|].
  destruct rest as [|c t]; [simpl in H; lia|].
  simpl in H. cbn [sub_from firstn skipn]. rewrite IH by lia.
  simpl. rewrite <- app_assoc. reflexivity.
Qed.

Lemma sub_from_step r f pre rest :
  never_empty r ->
  sub_from r f 0 pre rest
  = match match_at r pre rest with
    | Some (n, cs) =>
        f (firstn n rest) cs ++ sub_from r f 0 (rev (firstn n rest) ++ pre) (skipn n rest)
    | None =>
        match rest with
        | c :: t => c :: sub_from r f 0 (c :: pre) t
        | [] => []
        end
    end.
Proof.
  intros Hne. destruct rest as [|c t]; cbn [sub_from].
  - destruct (match_at r pre []) as [[n cs]|] eqn:E; [|reflexivity].
    pose proof (match_at_length _ _ _ _ _ E) as L. simpl in L.
    assert (n = 0) by lia. subst. exfalso. exact (Hne _ _ _ E).
  - destruct (match_at r pre (c :: t)) as [[n cs]|] eqn:E; [|reflexivity].
    destruct n as [|n]; [exfalso; exact (Hne _ _ _ E)|].
    pose proof (match_at_length _ _ _ _ _ E) as L. simpl in L.
    f_equal. simpl. rewrite Nat.sub_0_r. rewrite sub_from_skip by lia.
    simpl. rewrite <- app_assoc. reflexivity.
Qed.

(** Induction over the pieces of [re.sub]: the text is cut into characters
    that are copied and matches that are replaced. *)
Lemma sub_from_ind r f (P : str -> str -> Prop) :
  never_empty r ->
  P [] [] ->
  (forall c t out, P t out -> P (c :: t) (c :: out)) ->
  (forall pre m t cs out,
      m <> [] -> match_at r pre (m ++ t) = Some (length m, cs) ->
      P t out -> P (m ++ t) (f m cs ++ out)) ->
  forall pre rest, P rest (sub_from r f 0 pre rest).
Proof.
  intros Hne P0 Pc Pm pre rest. remember (length rest) as n eqn:En.
  revert pre rest En. induction n as [n IH] using lt_wf_ind. intros pre rest En.
  rewrite sub_from_step by assumption.
  destruct (match_at r pre rest) as [[k cs]|] eqn:E.
  - pose proof (match_at_length _ _ _ _ _ E) as L.
    assert (k <> 0) by (intros ->; exact (Hne _ _ _ E)).
    rewrite <- (firstn_skipn k rest) at 1.
    apply Pm with (pre := pre).
    + intros C. apply (f_equal (@length ascii)) in C.
      rewrite length_firstn in C. simpl in C. lia.
    + rewrite firstn_skipn, length_firstn, Nat.min_l by lia. exact E.
    + apply (IH (length (skipn k rest))); [rewrite length_skipn; lia|reflexivity].
  - destruct rest as [|c t]; [exact P0|].
    apply Pc. apply (IH (length t)); [simpl in En; lia|reflexivity].
Qed.

(** Where the pattern matches nowhere, [re.sub] returns the text. *)
Lemma sub_from_no_match r f : forall rest pre,
  (forall pre' m t, rest = m ++ t -> match_at r pre' t = None) ->
  sub_from r f 0 pre rest = rest.
Proof.
  induction rest as [|c t IH]; intros pre H; cbn [sub_from].
  - rewrite (H pre [] []); reflexivity.
  - rewrite (H pre [] (c :: t)) by reflexivity. f_equal. apply IH.
    intros pre' m t' E. apply (H pre' (c :: m)). rewrite E. reflexivity.
Qed.

(** ** The simple substitutions are the scanners *)

Lemma succ_sub n m : S (n + m) - m = S n.
Proof. lia. Qed.

Lemma length_run_after p s : length s = length (run p s) + length (after p s).
Proof. rewrite <- (run_after p s) at 1. apply length_app. Qed.

Lemma skipn_run p s : skipn (length (run p s)) s = after p s.
Proof.
  induction s as [|c t IH]; simpl; [reflexivity|].
  destruct (p c); simpl; [exact IH|reflexivity].
Qed.

Lemma firstn_run p s : firstn (length (run p s)) s = run p s.
Proof.
  induction s as [|c t IH]; simpl; [reflexivity|].
  destruct (p c); simpl; [rewrite IH|]; reflexivity.
Qed.

Lemma after_length p s : length (after p s) <= length s.
Proof. rewrite (length_run_after p s). lia. Qed.

(** [p+], greedy: one character of the class, then the rest of the run. *)
Lemma match_at_plus p pre rest :
  match_at (Plus true p) pre rest
  = match rest with
    | c :: t => if p c then Some (S (length (run p t)), no_caps) else None
    | [] => None
    end.
Proof.
  unfold match_at, Plus. cbn [rx ms_rest ms_pre ms_caps].
  destruct rest as [|c t]; [reflexivity|]. destruct (p c); [|reflexivity].
  rewrite star_greedy_total by discriminate. cbn [ms_rest ms_caps length].
  rewrite (length_run_after p t) at 1. rewrite succ_sub. reflexivity.
Qed.

Lemma never_empty_plus p : never_empty (Plus true p).
Proof.
  intros pre rest cs. rewrite match_at_plus.
  destruct rest as [|c t]; [discriminate|]. destruct (p c); discriminate.
Qed.

Lemma squeeze_true_after p x s : squeeze p x true s = squeeze p x false (after p s).
Proof.
  induction s as [|c t IH]; simpl; [reflexivity|].
  destruct (p c) eqn:E; simpl; [exact IH|]. rewrite E. reflexivity.
Qed.

Lemma sub_plus_squeeze p x : forall rest pre,
  sub_from (Plus true p) (const_repl x) 0 pre rest = squeeze p (s2l x) false rest.
Proof.
  intros rest. remember (length rest) as n eqn:En. revert rest En.
  induction n as [n IH] using lt_wf_ind. intros rest En pre.
  rewrite sub_from_step by apply never_empty_plus. rewrite match_at_plus.
  destruct rest as [|c t]; [reflexivity|]. cbn [squeeze].
  destruct (p c).
  - cbn [skipn]. rewrite skipn_run, squeeze_true_after. unfold const_repl at 1.
    f_equal. apply (IH (length (after p t))); [|reflexivity].
    pose proof (after_length p t). simpl in En. lia.
  - f_equal. apply (IH (length t)); [simpl in En; lia|reflexivity].
Qed.

(** [[...]]: one character of the class. *)
Lemma match_at_chr p pre rest :
  match_at (Chr p) pre rest
  = match rest with
    | c :: t => if p c then Some (1, no_caps) else None
    | [] => None
    end.
Proof.
  unfold match_at. cbn [rx ms_rest ms_pre ms_caps].
  destruct rest as [|c t]; [reflexivity|]. destruct (p c); [|reflexivity].
  cbn [ms_rest ms_caps length]. replace (S (length t) - length t) with 1 by lia.
  reflexivity.
Qed.

Lemma sub_chr_replace p x : forall rest pre,
  sub_from (Chr p) (const_repl x) 0 pre rest = replace_class p (s2l x) rest.
Proof.
  induction rest as [|c t IH]; intros pre; cbn [sub_from]; rewrite match_at_chr.
  - reflexivity.
  - unfold replace_class. cbn [flat_map]. destruct (p c); simpl.
    + unfold const_repl at 1. f_equal. apply IH.
    + f_equal. apply IH.
Qed.

(** The substitutions of the normalizer, as scanners. *)
Lemma newlines_to_space_spec s :
  newlines_to_space s = squeeze nl_cr (s2l " ") false s.
Proof. apply sub_plus_squeeze. Qed.

Lemma collapse_spaces_spec s :
  collapse_spaces s = squeeze is_space (s2l " ") false s.
Proof. apply sub_plus_squeeze. Qed.

Lemma separators_to_commas_spec s :
  separators_to_commas s = replace_class (one_of ";:") (s2l ",") s.
Proof. apply sub_chr_replace. Qed.

Lemma separators_to_commas_v1_spec s :
  separators_to_commas_v1 s = replace_class (one_of ";:|") (s2l ",") s.
Proof. apply sub_chr_replace. Qed.

(** [\(\s+] *)
Lemma match_at_open pre rest :
  match_at (Seq (Chr (is_char "(")) (Plus true is_space)) pre rest
  = match rest with
    | c :: d :: t =>
        if (Ascii.eqb c "(" && is_space d)%bool
        then Some (S (S (length (run is_space t))), no_caps) else None
    | _ => None
    end.
Proof.
  unfold match_at, Plus. cbn [rx ms_rest ms_pre ms_caps]. unfold is_char.
  destruct rest as [|c [|d t]]; [reflexivity|destruct (Ascii.eqb c "("); reflexivity|].
  destruct (Ascii.eqb c "("); [|reflexivity]. cbn [ms_rest ms_pre ms_caps andb].
  destruct (is_space d); [|reflexivity].
  rewrite star_greedy_total by discriminate. cbn [ms_rest ms_caps length].
  rewrite (length_run_after is_space t) at 1.
  replace (S (S (length (run is_space t) + length (after is_space t)))
           - length (after is_space t)) with (S (S (length (run is_space t)))) by lia.
  reflexivity.
Qed.

Lemma drop_after_open_true s :
  drop_after_open true s = drop_after_open false (after is_space s).
Proof.
  induction s as [|c t IH]; simpl; [reflexivity|].
  destruct (is_space c) eqn:E; simpl; [exact IH|reflexivity].
Qed.

Lemma open_paren_spaces_spec s : open_paren_spaces s = drop_after_open false s.
Proof.
  unfold open_paren_spaces, sub. generalize (@nil ascii) as pre.
  remember (length s) as n eqn:En. revert s En.
  induction n as [n IH] using lt_wf_ind. intros s En pre.
  rewrite sub_from_step.
  2:{ intros p r cs. rewrite match_at_open. destruct r as [|c [|d t]]; try discriminate.
      destruct (Ascii.eqb c "(" && is_space d)%bool; discriminate. }
  rewrite match_at_open.
  destruct s as [|c [|d t]]; [reflexivity| |].
  - reflexivity.
  - destruct (Ascii.eqb c "(") eqn:Ec; cbn [andb].
    + destruct (is_space d) eqn:Ed.
      * apply Ascii.eqb_eq in Ec. subst c. cbn [skipn].
        rewrite skipn_run. unfold const_repl. simpl. rewrite Ed.
        rewrite drop_after_open_true. f_equal.
        apply (IH (length (after is_space t))); [|reflexivity].
        pose proof (after_length is_space t). simpl in En. lia.
      * cbn [drop_after_open andb]. rewrite Ec. f_equal.
        rewrite drop_after_open_true. cbn [after]. rewrite Ed.
        apply (IH (length (d :: t))); [simpl in *; lia|reflexivity].
    + cbn [drop_after_open andb]. rewrite Ec. f_equal.
      apply (IH (length (d :: t))); [simpl in *; lia|reflexivity].
Qed.

(** [\s+\)] *)
Lemma match_at_close pre rest :
  match_at (Seq (Plus true is_space) (Chr (is_char ")"))) pre rest
  = match rest with
    | c :: t =>
        if (is_space c && closes t)%bool
        then Some (S (S (length (run is_space t))), no_caps) else None
    | [] => None
    end.
Proof.
  unfold match_at, Plus. cbn [rx ms_rest ms_pre ms_caps].
  destruct rest as [|c t]; [reflexivity|].
  destruct (is_space c); [|reflexivity]. cbn [andb].
  rewrite star_greedy_disjoint.
  2:{ intros pre' x t' cs' Hx. cbn [rx ms_rest]. unfold is_char.
      destruct (Ascii.eqb x ")") eqn:E; [|reflexivity].
      apply Ascii.eqb_eq in E. subst x. discriminate Hx. }
  cbn [rx ms_rest ms_pre ms_caps]. unfold closes, is_char.
  pose proof (length_run_after is_space t) as L.
  destruct (after is_space t) as [|d t']; [reflexivity|].
  destruct (Ascii.eqb d ")"); [|reflexivity].
  cbn [ms_rest ms_caps length] in *.
  replace (S (length t) - length t') with (S (S (length (run is_space t)))) by lia.
  reflexivity.
Qed.

Lemma drop_before_close_closes s :
  closes s = true ->
  drop_before_close s = ")"%char :: drop_before_close (tl (after is_space s)).
Proof.
  induction s as [|c t IH]; [discriminate|].
  unfold closes. cbn [after drop_before_close].
  destruct (is_space c) eqn:E; cbn [andb].
  - intros H. fold (closes t) in H. rewrite H. apply IH. exact H.
  - intros H. apply Ascii.eqb_eq in H. subst c. reflexivity.
Qed.

Lemma close_paren_spaces_spec s : close_paren_spaces s = drop_before_close s.
Proof.
  unfold close_paren_spaces, sub. generalize (@nil ascii) as pre.
  remember (length s) as n eqn:En. revert s En.
  induction n as [n IH] using lt_wf_ind. intros s En pre.
  rewrite sub_from_step.
  2:{ intros p r cs. rewrite match_at_close. destruct r as [|c t]; try discriminate.
      destruct (is_space c && closes t)%bool; discriminate. }
  rewrite match_at_close.
  destruct s as [|c t]; [reflexivity|]. cbn [drop_before_close].
  destruct (is_space c && closes t)%bool eqn:E.
  - apply andb_true_iff in E. destruct E as [_ E].
    rewrite (drop_before_close_closes _ E). unfold const_repl. simpl. f_equal.
    change (skipn (length (run is_space t)) t) with (skipn (length (run is_space t)) t).
    assert (K : match t with
                | [] => []
                | _ :: l => skipn (length (run is_space t)) l
                end = tl (after is_space t)).
    { rewrite <- skipn_run. generalize (length (run is_space t)) as k.
      clear. induction t as [|x t IH]; intros k; [destruct k; reflexivity|].
      destruct k as [|k]; [reflexivity|]. simpl. destruct t as [|y t].
      - destruct k; reflexivity.
      - apply IH. }
    rewrite K. apply (IH (length (tl (after is_space t)))); [|reflexivity].
    pose proof (after_length is_space t). simpl in En.
    destruct (after is_space t); simpl in *; lia.
  - f_equal. apply (IH (length t)); [simpl in En; lia|reflexivity].
Qed.

(** [^[^a-zA-Z0-9(]+|[^a-zA-Z0-9)]+$] *)
Lemma star_greedy_eol p cs : forall rest pre,
  p ch_nl = true ->
  star_greedy p cs (fun st => rx Eol st Some) pre rest
  = if forallb p rest then Some (MS (rev rest ++ pre) [] cs) else None.
Proof.
  intros rest pre Hnl. revert pre.
  induction rest as [|c t IH]; intros pre; [reflexivity|].
  cbn [star_greedy forallb]. destruct (p c) eqn:E; cbn [andb].
  - rewrite IH. destruct (forallb p t) eqn:Et.
    + simpl. rewrite <- app_assoc. reflexivity.
    + simpl. destruct t as [|d t]; [discriminate Et|reflexivity].
  - cbn [rx ms_rest at_eol]. destruct t as [|d t]; [|reflexivity].
    destruct (Ascii.eqb c ch_nl) eqn:Ec; [|reflexivity].
    apply Ascii.eqb_eq in Ec. subst c. congruence.
Qed.

Lemma match_at_edges pre rest :
  match_at re_edges pre rest
  = match rest with
    | [] => None
    | c :: t =>
        if (match pre with [] => true | _ => false end && cnot head_ok c)%bool
        then Some (S (length (run (cnot head_ok) t)), no_caps)
        else if forallb (cnot last_ok) rest then Some (length rest, no_caps)
             else None
    end.
Proof.
  unfold match_at, re_edges, Plus. fold head_ok last_ok.
  cbn [rx ms_rest ms_pre ms_caps].
  assert (A2 : forall c t,
             match (if cnot last_ok c
                    then star_greedy (cnot last_ok) no_caps (fun st' => rx Eol st' Some)
                           (c :: pre) t
                    else None) with
             | Some st' => Some (length (c :: t) - length (ms_rest st'), ms_caps st')
             | None => None
             end
             = if forallb (cnot last_ok) (c :: t) then Some (length (c :: t), no_caps)
               else None).
  { intros c t. cbn [forallb]. destruct (cnot last_ok c); [|reflexivity].
    rewrite star_greedy_eol by reflexivity. cbn [andb].
    destruct (forallb (cnot last_ok) t); [|reflexivity].
    cbn [ms_rest ms_caps length]. rewrite Nat.sub_0_r. reflexivity. }
  destruct rest as [|c t].
  - destruct pre; reflexivity.
  - destruct pre as [|x pre]; cbn [andb orelse].
    + destruct (cnot head_ok c).
      * rewrite star_greedy_total by discriminate. cbn [orelse ms_rest ms_caps length].
        rewrite (length_run_after (cnot head_ok) t) at 1. rewrite succ_sub. reflexivity.
      * cbn [orelse]. apply A2.
    + apply A2.
Qed.

Lemma never_empty_edges : never_empty re_edges.
Proof.
  intros pre rest cs. rewrite match_at_edges. destruct rest as [|c t]; [discriminate|].
  destruct (_ && _)%bool; [discriminate|].
  destruct (forallb _ _); discriminate.
Qed.

Lemma edges_tail : forall rest pre,
  pre <> [] \/ match rest with c :: _ => head_ok c = true | [] => True end ->
  sub_from re_edges (const_repl "") 0 pre rest = rtrim rest.
Proof.
  induction rest as [|c t IH]; intros pre H;
    rewrite sub_from_step by apply never_empty_edges; rewrite match_at_edges;
    [reflexivity|].
  replace (match pre with [] => true | _ => false end && cnot head_ok c)%bool with false.
  2:{ destruct H as [H|H]; [destruct pre; [contradiction|reflexivity]|].
      unfold cnot. rewrite H. destruct pre; reflexivity. }
  cbn [rtrim]. destruct (forallb (cnot last_ok) (c :: t)).
  - rewrite skipn_all. rewrite sub_from_step by apply never_empty_edges.
    rewrite match_at_edges. reflexivity.
  - f_equal. apply IH. left. discriminate.
Qed.

Lemma strip_edges_spec s :
  sub re_edges (const_repl "") s = rtrim (after (cnot head_ok) s).
Proof.
  unfold sub. destruct s as [|c t]; [reflexivity|].
  cbn [after]. destruct (cnot head_ok c) eqn:E.
  - rewrite sub_from_step by apply never_empty_edges. rewrite match_at_edges.
    cbn [andb]. rewrite E. cbn [skipn]. rewrite skipn_run.
    unfold const_repl at 1. cbn [s2l list_ascii_of_string app].
    apply edges_tail. left. cbn [firstn rev]. intros C.
    apply (f_equal (@length ascii)) in C. rewrite !length_app in C. simpl in C. lia.
  - apply edges_tail. right. unfold cnot in E. apply negb_false_iff in E. exact E.
Qed.

(** [([A-Za-z])l([0-9])] and [([A-Za-z])O([0-9])] *)
Lemma consumed_cons pre c t cs pre' cs' :
  consumed (MS pre (c :: t) cs) (MS pre' t cs') = [c].
Proof. apply (consumed_app pre [c] t cs pre' cs'). Qed.

Lemma match_at_confused x pre rest :
  match_at (re_confused x) pre rest
  = match rest with
    | a :: b :: d :: t =>
        if (alpha a && Ascii.eqb b x && d09 d)%bool
        then Some (3, set_cap 2 [d] (set_cap 1 [a] no_caps)) else None
    | _ => None
    end.
Proof.
  unfold match_at, re_confused. cbn [seqs rx ms_rest ms_pre ms_caps]. unfold is_char.
  destruct rest as [|a [|b [|d t]]]; try reflexivity;
    destruct (alpha a); try reflexivity; cbn [ms_rest ms_pre ms_caps andb];
    destruct (Ascii.eqb b x); try reflexivity; cbn [ms_rest ms_pre ms_caps andb].
  destruct (d09 d); [|reflexivity]. cbn [ms_rest ms_pre ms_caps].
  rewrite !consumed_cons. cbn [length].
  replace (S (S (S (length t))) - length t) with 3 by lia. reflexivity.
Qed.

Lemma never_empty_confused x : never_empty (re_confused x).
Proof.
  intros pre rest cs. rewrite match_at_confused.
  destruct rest as [|a [|b [|d t]]]; try discriminate.
  destruct (_ && _)%bool; discriminate.
Qed.

Lemma unconfuse_spec x s : sub (re_confused x) repl_1_hyphen_2 s = unconfuse x s.
Proof.
  unfold sub. generalize (@nil ascii) as pre.
  remember (length s) as n eqn:En. revert s En.
  induction n as [n IH] using lt_wf_ind. intros s En pre.
  rewrite sub_from_step by apply never_empty_confused. rewrite match_at_confused.
  destruct s as [|a [|b [|d t]]].
  - reflexivity.
  - reflexivity.
  - cbn [unconfuse]. f_equal.
    rewrite (IH 1 ltac:(simpl in En; lia) [b] eq_refl). reflexivity.
  - cbn [unconfuse]. destruct (alpha a && Ascii.eqb b x && d09 d)%bool.
    + cbn [skipn firstn]. unfold repl_1_hyphen_2. simpl set_cap. simpl app.
      do 3 f_equal. apply (IH (length t)); [simpl in En; lia|reflexivity].
    + f_equal. apply (IH (length (b :: d :: t))); [simpl in *; lia|reflexivity].
Qed.

(** The cleaning of one entry, as scanners. *)
Lemma clean_spec ing :
  clean ing
  = unconfuse "O"
      (unconfuse "l"
         (squeeze is_space (s2l " ") false
            (rtrim (after (cnot head_ok) (strip ing))))).
Proof.
  unfold clean. rewrite strip_edges_spec.
  change (sub (Plus true is_space) (const_repl " ")) with collapse_spaces.
  rewrite collapse_spaces_spec, !unconfuse_spec. reflexivity.
Qed.

(** ** The two ends of a token *)

Lemma rtrim_nil_iff s : rtrim s = [] <-> forallb (cnot last_ok) s = true.
Proof.
  destruct s as [|c t]; simpl; [tauto|].
  destruct (cnot last_ok c && forallb (cnot last_ok) t)%bool; split; auto; discriminate.
Qed.

Lemma rtrim_last s d0 : rtrim s <> [] -> last_ok (last (rtrim s) d0) = true.
Proof.
  induction s as [|c t IH]; [intros H; contradiction H; reflexivity|].
  cbn [rtrim]. destruct (forallb (cnot last_ok) (c :: t)) eqn:E;
    [intros H; contradiction H; reflexivity|]. intros _.
  destruct (rtrim t) as [|x u] eqn:Et.
  - simpl. assert (Ht : forallb (cnot last_ok) t = true) by (apply rtrim_nil_iff; exact Et).
    simpl in E. rewrite Ht, andb_true_r in E. unfold cnot in E.
    apply negb_false_iff in E. exact E.
  - change (last (c :: x :: u) d0) with (last (x :: u) d0). apply IH. discriminate.
Qed.

Lemma rtrim_head c t : rtrim (c :: t) <> [] -> exists u, rtrim (c :: t) = c :: u.
Proof.
  cbn [rtrim]. destruct (forallb (cnot last_ok) (c :: t));
    [intros H; contradiction H; reflexivity|]. intros _. eexists. reflexivity.
Qed.

Lemma last_app_right {A} (a b : list A) d0 : b <> [] -> last (a ++ b) d0 = last b d0.
Proof.
  intros N. induction a as [|x a IH]; [reflexivity|].
  simpl. destruct (a ++ b) eqn:E; [|exact IH].
  apply app_eq_nil in E. destruct E as [_ E]. contradiction.
Qed.

Lemma squeeze_cons p x fl c t :
  squeeze p x fl (c :: t)
  = if p c then (if fl then [] else x) ++ squeeze p x true t
    else c :: squeeze p x false t.
Proof. reflexivity. Qed.

Lemma squeeze_last p x fl s d0 :
  s <> [] -> p (last s d0) = false ->
  squeeze p x fl s <> [] /\ last (squeeze p x fl s) d0 = last s d0.
Proof.
  revert fl. induction s as [|c t IH]; intros fl Hs Hl; [contradiction Hs; reflexivity|].
  destruct t as [|c' t'].
  - simpl in *. rewrite Hl. split; [discriminate|reflexivity].
  - assert (Ht : c' :: t' <> []) by discriminate.
    change (last (c :: c' :: t') d0) with (last (c' :: t') d0) in *.
    rewrite squeeze_cons. destruct (p c).
    + destruct (IH true Ht Hl) as [N L]. split.
      * intros C. apply app_eq_nil in C. destruct C as [_ C]. exact (N C).
      * rewrite last_app_right; [exact L|exact N].
    + destruct (IH false Ht Hl) as [N L]. split; [discriminate|].
      destruct (squeeze p x false (c' :: t')) eqn:E; [contradiction N; reflexivity|].
      exact L.
Qed.

Lemma unconfuse_cons x a b d t :
  unconfuse x (a :: b :: d :: t)
  = if (alpha a && Ascii.eqb b x && d09 d)%bool
    then a :: "-"%char :: d :: unconfuse x t
    else a :: unconfuse x (b :: d :: t).
Proof. reflexivity. Qed.

Lemma unconfuse_head x c t : exists u, unconfuse x (c :: t) = c :: u.
Proof.
  destruct t as [|b [|d t]]; try (eexists; reflexivity).
  rewrite unconfuse_cons.
  destruct (alpha c && Ascii.eqb b x && d09 d)%bool; eexists; reflexivity.
Qed.

Lemma unconfuse_last x d0 : forall s, last (unconfuse x s) d0 = last s d0.
Proof.
  intros s. remember (length s) as n eqn:En. revert s En.
  induction n as [n IH] using lt_wf_ind. intros s En.
  destruct s as [|a [|b [|d t]]]; try reflexivity.
  rewrite unconfuse_cons. destruct (alpha a && Ascii.eqb b x && d09 d)%bool.
  - destruct t as [|e t]; [reflexivity|].
    destruct (unconfuse_head x e t) as (u & Eu).
    change (last (a :: b :: d :: e :: t) d0) with (last (e :: t) d0).
    rewrite <- (IH (length (e :: t)) ltac:(simpl in *; lia) (e :: t) eq_refl).
    rewrite Eu. reflexivity.
  - destruct (unconfuse_head x b (d :: t)) as (u & Eu).
    change (last (a :: b :: d :: t) d0) with (last (b :: d :: t) d0).
    rewrite <- (IH (length (b :: d :: t)) ltac:(simpl in *; lia) (b :: d :: t) eq_refl).
    rewrite Eu. reflexivity.
Qed.

Lemma head_ok_not_space c : head_ok c = true -> is_space c = false.
Proof.
  destruct c as [[] [] [] [] [] [] [] []]; vm_compute; congruence.
Qed.

Lemma last_ok_not_space c : last_ok c = true -> is_space c = false.
Proof.
  destruct c as [[] [] [] [] [] [] [] []]; vm_compute; congruence.
Qed.

(** A cleaned entry is empty, or starts and ends as the pattern of line
    295 leaves it. *)
Lemma clean_edges ing :
  clean ing = []
  \/ exists c t, clean ing = c :: t /\ head_ok c = true
                 /\ last_ok (last (clean ing) " "%char) = true.
Proof.
  rewrite clean_spec. set (s := strip ing).
  destruct (after (cnot head_ok) s) as [|c t] eqn:Ea; [left; reflexivity|].
  assert (Hc : head_ok c = true).
  { apply after_head in Ea. unfold cnot in Ea. apply negb_false_iff in Ea. exact Ea. }
  destruct (rtrim (c :: t)) as [|c1 u] eqn:Er; [left; reflexivity|].
  assert (Nr : rtrim (c :: t) <> []) by (rewrite Er; discriminate).
  destruct (rtrim_head c t Nr) as (u' & Eh). rewrite Er in Eh. inversion Eh; subst c1 u'.
  pose proof (rtrim_last (c :: t) " "%char Nr) as Hl. rewrite Er in Hl.
  right.
  destruct (squeeze_last is_space (s2l " ") false (c :: u) " "%char) as [N L].
  { discriminate. } { apply last_ok_not_space. exact Hl. }
  assert (Es : exists v, squeeze is_space (s2l " ") false (c :: u) = c :: v).
  { cbn [squeeze]. rewrite (head_ok_not_space c Hc). eexists. reflexivity. }
  destruct Es as (v & Es). rewrite Es in *.
  destruct (unconfuse_head "l" c v) as (v1 & E1).
  destruct (unconfuse_head "O" c v1) as (v2 & E2).
  exists c, v2. rewrite E1, E2. split; [reflexivity|]. split; [exact Hc|].
  rewrite <- E2, <- E1, !unconfuse_last, L. exact Hl.
Qed.

(** C10.  Every token returned by [parse_ingredients_from_ocr] starts with
    an ASCII letter or digit or an opening parenthesis and ends with an ASCII
    letter or digit or a closing parenthesis; neither end is whitespace. *)
Theorem C10_token_edges (ocr_text tok : str) :
  In tok (parse_ingredients_from_ocr ocr_text) ->
  (exists c t, tok = c :: t /\ head_ok c = true /\ is_space c = false)
  /\ (exists t c, tok = t ++ [c] /\ last_ok c = true /\ is_space c = false).
Proof.
  unfold parse_ingredients_from_ocr, parse_span, clean_all.
  destruct ocr_text as [|c0 t0]; [intros []|].
  intros H. apply filter_In in H. destruct H as [H Hl].
  apply in_map_iff in H. destruct H as (ing & E & _). subst tok.
  destruct (clean_edges ing) as [En|(c & t & Ec & Hc & Hlast)].
  - rewrite En in Hl. discriminate Hl.
  - split.
    + exists c, t. repeat split; auto. apply head_ok_not_space. exact Hc.
    + assert (N : clean ing <> []) by (rewrite Ec; discriminate).
      destruct (exists_last N) as (u & x & Eu). exists u, x.
      rewrite Eu in Hlast. rewrite last_last in Hlast.
      repeat split; auto. apply last_ok_not_space. exact Hlast.
Qed.

Lemma C10_token_edges_witness :
  In (s2l "Water") (parse_ingredients_from_ocr (s2l "Ingredients: Water, Glycerin, Fragrance."))
  /\ ((exists c t, s2l "Water" = c :: t /\ head_ok c = true /\ is_space c = false)
      /\ (exists t c, s2l "Water" = t ++ [c] /\ last_ok c = true /\ is_space c = false)).
Proof.
  assert (H : In (s2l "Water")
                (parse_ingredients_from_ocr (s2l "Ingredients: Water, Glycerin, Fragrance.")))
    by (vm_compute; left; reflexivity).
  split; [exact H|].
  exact (C10_token_edges (s2l "Ingredients: Water, Glycerin, Fragrance.") (s2l "Water") H).
Defined.

(** ** The two hyphen patterns *)

Lemma consumed_cons_app pre c m rest cs pre' cs' :
  consumed (MS pre (c :: m ++ rest) cs) (MS pre' rest cs') = c :: m.
Proof. apply (consumed_app pre (c :: m) rest cs pre' cs'). Qed.

Lemma match_at_matches r pre rest n cs :
  match_at r pre rest = Some (n, cs) ->
  exists st', matches r (MS pre rest no_caps) st'
              /\ n = length rest - length (ms_rest st') /\ cs = ms_caps st'.
Proof.
  unfold match_at. destruct (rx r (MS pre rest no_caps) Some) as [st'|] eqn:E; [|discriminate].
  intros H. inversion H; subst. apply rx_sound in E.
  destruct E as (st1 & Hm & E). inversion E; subst st1.
  exists st'. auto.
Qed.

Ltac invert_matches :=
  repeat match goal with
         | H : matches (Seq _ _) _ _ |- _ => inversion H; subst; clear H
         | H : matches (Group _ _) _ _ |- _ => inversion H; subst; clear H
         | H : matches (Chr _) _ _ |- _ => inversion H; subst; clear H
         | H : matches (Star _ _) _ _ |- _ => inversion H; subst; clear H
         | H : _ = ms_rest (MS _ _ _) |- _ => cbn [ms_rest] in H; subst
         | H : ms_rest (MS _ _ _) = _ |- _ => cbn [ms_rest] in H; subst
         end.

Lemma nl_cr_space c : nl_cr c = true -> is_space c = true.
Proof.
  unfold nl_cr, cor, is_char. intros H. apply orb_true_iff in H.
  destruct H as [H|H]; apply Ascii.eqb_eq in H; subst; reflexivity.
Qed.

Lemma forallb_nl_cr_space m : forallb nl_cr m = true -> forallb is_space m = true.
Proof.
  induction m as [|c m IH]; simpl; [reflexivity|]. intros H.
  apply andb_true_iff in H. destruct H as [H1 H2].
  rewrite (nl_cr_space _ H1), IH; auto.
Qed.

Ltac app_norm := repeat (progress (rewrite <- ?app_assoc; cbn [app])).

Ltac char_facts :=
  repeat match goal with
         | H : is_char _ _ = true |- _ => apply Ascii.eqb_eq in H; subst
         end.

Ltac space_facts :=
  repeat match goal with
         | H : forallb is_space _ = true |- _ => rewrite H; clear H
         | H : is_space _ = true |- _ => rewrite H; clear H
         | H : nl_cr _ = true |- _ => rewrite (nl_cr_space _ H); clear H
         | H : forallb nl_cr _ = true |- _ => rewrite (forallb_nl_cr_space _ H); clear H
         end.

(** A match of [(\w+)\-\s*[\n\r]+\s*(\w+)]: group 1, a hyphen, whitespace,
    group 2. *)
Lemma hyphen_break_shape pre rest n cs :
  match_at re_hyphen_break pre rest = Some (n, cs) ->
  exists g1 w g2 rest',
    rest = g1 ++ "-"%char :: w ++ g2 ++ rest'
    /\ n = length (g1 ++ "-"%char :: w ++ g2)
    /\ cs 1 = g1 /\ cs 2 = g2
    /\ forallb is_space w = true.
Proof.
  intros H. apply match_at_matches in H.
  destruct H as (st' & H & En & Ec).
  unfold re_hyphen_break, Plus in H. cbn [seqs] in H.
  invert_matches. cbn [ms_rest ms_pre ms_caps] in *.
  rewrite !consumed_cons_app. char_facts.
  exists (c :: m), (m3 ++ c1 :: m1 ++ m2), (c0 :: m0), rest0.
  assert (E : c :: m ++ "-"%char :: m3 ++ c1 :: m1 ++ m2 ++ c0 :: m0 ++ rest0
              = ((c :: m) ++ "-"%char :: (m3 ++ c1 :: m1 ++ m2) ++ c0 :: m0) ++ rest0).
  { app_norm. reflexivity. }
  split; [rewrite E; app_norm; reflexivity|].
  split; [rewrite E, length_app; lia|].
  split; [reflexivity|]. split; [reflexivity|].
  rewrite forallb_app. cbn [forallb]. rewrite forallb_app. space_facts. reflexivity.
Qed.

(** A match of [(\w+)\s+\-\s+(\w+)]: group 1, whitespace, a hyphen,
    whitespace, group 2. *)
Lemma spaced_hyphen_shape pre rest n cs :
  match_at re_spaced_hyphen pre rest = Some (n, cs) ->
  exists g1 w1 w2 g2 rest',
    rest = g1 ++ w1 ++ "-"%char :: w2 ++ g2 ++ rest'
    /\ n = length (g1 ++ w1 ++ "-"%char :: w2 ++ g2)
    /\ cs 1 = g1 /\ cs 2 = g2
    /\ forallb is_space w1 = true /\ forallb is_space w2 = true.
Proof.
  intros H. apply match_at_matches in H.
  destruct H as (st' & H & En & Ec).
  unfold re_spaced_hyphen, Plus in H. cbn [seqs] in H.
  invert_matches. cbn [ms_rest ms_pre ms_caps] in *.
  rewrite !consumed_cons_app. char_facts.
  exists (c :: m), (c1 :: m1), (c2 :: m2), (c0 :: m0), rest0.
  assert (E : c :: m ++ c1 :: m1 ++ "-"%char :: c2 :: m2 ++ c0 :: m0 ++ rest0
              = ((c :: m) ++ (c1 :: m1) ++ "-"%char :: (c2 :: m2) ++ c0 :: m0) ++ rest0).
  { app_norm. reflexivity. }
  split; [rewrite E; app_norm; reflexivity|].
  split; [rewrite E, length_app; lia|].
  split; [reflexivity|]. split; [reflexivity|].
  cbn [forallb]. space_facts. split; reflexivity.
Qed.

(** Neither pattern matches in a text without a hyphen. *)
Lemma hyphen_break_needs_hyphen pre rest :
  ~ In "-"%char rest -> match_at re_hyphen_break pre rest = None.
Proof.
  intros N. destruct (match_at re_hyphen_break pre rest) as [[n cs]|] eqn:E; [|reflexivity].
  apply hyphen_break_shape in E. destruct E as (g1 & w & g2 & rest' & -> & _).
  exfalso. apply N. apply in_or_app. right. left. reflexivity.
Qed.

Lemma spaced_hyphen_needs_hyphen pre rest :
  ~ In "-"%char rest -> match_at re_spaced_hyphen pre rest = None.
Proof.
  intros N. destruct (match_at re_spaced_hyphen pre rest) as [[n cs]|] eqn:E; [|reflexivity].
  apply spaced_hyphen_shape in E. destruct E as (g1 & w1 & w2 & g2 & rest' & -> & _).
  exfalso. apply N. apply in_or_app. right. apply in_or_app. right. left. reflexivity.
Qed.

Lemma never_empty_hyphen_break : never_empty re_hyphen_break.
Proof.
  intros pre rest cs H. apply hyphen_break_shape in H.
  destruct H as (g1 & w & g2 & rest' & _ & E & _).
  rewrite length_app in E. simpl in E. lia.
Qed.

Lemma never_empty_spaced_hyphen : never_empty re_spaced_hyphen.
Proof.
  intros pre rest cs H. apply spaced_hyphen_shape in H.
  destruct H as (g1 & w1 & w2 & g2 & rest' & _ & E & _).
  rewrite !length_app in E. simpl in E. lia.
Qed.

Lemma no_hyphen_join s : ~ In "-"%char s -> join_hyphen_breaks s = s.
Proof.
  intros N. apply sub_from_no_match. intros pre' m t E.
  apply hyphen_break_needs_hyphen. intros C. apply N. rewrite E.
  apply in_or_app. right. exact C.
Qed.

Lemma no_hyphen_tighten s : ~ In "-"%char s -> tighten_hyphens s = s.
Proof.
  intros N. apply sub_from_no_match. intros pre' m t E.
  apply spaced_hyphen_needs_hyphen. intros C. apply N. rewrite E.
  apply in_or_app. right. exact C.
Qed.

(** ** What the normalizer does to separators *)

Lemma count_app q a b : count q (a ++ b) = count q a + count q b.
Proof. unfold count. rewrite filter_app, length_app. reflexivity. Qed.

Lemma count_cons q c s : count q (c :: s) = (if q c then 1 else 0) + count q s.
Proof. unfold count. simpl. destruct (q c); reflexivity. Qed.

Lemma count_spaces q w : solid q -> forallb is_space w = true -> count q w = 0.
Proof.
  intros Hq. induction w as [|c w IH]; [reflexivity|]. simpl. intros H.
  apply andb_true_iff in H. destruct H as [Hc Hw]. rewrite count_cons, IH by exact Hw.
  destruct (q c) eqn:E; [|reflexivity]. apply Hq in E. destruct E. congruence.
Qed.

Lemma count_hyphen q : solid q -> q "-"%char = false.
Proof.
  intros Hq. destruct (q "-"%char) eqn:E; [|reflexivity].
  apply Hq in E. destruct E as [_ E]. contradiction E. reflexivity.
Qed.

Lemma app_eq_length {A} (a b c d : list A) :
  a ++ b = c ++ d -> length a = length c -> a = c /\ b = d.
Proof.
  revert c. induction a as [|x a IH]; intros [|y c] E L; simpl in *; try discriminate.
  - auto.
  - inversion E; subst. destruct (IH c H1) as [-> ->]; [lia|]. auto.
Qed.

(** A substitution that keeps the count of each match keeps the count of
    the text. *)
Lemma sub_count q r f :
  never_empty r ->
  (forall pre m t cs, match_at r pre (m ++ t) = Some (length m, cs) ->
                      count q (f m cs) = count q m) ->
  forall s, count q (sub r f s) = count q s.
Proof.
  intros Hne Hm s. unfold sub.
  apply (sub_from_ind r f (fun rest out => count q out = count q rest)); auto.
  - intros c t out H. rewrite !count_cons, H. reflexivity.
  - intros pre m t cs out _ E H. rewrite !count_app, H, (Hm _ _ _ _ E). reflexivity.
Qed.

Lemma join_hyphen_breaks_count q s :
  solid q -> count q (join_hyphen_breaks s) = count q s.
Proof.
  intros Hq. apply sub_count; [apply never_empty_hyphen_break|].
  intros pre m t cs E. apply hyphen_break_shape in E.
  destruct E as (g1 & w & g2 & rest' & E & L & C1 & C2 & W).
  replace (g1 ++ "-"%char :: w ++ g2 ++ rest')
    with ((g1 ++ "-"%char :: w ++ g2) ++ rest') in E by (app_norm; reflexivity).
  destruct (app_eq_length _ _ _ _ E L) as [-> _].
  unfold repl_12. rewrite C1, C2. repeat (rewrite count_app || rewrite count_cons).
  rewrite (count_hyphen q Hq), (count_spaces q w Hq W). lia.
Qed.

Lemma tighten_hyphens_count q s :
  solid q -> count q (tighten_hyphens s) = count q s.
Proof.
  intros Hq. apply sub_count; [apply never_empty_spaced_hyphen|].
  intros pre m t cs E. apply spaced_hyphen_shape in E.
  destruct E as (g1 & w1 & w2 & g2 & rest' & E & L & C1 & C2 & W1 & W2).
  replace (g1 ++ w1 ++ "-"%char :: w2 ++ g2 ++ rest')
    with ((g1 ++ w1 ++ "-"%char :: w2 ++ g2) ++ rest') in E by (app_norm; reflexivity).
  destruct (app_eq_length _ _ _ _ E L) as [-> _].
  unfold repl_1_hyphen_2. rewrite C1, C2.
  change (s2l "-" ++ g2) with ("-"%char :: g2).
  repeat (rewrite count_app || rewrite count_cons).
  rewrite (count_spaces q w1 Hq W1), (count_spaces q w2 Hq W2). lia.
Qed.

Lemma squeeze_count q p fl s :
  (forall c, p c = true -> q c = false) -> q " "%char = false ->
  count q (squeeze p (s2l " ") fl s) = count q s.
Proof.
  intros Hp Hs. revert fl. induction s as [|c t IH]; intros fl; [reflexivity|].
  rewrite squeeze_cons, count_cons. destruct (p c) eqn:E.
  - rewrite (Hp c E), count_app, IH. destruct fl; [reflexivity|].
    change (s2l " ") with [" "%char]. rewrite count_cons, Hs. reflexivity.
  - rewrite count_cons, IH. reflexivity.
Qed.

Lemma drop_after_open_count_ws q fl s :
  (forall c, is_space c = true -> q c = false) ->
  count q (drop_after_open fl s) = count q s.
Proof.
  intros Hq. revert fl. induction s as [|c t IH]; intros fl; [reflexivity|].
  cbn [drop_after_open]. rewrite count_cons.
  destruct (fl && is_space c)%bool eqn:E.
  - apply andb_true_iff in E. destruct E as [_ E]. rewrite IH, (Hq c E). reflexivity.
  - rewrite count_cons, IH. reflexivity.
Qed.

Lemma drop_before_close_count_ws q s :
  (forall c, is_space c = true -> q c = false) ->
  count q (drop_before_close s) = count q s.
Proof.
  intros Hq. induction s as [|c t IH]; [reflexivity|].
  cbn [drop_before_close]. rewrite count_cons.
  destruct (is_space c && closes t)%bool eqn:E.
  - apply andb_true_iff in E. destruct E as [E _]. rewrite IH, (Hq c E). reflexivity.
  - rewrite count_cons, IH. reflexivity.
Qed.

Lemma solid_ws q : solid q -> forall c, is_space c = true -> q c = false.
Proof.
  intros Hq c Hc. destruct (q c) eqn:E; [|reflexivity].
  apply Hq in E. destruct E as [E _]. congruence.
Qed.

Lemma drop_after_open_count q fl s :
  solid q -> count q (drop_after_open fl s) = count q s.
Proof. intros Hq. apply drop_after_open_count_ws. apply solid_ws. exact Hq. Qed.

Lemma drop_before_close_count q s :
  solid q -> count q (drop_before_close s) = count q s.
Proof. intros Hq. apply drop_before_close_count_ws. apply solid_ws. exact Hq. Qed.

Lemma solid_space q : solid q -> q " "%char = false.
Proof.
  intros Hq. destruct (q " "%char) eqn:E; [|reflexivity].
  apply Hq in E. destruct E as [E _]. discriminate E.
Qed.

Lemma solid_not_space q p :
  solid q -> (forall c, p c = true -> is_space c = true) ->
  forall c, p c = true -> q c = false.
Proof.
  intros Hq Hp c Hc. destruct (q c) eqn:E; [|reflexivity].
  apply Hq in E. destruct E as [E _]. rewrite (Hp c Hc) in E. discriminate E.
Qed.

(** Up to the separator step, and after it, the count of a solid class is
    kept. *)
Lemma before_separators_count q s :
  solid q ->
  count q (collapse_spaces (newlines_to_space (tighten_hyphens (join_hyphen_breaks s))))
  = count q s.
Proof.
  intros Hq. rewrite collapse_spaces_spec, newlines_to_space_spec.
  rewrite squeeze_count;
    [|apply (solid_not_space q is_space Hq); auto|apply solid_space; exact Hq].
  rewrite squeeze_count;
    [|apply (solid_not_space q nl_cr Hq); apply nl_cr_space|apply solid_space; exact Hq].
  rewrite tighten_hyphens_count, join_hyphen_breaks_count by exact Hq. reflexivity.
Qed.

Lemma after_separators_count q s :
  solid q -> count q (close_paren_spaces (open_paren_spaces s)) = count q s.
Proof.
  intros Hq. rewrite close_paren_spaces_spec, open_paren_spaces_spec.
  rewrite drop_before_close_count, drop_after_open_count by exact Hq. reflexivity.
Qed.

Lemma replace_class_count q p x s :
  count q (replace_class p x s)
  = count (fun c => if p c then false else q c) s + count p s * count q x.
Proof.
  induction s as [|c t IH]; [reflexivity|].
  unfold replace_class in *. cbn [flat_map]. rewrite count_app, IH, !count_cons.
  destruct (p c); [simpl; ring|]. rewrite count_cons. destruct (q c); simpl; ring.
Qed.

Lemma count_ext q q' s : (forall c, q c = q' c) -> count q s = count q' s.
Proof.
  intros H. unfold count. f_equal. apply filter_ext. exact H.
Qed.

Lemma solid_comma : solid (is_char ",").
Proof.
  intros c H. apply Ascii.eqb_eq in H. subst c. split; [reflexivity|discriminate].
Qed.

Lemma solid_bar : solid (is_char "|").
Proof.
  intros c H. apply Ascii.eqb_eq in H. subst c. split; [reflexivity|discriminate].
Qed.

Lemma solid_separators : solid (one_of ";:").
Proof.
  intros c H. unfold one_of in H. simpl in H. rewrite orb_false_r in H.
  apply orb_true_iff in H.
  destruct H as [H|H]; apply Ascii.eqb_eq in H; subst c; split;
    try reflexivity; discriminate.
Qed.

Lemma solid_comma_like : solid comma_like.
Proof.
  intros c H. unfold comma_like, one_of in H. simpl in H.
  rewrite orb_false_r in H. apply orb_true_iff in H. destruct H as [H|H].
  - apply Ascii.eqb_eq in H. subst c. split; [reflexivity|discriminate].
  - apply orb_true_iff in H.
    destruct H as [H|H]; apply Ascii.eqb_eq in H; subst c; split;
      try reflexivity; discriminate.
Qed.

Lemma count_split (q p : cclass) (s : str) :
  count q s = count (fun c => if p c then false else q c) s
              + count (fun c => (p c && q c)%bool) s.
Proof.
  induction s as [|c t IH]; [reflexivity|]. rewrite !count_cons, IH.
  destruct (p c), (q c); simpl; lia.
Qed.

(** No semicolon and no colon survives the normalizer. *)
Lemma normalize_no_separators (s : str) :
  count (one_of ";:") (normalize s) = 0.
Proof.
  unfold normalize.
  rewrite after_separators_count by apply solid_separators.
  rewrite separators_to_commas_spec, replace_class_count.
  change (count (one_of ";:") (s2l ",")) with 0. rewrite Nat.mul_0_r, Nat.add_0_r.
  unfold count. rewrite (filter_ext _ (fun _ => false)).
  - induction (collapse_spaces _) as [|c t IH]; [reflexivity|exact IH].
  - intros c. destruct (one_of ";:" c); reflexivity.
Qed.

(** ** Texts rewritten in place *)

Lemma rewritten_weaken (d d' : ascii -> Prop) (R R' : ascii -> ascii -> Prop) t s :
  (forall c, d c -> d' c) -> (forall c x, R c x -> R' c x) ->
  rewritten d R t s -> rewritten d' R' t s.
Proof.
  intros Hd HR. induction 1;
    [apply rewritten_nil|apply rewritten_drop; auto|apply rewritten_take; auto].
Qed.

Lemma rewritten_refl (d : ascii -> Prop) (R : ascii -> ascii -> Prop) s :
  (forall c, R c c) -> rewritten d R s s.
Proof. intros H. induction s; [apply rewritten_nil|apply rewritten_take; auto]. Qed.

Lemma rewritten_app (d : ascii -> Prop) (R : ascii -> ascii -> Prop) t1 s1 t2 s2 :
  rewritten d R t1 s1 -> rewritten d R t2 s2 -> rewritten d R (t1 ++ t2) (s1 ++ s2).
Proof.
  intros H1 H2. induction H1 as [|t c s Hc H IH|x t c s Hc H IH]; simpl.
  - exact H2.
  - apply rewritten_drop; assumption.
  - apply rewritten_take; assumption.
Qed.

Lemma rewritten_dropped (d : ascii -> Prop) (R : ascii -> ascii -> Prop) w :
  (forall c, In c w -> d c) -> rewritten d R [] w.
Proof.
  induction w as [|c w IH]; intros H; [apply rewritten_nil|].
  apply rewritten_drop; [apply H; left; reflexivity|].
  apply IH. intros x Hx. apply H. right. exact Hx.
Qed.

Lemma spaces_dropped (R : ascii -> ascii -> Prop) w :
  forallb is_space w = true -> rewritten (fun c => is_space c = true) R [] w.
Proof.
  intros H. apply rewritten_dropped. rewrite forallb_forall in H. exact H.
Qed.

Lemma rewritten_comp (d1 d2 : ascii -> Prop) (R1 R2 : ascii -> ascii -> Prop) t u s :
  rewritten d1 R1 t u -> rewritten d2 R2 u s ->
  rewritten (fun c => d2 c \/ exists y, R2 c y /\ d1 y)
            (fun c x => exists y, R2 c y /\ R1 y x) t s.
Proof.
  intros H1 H2. revert t H1.
  induction H2 as [|u c s Hc H IH|y u c s Hc H IH]; intros t H1.
  - inversion H1; subst. apply rewritten_nil.
  - apply rewritten_drop; [left; exact Hc|]. apply IH. exact H1.
  - inversion H1; subst.
    + apply rewritten_drop; [right; exists y; auto|]. apply IH. assumption.
    + apply rewritten_take; [exists y; auto|]. apply IH. assumption.
Qed.

Lemma rewritten_trans (d : ascii -> Prop) (R : ascii -> ascii -> Prop) t u s :
  (forall c y x, R c y -> R y x -> R c x) -> (forall c y, R c y -> d y -> d c) ->
  rewritten d R t u -> rewritten d R u s -> rewritten d R t s.
Proof.
  intros HR Hd H1 H2. eapply rewritten_weaken; [| |eapply rewritten_comp; eauto].
  - intros c [H|(y & Hy & Hx)]; [exact H|eapply Hd; eauto].
  - intros c x (y & Hy & Hx). eapply HR; eauto.
Qed.

(** What is rewritten is an [R]-subsequence; nothing but [d] is lost. *)
Lemma rewritten_rsub (d : ascii -> Prop) (R : ascii -> ascii -> Prop) t s :
  rewritten d R t s -> rsub R t s.
Proof.
  induction 1; [apply rsub_nil|apply rsub_skip; assumption|apply rsub_take; assumption].
Qed.

Lemma rewritten_length (d : ascii -> Prop) (R : ascii -> ascii -> Prop) t s :
  rewritten d R t s -> length t <= length s.
Proof. induction 1; simpl; lia. Qed.

(** A substitution that rewrites each match in place rewrites the text in
    place. *)
Lemma sub_rewritten (d : ascii -> Prop) (R : ascii -> ascii -> Prop) r f :
  never_empty r -> (forall c, R c c) ->
  (forall pre m t cs, match_at r pre (m ++ t) = Some (length m, cs) ->
                      rewritten d R (f m cs) m) ->
  forall s, rewritten d R (sub r f s) s.
Proof.
  intros Hne Hr Hm s. unfold sub.
  apply (sub_from_ind r f (fun rest out => rewritten d R out rest)); auto.
  - apply rewritten_nil.
  - intros c t out H. apply rewritten_take; auto.
  - intros pre m t cs out _ E H. apply rewritten_app; [eapply Hm; exact E|exact H].
Qed.

Lemma spaces_or_hyphens_dropped (R : ascii -> ascii -> Prop) w :
  forallb is_space w = true -> rewritten space_or_hyphen R [] w.
Proof.
  intros H. apply rewritten_dropped. rewrite forallb_forall in H.
  intros c Hc. left. apply H. exact Hc.
Qed.

Lemma join_hyphen_breaks_rewritten s :
  rewritten space_or_hyphen eq (join_hyphen_breaks s) s.
Proof.
  apply sub_rewritten; [apply never_empty_hyphen_break|reflexivity|].
  intros pre m t cs E. apply hyphen_break_shape in E.
  destruct E as (g1 & w & g2 & rest' & E & L & C1 & C2 & W).
  replace (g1 ++ "-"%char :: w ++ g2 ++ rest')
    with ((g1 ++ "-"%char :: w ++ g2) ++ rest') in E by (app_norm; reflexivity).
  destruct (app_eq_length _ _ _ _ E L) as [-> _].
  unfold repl_12. rewrite C1, C2.
  apply rewritten_app; [apply rewritten_refl; reflexivity|].
  apply rewritten_drop; [right; reflexivity|].
  apply (rewritten_app space_or_hyphen eq [] w g2 g2);
    [apply spaces_or_hyphens_dropped; exact W|apply rewritten_refl; reflexivity].
Qed.

Lemma tighten_hyphens_rewritten s :
  rewritten space_or_hyphen eq (tighten_hyphens s) s.
Proof.
  apply sub_rewritten; [apply never_empty_spaced_hyphen|reflexivity|].
  intros pre m t cs E. apply spaced_hyphen_shape in E.
  destruct E as (g1 & w1 & w2 & g2 & rest' & E & L & C1 & C2 & W1 & W2).
  replace (g1 ++ w1 ++ "-"%char :: w2 ++ g2 ++ rest')
    with ((g1 ++ w1 ++ "-"%char :: w2 ++ g2) ++ rest') in E by (app_norm; reflexivity).
  destruct (app_eq_length _ _ _ _ E L) as [-> _].
  unfold repl_1_hyphen_2. rewrite C1, C2. change (s2l "-" ++ g2) with ("-"%char :: g2).
  apply rewritten_app; [apply rewritten_refl; reflexivity|].
  apply (rewritten_app space_or_hyphen eq [] w1 ("-"%char :: g2) ("-"%char :: w2 ++ g2));
    [apply spaces_or_hyphens_dropped; exact W1|].
  apply rewritten_take; [reflexivity|].
  apply (rewritten_app space_or_hyphen eq [] w2 g2 g2);
    [apply spaces_or_hyphens_dropped; exact W2|apply rewritten_refl; reflexivity].
Qed.

Lemma squeeze_rewritten p fl s :
  (forall c, p c = true -> is_space c = true) ->
  rewritten (fun c => is_space c = true) spaced_from (squeeze p (s2l " ") fl s) s.
Proof.
  intros Hp. revert fl. induction s as [|c t IH]; intros fl; [apply rewritten_nil|].
  rewrite squeeze_cons. destruct (p c) eqn:E.
  - destruct fl; [apply rewritten_drop; [auto|apply IH]|].
    change (s2l " " ++ ?x) with (" "%char :: x).
    apply rewritten_take; [right; auto|apply IH].
  - apply rewritten_take; [left; reflexivity|apply IH].
Qed.

Lemma replace_class_rewritten (p : cclass) (x : ascii) s :
  rewritten (fun _ => False) (fun c y => if p c then y = x else y = c)
            (replace_class p [x] s) s.
Proof.
  induction s as [|c t IH]; [apply rewritten_nil|].
  unfold replace_class in *. cbn [flat_map]. destruct (p c) eqn:E.
  - cbn [app]. apply rewritten_take; [rewrite E; reflexivity|exact IH].
  - cbn [app]. apply rewritten_take; [rewrite E; reflexivity|exact IH].
Qed.

Lemma replace_class_map (p : cclass) (x : ascii) s :
  replace_class p [x] s = map (fun c => if p c then x else c) s.
Proof.
  unfold replace_class. induction s as [|c t IH]; [reflexivity|].
  cbn [flat_map map]. rewrite IH. destruct (p c); reflexivity.
Qed.

Lemma drop_after_open_rewritten fl s :
  rewritten (fun c => is_space c = true) eq (drop_after_open fl s) s.
Proof.
  revert fl. induction s as [|c t IH]; intros fl; [apply rewritten_nil|].
  cbn [drop_after_open]. destruct (fl && is_space c)%bool eqn:E.
  - apply andb_true_iff in E. apply rewritten_drop; [exact (proj2 E)|apply IH].
  - apply rewritten_take; [reflexivity|apply IH].
Qed.

Lemma drop_before_close_rewritten s :
  rewritten (fun c => is_space c = true) eq (drop_before_close s) s.
Proof.
  induction s as [|c t IH]; [apply rewritten_nil|].
  cbn [drop_before_close]. destruct (is_space c && closes t)%bool eqn:E.
  - apply andb_true_iff in E. apply rewritten_drop; [exact (proj1 E)|exact IH].
  - apply rewritten_take; [reflexivity|exact IH].
Qed.

Lemma spaced_from_trans c y x : spaced_from c y -> spaced_from y x -> spaced_from c x.
Proof.
  unfold spaced_from. intros [->|[H1 ->]] [->|[H2 ->]]; auto.
Qed.

(** The first four steps: whitespace and hyphens dropped, whitespace
    turned into spaces, nothing else touched. *)
Lemma spacing_steps_rewritten s :
  rewritten space_or_hyphen spaced_from
            (collapse_spaces (newlines_to_space (tighten_hyphens (join_hyphen_breaks s)))) s.
Proof.
  assert (T : forall t u v, rewritten space_or_hyphen spaced_from t u ->
                            rewritten space_or_hyphen spaced_from u v ->
                            rewritten space_or_hyphen spaced_from t v).
  { intros t u v. apply rewritten_trans.
    - exact spaced_from_trans.
    - intros c y [->|[H ->]] Hy; [exact Hy|left; exact H]. }
  assert (E : forall t u, rewritten space_or_hyphen eq t u ->
                          rewritten space_or_hyphen spaced_from t u).
  { intros t u. apply rewritten_weaken; [auto|]. intros c x ->. left. reflexivity. }
  assert (Q : forall p u, (forall c, p c = true -> is_space c = true) ->
                          rewritten space_or_hyphen spaced_from
                                    (squeeze p (s2l " ") false u) u).
  { intros p u Hp. eapply rewritten_weaken; [| |apply squeeze_rewritten; exact Hp].
    - intros c H. left. exact H.
    - auto. }
  rewrite collapse_spaces_spec, newlines_to_space_spec.
  eapply T; [apply Q; auto|].
  eapply T; [apply Q; exact nl_cr_space|].
  eapply T; [apply E, tighten_hyphens_rewritten|apply E, join_hyphen_breaks_rewritten].
Qed.

Lemma separator_facts c :
  one_of ";:" c = true -> is_space c = false /\ c <> "-"%char.
Proof. apply solid_separators. Qed.

(** The normalizer as a whole: only whitespace and hyphens are dropped,
    every semicolon and colon stands as a comma at its place, and every
    other character is kept. *)
Lemma normalize_rewritten s :
  rewritten space_or_hyphen separator_replaced (normalize s) s.
Proof.
  unfold normalize.
  rewrite close_paren_spaces_spec, open_paren_spaces_spec, separators_to_commas_spec.
  set (u := collapse_spaces _).
  pose proof (spacing_steps_rewritten s) as A. fold u in A.
  pose proof (replace_class_rewritten (one_of ";:") ","%char u) as B.
  change [","%char] with (s2l ",") in B.
  set (v := replace_class (one_of ";:") (s2l ",") u) in *.
  assert (AB : rewritten space_or_hyphen separator_replaced v s).
  { eapply rewritten_weaken; [| |exact (rewritten_comp _ _ _ _ _ _ _ B A)].
    - intros c [H|(y & _ & [])]. exact H.
    - intros c x (y & Hy & Hx). unfold separator_replaced.
      destruct (one_of ";:" c) eqn:Ec.
      + destruct (separator_facts c Ec) as [Sc _].
        destruct Hy as [->|[Hs _]]; [|congruence]. rewrite Ec in Hx. exact Hx.
      + destruct Hy as [->|[Hs ->]].
        * rewrite Ec in Hx. left. exact Hx.
        * change (one_of ";:" " "%char) with false in Hx. cbv iota in Hx.
          right. split; [exact Hs|exact Hx]. }
  assert (P : forall t w, rewritten (fun c => is_space c = true) eq t w ->
                          rewritten space_or_hyphen separator_replaced w s ->
                          rewritten space_or_hyphen separator_replaced t s).
  { intros t w Ht Hw.
    eapply rewritten_weaken; [| |exact (rewritten_comp _ _ _ _ _ _ _ Ht Hw)].
    - intros c [H|(y & Hy & Hs)]; [exact H|]. left.
      unfold separator_replaced in Hy. destruct (one_of ";:" c).
      + subst y. discriminate Hs.
      + destruct Hy as [->|[Hc _]]; assumption.
    - intros c x (y & Hy & ->). exact Hy. }
  eapply P; [apply drop_before_close_rewritten|].
  eapply P; [apply drop_after_open_rewritten|exact AB].
Qed.

(** C8 (amended).  The normalizer of [test3.py] replaces every single [;]
    and [:] by a comma of its own, at its place: the normalized text is the
    input in which whitespace and hyphens only have been dropped, every
    semicolon and colon stands as a comma, and every other character (the
    vertical bar too) is kept, whitespace as itself or as a space.  So the
    commas of the result are as many as the commas, semicolons and colons
    of the input, and no semicolon or colon is left.  The step of
    [img2text6.py] replaces, character by character, [|] as well, and
    leaves none of the three. *)
Theorem C8_one_comma_per_separator (s : str) :
  rewritten space_or_hyphen separator_replaced (normalize s) s
  /\ separators_to_commas_v1 s
     = map (fun c => if one_of ";:|" c then ","%char else c) s
  /\ count (is_char ",") (normalize s) = count comma_like s
  /\ count (one_of ";:") (normalize s) = 0
  /\ count (is_char "|") (normalize s) = count (is_char "|") s
  /\ count (is_char ",") (separators_to_commas_v1 s) = count (one_of ",;:|") s
  /\ count (one_of ";:|") (separators_to_commas_v1 s) = 0.
Proof.
  assert (V : separators_to_commas_v1 s
              = map (fun c => if one_of ";:|" c then ","%char else c) s).
  { rewrite separators_to_commas_v1_spec. apply (replace_class_map _ ","%char). }
  split; [apply normalize_rewritten|]. split; [exact V|].
  split; [|split; [apply normalize_no_separators|split; [|split]]]; unfold normalize.
  - rewrite after_separators_count by apply solid_comma.
    rewrite separators_to_commas_spec, replace_class_count.
    rewrite <- (before_separators_count comma_like s) by apply solid_comma_like.
    set (u := collapse_spaces _).
    rewrite (count_split comma_like (one_of ";:") u).
    change (count (is_char ",") (s2l ",")) with 1. rewrite Nat.mul_1_r.
    f_equal; apply count_ext; intros c;
      destruct c as [[] [] [] [] [] [] [] []]; reflexivity.
  - rewrite after_separators_count by apply solid_bar.
    rewrite separators_to_commas_spec, replace_class_count.
    change (count (is_char "|") (s2l ",")) with 0. rewrite Nat.mul_0_r, Nat.add_0_r.
    rewrite <- (before_separators_count (is_char "|") s) by apply solid_bar.
    apply count_ext. intros c.
    destruct c as [[] [] [] [] [] [] [] []]; reflexivity.
  - rewrite separators_to_commas_v1_spec, replace_class_count.
    change (count (is_char ",") (s2l ",")) with 1. rewrite Nat.mul_1_r.
    rewrite (count_split (one_of ",;:|") (one_of ";:|") s). f_equal.
    + apply count_ext. intros c.
      destruct c as [[] [] [] [] [] [] [] []]; reflexivity.
    + apply count_ext. intros c.
      destruct c as [[] [] [] [] [] [] [] []]; reflexivity.
  - rewrite V. clear V. induction s as [|c t IH]; [reflexivity|].
    cbn [map]. rewrite count_cons, IH.
    destruct c as [[] [] [] [] [] [] [] []]; reflexivity.
Qed.

(** C8 (as stated) fails: a run of two separators becomes two commas, not
    one, and [test3.py] leaves the vertical bar alone. *)
Lemma C8_run_gives_as_many_commas :
  normalize (s2l "Aqua;;Parfum") = s2l "Aqua,,Parfum"
  /\ normalize (s2l "Aqua|Parfum") = s2l "Aqua|Parfum".
Proof. split; vm_compute; reflexivity. Qed.

(** ** Normalizing twice *)

Lemma single_spaced_weaken s : single_spaced true s = true -> single_spaced false s = true.
Proof.
  destruct s as [|c t]; [reflexivity|]. simpl. destruct (is_space c); [|auto].
  rewrite andb_false_r. discriminate.
Qed.

Lemma squeeze_single_spaced b s :
  single_spaced b (squeeze is_space (s2l " ") b s) = true.
Proof.
  revert b. induction s as [|c t IH]; intros b; [reflexivity|].
  rewrite squeeze_cons. destruct (is_space c) eqn:E.
  - destruct b; [apply IH|].
    change (single_spaced true (squeeze is_space (s2l " ") true t) = true). apply IH.
  - cbn [single_spaced]. rewrite E. apply IH.
Qed.

Lemma single_spaced_squeeze b s :
  single_spaced b s = true -> squeeze is_space (s2l " ") b s = s.
Proof.
  revert b. induction s as [|c t IH]; intros b H; [reflexivity|].
  rewrite squeeze_cons. cbn [single_spaced] in H. destruct (is_space c).
  - apply andb_true_iff in H. destruct H as [H Ht].
    apply andb_true_iff in H. destruct H as [Hc Hb].
    apply Ascii.eqb_eq in Hc. subst c. destruct b; [discriminate Hb|].
    rewrite (IH true Ht). reflexivity.
  - rewrite (IH false H). reflexivity.
Qed.

Lemma squeeze_none p x b s : forallb (cnot p) s = true -> squeeze p x b s = s.
Proof.
  revert b. induction s as [|c t IH]; intros b H; [reflexivity|].
  rewrite squeeze_cons. simpl in H. apply andb_true_iff in H. destruct H as [Hc Ht].
  unfold cnot in Hc. apply negb_true_iff in Hc. rewrite Hc, IH by exact Ht. reflexivity.
Qed.

Lemma single_spaced_no_newline b s :
  single_spaced b s = true -> forallb (cnot nl_cr) s = true.
Proof.
  revert b. induction s as [|c t IH]; intros b H; [reflexivity|].
  cbn [single_spaced] in H. cbn [forallb]. destruct (is_space c) eqn:E.
  - apply andb_true_iff in H. destruct H as [H Ht].
    apply andb_true_iff in H. destruct H as [Hc _].
    apply Ascii.eqb_eq in Hc. subst c. rewrite (IH true Ht). reflexivity.
  - rewrite (IH false H), andb_true_r. unfold cnot.
    destruct (nl_cr c) eqn:En; [|reflexivity].
    apply nl_cr_space in En. congruence.
Qed.

Lemma replace_class_single_spaced b s :
  single_spaced b s = true ->
  single_spaced b (replace_class (one_of ";:") (s2l ",") s) = true.
Proof.
  revert b. induction s as [|c t IH]; intros b H; [reflexivity|].
  unfold replace_class in *. cbn [flat_map]. cbn [single_spaced] in H.
  destruct (one_of ";:" c) eqn:Ep.
  - assert (Es : is_space c = false).
    { destruct (solid_separators c Ep) as [Es _]. exact Es. }
    rewrite Es in H.
    change (single_spaced false
              (flat_map (fun c => if one_of ";:" c then s2l "," else [c]) t) = true).
    apply IH. exact H.
  - change ([c] ++ ?x) with (c :: x). cbn [single_spaced]. destruct (is_space c).
    + apply andb_true_iff in H. destruct H as [H Ht]. rewrite H. apply IH. exact Ht.
    + apply IH. exact H.
Qed.

Lemma drop_after_open_single_spaced fl b s :
  single_spaced b s = true -> single_spaced b (drop_after_open fl s) = true.
Proof.
  revert fl b. induction s as [|c t IH]; intros fl b H; [reflexivity|].
  cbn [drop_after_open]. cbn [single_spaced] in H.
  destruct (fl && is_space c)%bool eqn:E.
  - apply andb_true_iff in E. destruct E as [_ E]. rewrite E in H.
    apply andb_true_iff in H. destruct H as [H Ht].
    apply andb_true_iff in H. destruct H as [_ Hb]. destruct b; [discriminate Hb|].
    apply single_spaced_weaken. apply IH. exact Ht.
  - cbn [single_spaced]. destruct (is_space c).
    + apply andb_true_iff in H. destruct H as [H Ht]. rewrite H. apply IH. exact Ht.
    + apply IH. exact H.
Qed.

Lemma drop_before_close_single_spaced b s :
  single_spaced b s = true -> single_spaced b (drop_before_close s) = true.
Proof.
  revert b. induction s as [|c t IH]; intros b H; [reflexivity|].
  cbn [drop_before_close]. cbn [single_spaced] in H.
  destruct (is_space c && closes t)%bool eqn:E.
  - apply andb_true_iff in E. destruct E as [E _]. rewrite E in H.
    apply andb_true_iff in H. destruct H as [H Ht].
    apply andb_true_iff in H. destruct H as [_ Hb]. destruct b; [discriminate Hb|].
    apply single_spaced_weaken. apply IH. exact Ht.
  - cbn [single_spaced]. destruct (is_space c).
    + apply andb_true_iff in H. destruct H as [H Ht]. rewrite H. apply IH. exact Ht.
    + apply IH. exact H.
Qed.

Lemma drop_after_open_tight fl s : open_tight fl (drop_after_open fl s) = true.
Proof.
  revert fl. induction s as [|c t IH]; intros fl; [reflexivity|].
  cbn [drop_after_open]. destruct (fl && is_space c)%bool eqn:E.
  - apply andb_true_iff in E. destruct E as [-> _]. apply IH.
  - cbn [open_tight]. rewrite E. apply IH.
Qed.

Lemma open_tight_fixed fl s : open_tight fl s = true -> drop_after_open fl s = s.
Proof.
  revert fl. induction s as [|c t IH]; intros fl H; [reflexivity|].
  cbn [open_tight] in H. apply andb_true_iff in H. destruct H as [H Ht].
  apply negb_true_iff in H. cbn [drop_after_open]. rewrite H, (IH _ Ht). reflexivity.
Qed.

Lemma drop_before_close_open_tight fl s :
  open_tight fl s = true -> open_tight fl (drop_before_close s) = true.
Proof.
  revert fl. induction s as [|c t IH]; intros fl H; [reflexivity|].
  cbn [open_tight] in H. apply andb_true_iff in H. destruct H as [H Ht].
  cbn [drop_before_close]. destruct (is_space c && closes t)%bool eqn:E.
  - apply andb_true_iff in E. destruct E as [E _].
    assert (Ec : Ascii.eqb c "(" = false).
    { destruct (Ascii.eqb c "(") eqn:Ec; [|reflexivity].
      apply Ascii.eqb_eq in Ec. subst c. discriminate E. }
    rewrite Ec in Ht. rewrite E, andb_true_r in H. apply negb_true_iff in H. subst fl.
    apply IH. exact Ht.
  - cbn [open_tight]. rewrite H. apply IH. exact Ht.
Qed.

Lemma closes_drop_before_close s : closes (drop_before_close s) = closes s.
Proof.
  induction s as [|c t IH]; [reflexivity|]. cbn [drop_before_close].
  destruct (is_space c) eqn:E; cbn [andb].
  - assert (K : closes (c :: t) = closes t) by (unfold closes; simpl; rewrite E; reflexivity).
    rewrite K. destruct (closes t) eqn:Ec; [rewrite IH; reflexivity|].
    unfold closes. simpl. rewrite E. fold (closes (drop_before_close t)).
    rewrite IH. reflexivity.
  - unfold closes. simpl. rewrite E. reflexivity.
Qed.

Lemma drop_before_close_tight s : close_tight (drop_before_close s) = true.
Proof.
  induction s as [|c t IH]; [reflexivity|]. cbn [drop_before_close].
  destruct (is_space c && closes t)%bool eqn:E; [exact IH|].
  cbn [close_tight]. rewrite closes_drop_before_close, E, IH. reflexivity.
Qed.

Lemma close_tight_fixed s : close_tight s = true -> drop_before_close s = s.
Proof.
  induction s as [|c t IH]; intros H; [reflexivity|].
  cbn [close_tight] in H. apply andb_true_iff in H. destruct H as [H Ht].
  apply negb_true_iff in H. cbn [drop_before_close]. rewrite H, (IH Ht). reflexivity.
Qed.

Lemma replace_class_none p x s : count p s = 0 -> replace_class p x s = s.
Proof.
  induction s as [|c t IH]; [reflexivity|]. rewrite count_cons.
  unfold replace_class in *. cbn [flat_map]. destruct (p c); [discriminate|].
  intros H. rewrite IH by exact H. reflexivity.
Qed.

Lemma count_zero_not_in a s : count (is_char a) s = 0 -> ~ In a s.
Proof.
  induction s as [|c t IH]; [intros _ []|]. rewrite count_cons. unfold is_char at 1.
  destruct (Ascii.eqb c a) eqn:E; [discriminate|]. intros H [C|C].
  - subst c. rewrite Ascii.eqb_refl in E. discriminate E.
  - exact (IH H C).
Qed.

(** What the last five steps of the normalizer leave behind. *)
Lemma normalize_shape s :
  single_spaced false (normalize s) = true
  /\ open_tight false (normalize s) = true
  /\ close_tight (normalize s) = true.
Proof.
  unfold normalize.
  rewrite close_paren_spaces_spec, open_paren_spaces_spec, separators_to_commas_spec,
    collapse_spaces_spec.
  split; [|split].
  - apply drop_before_close_single_spaced, drop_after_open_single_spaced,
      replace_class_single_spaced, squeeze_single_spaced.
  - apply drop_before_close_open_tight, drop_after_open_tight.
  - apply drop_before_close_tight.
Qed.

(** ** When a second pass changes the text *)

(** Where [re.search] finds nothing, [re.sub] returns the text. *)
Lemma search_none_sub r f : forall rest pre,
  search_from r pre rest = None -> sub_from r f 0 pre rest = rest.
Proof.
  induction rest as [|c t IH]; intros pre H; cbn [search_from] in H; cbn [sub_from].
  - destruct (match_at r pre []) as [[n cs]|]; [discriminate H|reflexivity].
  - destruct (match_at r pre (c :: t)) as [[n cs]|]; [discriminate H|].
    rewrite (IH _ H). reflexivity.
Qed.

(** A match of the line-break pattern holds a newline or a carriage
    return. *)
Lemma hyphen_break_needs_newline pre rest :
  forallb (cnot nl_cr) rest = true -> match_at re_hyphen_break pre rest = None.
Proof.
  intros N. destruct (match_at re_hyphen_break pre rest) as [[n cs]|] eqn:E; [|reflexivity].
  exfalso. apply match_at_matches in E.
  destruct E as (st' & H & En & Ec).
  unfold re_hyphen_break, Plus in H. cbn [seqs] in H.
  invert_matches. cbn [ms_rest ms_pre ms_caps] in *.
  rewrite forallb_forall in N.
  match goal with
  | K : nl_cr ?x = true |- _ =>
      assert (I : cnot nl_cr x = true);
      [apply N|unfold cnot in I; rewrite K in I; discriminate I]
  end.
  repeat first [left; reflexivity|right|apply in_or_app; right].
Qed.

Lemma no_newline_join s : forallb (cnot nl_cr) s = true -> join_hyphen_breaks s = s.
Proof.
  intros N. apply sub_from_no_match. intros pre' m t E.
  apply hyphen_break_needs_newline. subst s. rewrite forallb_app in N.
  apply andb_true_iff in N. apply N.
Qed.

(** The replacement of a spaced hyphen is shorter than the match by the
    whitespace, two characters at least. *)
Lemma spaced_hyphen_shrinks pre rest n cs :
  match_at re_spaced_hyphen pre rest = Some (n, cs) ->
  length (repl_1_hyphen_2 (firstn n rest) cs) + 2 <= n.
Proof.
  intros H. apply match_at_matches in H.
  destruct H as (st' & H & En & Ec).
  unfold re_spaced_hyphen, Plus in H. cbn [seqs] in H.
  invert_matches. cbn [ms_rest ms_pre ms_caps] in *.
  unfold repl_1_hyphen_2. rewrite !consumed_cons_app.
  change (set_cap 2 (c0 :: m0) (set_cap 1 (c :: m) no_caps) 1) with (c :: m).
  change (set_cap 2 (c0 :: m0) (set_cap 1 (c :: m) no_caps) 2) with (c0 :: m0).
  change (s2l "-") with ["-"%char].
  repeat (rewrite ?length_app; cbn [length app]). lia.
Qed.

Lemma tighten_from_length pre rest :
  length (sub_from re_spaced_hyphen repl_1_hyphen_2 0 pre rest) <= length rest.
Proof.
  apply (sub_from_ind re_spaced_hyphen repl_1_hyphen_2
           (fun rest out => length out <= length rest)).
  - apply never_empty_spaced_hyphen.
  - reflexivity.
  - intros c t out H. simpl. lia.
  - intros pre0 m t cs out _ E H.
    pose proof (spaced_hyphen_shrinks _ _ _ _ E) as L.
    rewrite firstn_app, Nat.sub_diag, firstn_all, firstn_O, app_nil_r in L.
    rewrite !length_app. lia.
Qed.

(** Where [re.search] finds a spaced hyphen, [re.sub] returns a shorter
    text. *)
Lemma search_some_tighten_shorter : forall rest pre x,
  search_from re_spaced_hyphen pre rest = Some x ->
  length (sub_from re_spaced_hyphen repl_1_hyphen_2 0 pre rest) < length rest.
Proof.
  induction rest as [|c t IH]; intros pre x H;
    rewrite sub_from_step by apply never_empty_spaced_hyphen; cbn [search_from] in H.
  - destruct (match_at re_spaced_hyphen pre []) as [[n cs]|] eqn:E; [|discriminate H].
    exfalso. pose proof (spaced_hyphen_shrinks _ _ _ _ E) as L.
    pose proof (match_at_length _ _ _ _ _ E) as L'. simpl in L'. lia.
  - destruct (match_at re_spaced_hyphen pre (c :: t)) as [[n cs]|] eqn:E.
    + pose proof (spaced_hyphen_shrinks _ _ _ _ E) as L.
      pose proof (match_at_length _ _ _ _ _ E) as L'.
      pose proof (tighten_from_length (rev (firstn n (c :: t)) ++ pre) (skipn n (c :: t))) as T.
      rewrite length_skipn in T. rewrite length_app. lia.
    + specialize (IH _ _ H). simpl. lia.
Qed.

(** The five later steps of the normalizer never lengthen a text. *)
Lemma later_steps_length u :
  length (close_paren_spaces
            (open_paren_spaces
               (separators_to_commas (collapse_spaces (newlines_to_space u)))))
  <= length u.
Proof.
  rewrite close_paren_spaces_spec, open_paren_spaces_spec, separators_to_commas_spec,
    collapse_spaces_spec, newlines_to_space_spec.
  pose proof (rewritten_length _ _ _ _ (squeeze_rewritten nl_cr false u nl_cr_space)) as L1.
  set (u1 := squeeze nl_cr (s2l " ") false u) in *.
  pose proof (rewritten_length _ _ _ _ (squeeze_rewritten is_space false u1 (fun c H => H))) as L2.
  set (u2 := squeeze is_space (s2l " ") false u1) in *.
  pose proof (rewritten_length _ _ _ _ (replace_class_rewritten (one_of ";:") ","%char u2)) as L3.
  change [","%char] with (s2l ",") in L3.
  set (u3 := replace_class (one_of ";:") (s2l ",") u2) in *.
  pose proof (rewritten_length _ _ _ _ (drop_after_open_rewritten false u3)) as L4.
  set (u4 := drop_after_open false u3) in *.
  pose proof (rewritten_length _ _ _ _ (drop_before_close_rewritten u4)) as L5.
  lia.
Qed.

(** C7: what the code does.  The normalizer applied to its own output gives
    the same text exactly when the output holds no spaced hyphen between two
    words, i.e. no match of [(\w+)\s+\-\s+(\w+)]; hyphens without whitespace
    around them do no harm.  Such a match is left by a chain of spaced
    hyphens, where [re.sub] passes over the second hyphen because the word
    before it belongs to the first match. *)
Theorem C7_idempotent_iff_no_spaced_hyphen (s : str) :
  normalize (normalize s) = normalize s
  <-> found re_spaced_hyphen (normalize s) = false.
Proof.
  destruct (normalize_shape s) as (S1 & S2 & S3).
  pose proof (normalize_no_separators s) as S4.
  generalize dependent (normalize s). intros y S1 S2 S3 S4.
  assert (J : join_hyphen_breaks y = y).
  { apply no_newline_join. eapply single_spaced_no_newline. exact S1. }
  unfold found, search. split.
  - intros H. destruct (search_from re_spaced_hyphen [] y) as [x|] eqn:E; [|reflexivity].
    exfalso. apply search_some_tighten_shorter with (x := x) in E.
    pose proof (later_steps_length (tighten_hyphens (join_hyphen_breaks y))) as L.
    fold (normalize y) in L. rewrite H, J in L. unfold tighten_hyphens, sub in L. lia.
  - intros H. destruct (search_from re_spaced_hyphen [] y) as [x|] eqn:E; [discriminate H|].
    assert (T : tighten_hyphens y = y).
    { unfold tighten_hyphens, sub. apply search_none_sub. exact E. }
    unfold normalize. rewrite J, T.
    rewrite newlines_to_space_spec, collapse_spaces_spec, separators_to_commas_spec,
      open_paren_spaces_spec, close_paren_spaces_spec.
    rewrite (squeeze_none nl_cr (s2l " ") false y)
      by (eapply single_spaced_no_newline; exact S1).
    rewrite (single_spaced_squeeze false y S1), (replace_class_none _ _ y S4).
    rewrite (open_tight_fixed false y S2). apply close_tight_fixed. exact S3.
Qed.

(** C7 (as stated) fails: the second hyphen of "PEG - 40 - Stearate" is
    tightened only by a second pass, the first pass having used up "40" as
    the right-hand word of the first match. *)
Lemma C7_second_pass_changes_the_text :
  normalize (s2l "PEG - 40 - Stearate") = s2l "PEG-40 - Stearate"
  /\ normalize (normalize (s2l "PEG - 40 - Stearate")) = s2l "PEG-40-Stearate"
  /\ normalize (normalize (s2l "PEG - 40 - Stearate"))
     <> normalize (s2l "PEG - 40 - Stearate").
Proof.
  assert (E1 : normalize (s2l "PEG - 40 - Stearate") = s2l "PEG-40 - Stearate")
    by (vm_compute; reflexivity).
  assert (E2 : normalize (normalize (s2l "PEG - 40 - Stearate")) = s2l "PEG-40-Stearate")
    by (vm_compute; reflexivity).
  split; [exact E1|]. split; [exact E2|]. rewrite E2, E1. discriminate.
Qed.

(** ** Subsequences up to a relation *)

Lemma rsub_refl {A} (R : A -> A -> Prop) s : (forall c, R c c) -> rsub R s s.
Proof. intros H. induction s; [apply rsub_nil|apply rsub_take; auto]. Qed.

Lemma rsub_weaken {A} (R R' : A -> A -> Prop) t s :
  (forall c x, R c x -> R' c x) -> rsub R t s -> rsub R' t s.
Proof.
  intros H. induction 1; [apply rsub_nil|apply rsub_skip; auto|apply rsub_take; auto].
Qed.

Lemma rsub_comp {A} (R1 R2 : A -> A -> Prop) t u s :
  rsub R1 t u -> rsub R2 u s -> rsub (fun c x => exists y, R2 c y /\ R1 y x) t s.
Proof.
  intros H1 H2. revert t H1.
  induction H2 as [s|u c s H IH|y u c s Hc H IH]; intros t H1.
  - inversion H1; subst. constructor.
  - apply rsub_skip. apply IH. exact H1.
  - inversion H1; subst.
    + constructor.
    + apply rsub_skip. apply IH. assumption.
    + apply rsub_take; [exists y; auto|]. apply IH. assumption.
Qed.

Lemma rsub_trans {A} (R : A -> A -> Prop) t u s :
  (forall c y x, R c y -> R y x -> R c x) ->
  rsub R t u -> rsub R u s -> rsub R t s.
Proof.
  intros HR H1 H2. eapply rsub_weaken; [|eapply rsub_comp; eauto].
  intros c x (y & Hy & Hx). eapply HR; eauto.
Qed.

Lemma rsub_eq_l {A} (R : A -> A -> Prop) t u s :
  subseq t u -> rsub R u s -> rsub R t s.
Proof.
  intros H1 H2. eapply rsub_weaken; [|eapply rsub_comp; eauto].
  intros c x (y & Hy & Hx). subst. exact Hy.
Qed.

Lemma rsub_eq_r {A} (R : A -> A -> Prop) t u s :
  rsub R t u -> subseq u s -> rsub R t s.
Proof.
  intros H1 H2. eapply rsub_weaken; [|eapply rsub_comp; eauto].
  intros c x (y & Hy & Hx). simpl in Hy. subst. exact Hx.
Qed.

Lemma rsub_app {A} (R : A -> A -> Prop) t1 s1 t2 s2 :
  rsub R t1 s1 -> rsub R t2 s2 -> rsub R (t1 ++ t2) (s1 ++ s2).
Proof.
  intros H1 H2. induction H1 as [s|t c s H IH|x t c s Hc H IH]; simpl.
  - induction s; simpl; [exact H2|apply rsub_skip; assumption].
  - apply rsub_skip. exact IH.
  - apply rsub_take; assumption.
Qed.

Lemma rsub_skip_front {A} (R : A -> A -> Prop) t u s : rsub R t s -> rsub R t (u ++ s).
Proof. intros H. induction u; simpl; [exact H|apply rsub_skip; assumption]. Qed.

Lemma rsub_skip_back {A} (R : A -> A -> Prop) t u s : rsub R t s -> rsub R t (s ++ u).
Proof.
  intros H. rewrite <- (app_nil_r t). apply rsub_app; [exact H|constructor].
Qed.

Lemma rsub_map {A} (g : A -> A) s : rsub (fun c x => x = g c) (map g s) s.
Proof. induction s; simpl; [apply rsub_nil|apply rsub_take; auto]. Qed.

Lemma rsub_restrict {A} (R : A -> A -> Prop) (Q : A -> Prop) t s :
  rsub R t s -> Forall Q t -> rsub (fun c x => R c x /\ Q x) t s.
Proof.
  induction 1 as [s|t c s H IH|x t c s Hc H IH]; intros F.
  - constructor.
  - apply rsub_skip. apply IH. exact F.
  - inversion F; subst. apply rsub_take; auto.
Qed.

Lemma subseq_refl {A} (s : list A) : subseq s s.
Proof. apply rsub_refl. reflexivity. Qed.

Lemma subseq_in {A} (t s : list A) x : subseq t s -> In x t -> In x s.
Proof.
  induction 1 as [s|t c s H IH|y t c s Hc H IH]; simpl; intros Hx.
  - contradiction.
  - right. apply IH. exact Hx.
  - destruct Hx as [Hx|Hx]; [left; congruence|right; apply IH; exact Hx].
Qed.

Lemma subseq_count q (t s : str) : subseq t s -> count q t <= count q s.
Proof.
  induction 1 as [s|t c s H IH|y t c s Hc H IH].
  - unfold count at 1. simpl. lia.
  - rewrite count_cons. lia.
  - subst y. rewrite !count_cons. lia.
Qed.

Lemma subseq_firstn {A} n (s : list A) : subseq (firstn n s) s.
Proof.
  rewrite <- (firstn_skipn n s) at 2. apply rsub_skip_back. apply subseq_refl.
Qed.

Lemma subseq_skipn {A} n (s : list A) : subseq (skipn n s) s.
Proof.
  rewrite <- (firstn_skipn n s) at 2. apply rsub_skip_front. apply subseq_refl.
Qed.

Lemma subseq_slice i j (s : str) : subseq (slice i j s) s.
Proof.
  unfold slice. eapply rsub_trans_eq; [apply subseq_firstn|apply subseq_skipn].
Qed.

Lemma subseq_lstrip s : subseq (lstrip s) s.
Proof.
  induction s as [|c t IH]; simpl; [constructor|].
  destruct (is_space c); [apply rsub_skip; exact IH|apply subseq_refl].
Qed.

Lemma subseq_rev {A} (t s : list A) : subseq t s -> subseq (rev t) (rev s).
Proof.
  induction 1 as [s|t c s H IH|y t c s Hc H IH]; simpl.
  - constructor.
  - apply rsub_skip_back. exact IH.
  - subst y. apply rsub_app; [exact IH|apply subseq_refl].
Qed.

Lemma subseq_strip s : subseq (strip s) s.
Proof.
  unfold strip, rstrip. eapply rsub_trans_eq; [|apply subseq_lstrip].
  rewrite <- (rev_involutive (lstrip s)) at 2. apply subseq_rev. apply subseq_lstrip.
Qed.

Lemma subseq_after p s : subseq (after p s) s.
Proof.
  induction s as [|c t IH]; simpl; [constructor|].
  destruct (p c); [apply rsub_skip; exact IH|apply subseq_refl].
Qed.

Lemma subseq_rtrim s : subseq (rtrim s) s.
Proof.
  induction s as [|c t IH]; [constructor|]. cbn [rtrim].
  destruct (forallb (cnot last_ok) (c :: t)); [constructor|].
  apply rsub_take; [reflexivity|exact IH].
Qed.

(** A substitution whose replacements are [R]-subsequences of the matches
    gives an [R]-subsequence of the text. *)
Lemma sub_rsub (R : ascii -> ascii -> Prop) r f :
  never_empty r -> (forall c, R c c) ->
  (forall pre m t cs, match_at r pre (m ++ t) = Some (length m, cs) -> rsub R (f m cs) m) ->
  forall s, rsub R (sub r f s) s.
Proof.
  intros Hne Hr Hm s. unfold sub.
  apply (sub_from_ind r f (fun rest out => rsub R out rest)); auto.
  - constructor.
  - intros c t out H. apply rsub_take; auto.
  - intros pre m t cs out _ E H. apply rsub_app; [eapply Hm; exact E|exact H].
Qed.

(** ** Where the characters of a token come from *)

Lemma join_hyphen_breaks_subseq s : subseq (join_hyphen_breaks s) s.
Proof.
  apply sub_rsub; [apply never_empty_hyphen_break|reflexivity|].
  intros pre m t cs E. apply hyphen_break_shape in E.
  destruct E as (g1 & w & g2 & rest' & E & L & C1 & C2 & W).
  replace (g1 ++ "-"%char :: w ++ g2 ++ rest')
    with ((g1 ++ "-"%char :: w ++ g2) ++ rest') in E by (app_norm; reflexivity).
  destruct (app_eq_length _ _ _ _ E L) as [-> _].
  unfold repl_12. rewrite C1, C2. apply rsub_app; [apply subseq_refl|].
  apply (rsub_skip_front eq g2 ("-"%char :: w) g2). apply subseq_refl.
Qed.

Lemma tighten_hyphens_subseq s : subseq (tighten_hyphens s) s.
Proof.
  apply sub_rsub; [apply never_empty_spaced_hyphen|reflexivity|].
  intros pre m t cs E. apply spaced_hyphen_shape in E.
  destruct E as (g1 & w1 & w2 & g2 & rest' & E & L & C1 & C2 & W1 & W2).
  replace (g1 ++ w1 ++ "-"%char :: w2 ++ g2 ++ rest')
    with ((g1 ++ w1 ++ "-"%char :: w2 ++ g2) ++ rest') in E by (app_norm; reflexivity).
  destruct (app_eq_length _ _ _ _ E L) as [-> _].
  unfold repl_1_hyphen_2. rewrite C1, C2. apply rsub_app; [apply subseq_refl|].
  apply rsub_skip_front. change (s2l "-" ++ g2) with ("-"%char :: g2).
  apply rsub_take; [reflexivity|]. apply rsub_skip_front. apply subseq_refl.
Qed.

Lemma squeeze_rsub p fl s :
  (forall c, p c = true -> is_space c = true) ->
  rsub spaced_from (squeeze p (s2l " ") fl s) s.
Proof.
  intros Hp. revert fl. induction s as [|c t IH]; intros fl; [constructor|].
  rewrite squeeze_cons. destruct (p c) eqn:E.
  - destruct fl; [apply rsub_skip; apply IH|].
    change (s2l " " ++ ?x) with (" "%char :: x).
    apply rsub_take; [right; auto|apply IH].
  - apply rsub_take; [left; reflexivity|apply IH].
Qed.

Lemma replace_class_rsub s :
  rsub normalized_from (replace_class (one_of ";:") (s2l ",") s) s.
Proof.
  induction s as [|c t IH]; [constructor|].
  unfold replace_class in *. cbn [flat_map]. destruct (one_of ";:" c) eqn:E.
  - change (s2l "," ++ ?x) with (","%char :: x).
    apply rsub_take; [right; right; auto|exact IH].
  - apply rsub_take; [left; reflexivity|exact IH].
Qed.

Lemma drop_after_open_subseq fl s : subseq (drop_after_open fl s) s.
Proof.
  revert fl. induction s as [|c t IH]; intros fl; [constructor|].
  cbn [drop_after_open]. destruct (fl && is_space c)%bool.
  - apply rsub_skip. apply IH.
  - apply rsub_take; [reflexivity|apply IH].
Qed.

Lemma drop_before_close_subseq s : subseq (drop_before_close s) s.
Proof.
  induction s as [|c t IH]; [constructor|].
  cbn [drop_before_close]. destruct (is_space c && closes t)%bool.
  - apply rsub_skip. exact IH.
  - apply rsub_take; [reflexivity|exact IH].
Qed.

Lemma normalized_from_trans c y x :
  normalized_from c y -> normalized_from y x -> normalized_from c x.
Proof.
  unfold normalized_from.
  intros [H1|[[H1 H1']|[H1 H1']]] [H2|[[H2 H2']|[H2 H2']]]; subst; auto;
    try discriminate.
Qed.

Lemma normalize_rsub s : rsub normalized_from (normalize s) s.
Proof.
  unfold normalize.
  rewrite close_paren_spaces_spec, open_paren_spaces_spec, separators_to_commas_spec,
    collapse_spaces_spec, newlines_to_space_spec.
  eapply rsub_eq_l; [apply drop_before_close_subseq|].
  eapply rsub_eq_l; [apply drop_after_open_subseq|].
  eapply rsub_trans; [exact normalized_from_trans|apply replace_class_rsub|].
  assert (W : forall c x, spaced_from c x -> normalized_from c x).
  { intros c x [H|H]; [left|right; left]; exact H. }
  eapply rsub_trans; [exact normalized_from_trans| |].
  { eapply rsub_weaken; [exact W|]. apply squeeze_rsub. auto. }
  eapply rsub_trans; [exact normalized_from_trans| |].
  { eapply rsub_weaken; [exact W|]. apply squeeze_rsub. apply nl_cr_space. }
  eapply rsub_eq_r; [|apply join_hyphen_breaks_subseq].
  eapply rsub_weaken; [|apply tighten_hyphens_subseq].
  intros c x ->. left. reflexivity.
Qed.

(** The fields of [split(",")]. *)
Lemma split_on_fields sep s field :
  In field (split_on sep s) -> subseq field s /\ ~ In sep field.
Proof.
  revert field. induction s as [|c t IH]; simpl; intros field H.
  - destruct H as [<-|[]]. split; [constructor|intros []].
  - destruct (Ascii.eqb c sep) eqn:E.
    + destruct H as [<-|H]; [split; [constructor|intros []]|].
      destruct (IH _ H) as [H1 H2]. split; [apply rsub_skip; exact H1|exact H2].
    + destruct (split_on sep t) as [|f fs] eqn:Es.
      * destruct H as [<-|[]]. split; [apply rsub_take; [reflexivity|constructor]|].
        intros [C|[]]. subst. rewrite Ascii.eqb_refl in E. discriminate E.
      * destruct H as [<-|H].
        -- destruct (IH f (or_introl eq_refl)) as [H1 H2].
           split; [apply rsub_take; [reflexivity|exact H1]|].
           intros [C|C]; [subst; rewrite Ascii.eqb_refl in E; discriminate E|exact (H2 C)].
        -- destruct (IH field (or_intror H)) as [H1 H2].
           split; [apply rsub_skip; exact H1|exact H2].
Qed.

(** Abbreviation protection. *)
Lemma never_empty_chr_seq p r : never_empty (Seq (Chr p) r).
Proof.
  intros pre rest cs H. apply match_at_matches in H.
  destruct H as (st' & H & En & _). inversion H; subst; clear H.
  match goal with H : matches (Chr _) _ _ |- _ => inversion H; subst; clear H end.
  match goal with H : matches r _ _ |- _ => apply matches_consumed in H;
    destruct H as (m & E & _) end.
  cbn [ms_rest] in *. rewrite E in En. cbn [length] in En. rewrite length_app in En. lia.
Qed.

Lemma protected_from_trans c y x :
  protected_from c y -> protected_from y x -> protected_from c x.
Proof.
  unfold protected_from. intros [H1|[H1 H1']] [H2|[H2 H2']]; subst; auto; discriminate.
Qed.

Lemma protect_one_rsub abbrev s :
  never_empty (lit_ci abbrev) ->
  rsub protected_from (sub (lit_ci abbrev) repl_protect s) s.
Proof.
  intros Hne. apply sub_rsub; [exact Hne|left; reflexivity|].
  intros pre m t cs _. unfold repl_protect, replace_char. clear.
  induction m as [|c m IH]; simpl; [constructor|].
  apply rsub_take; [|exact IH].
  destruct (Ascii.eqb c ".") eqn:E; [|left; reflexivity].
  apply Ascii.eqb_eq in E. subst. right. auto.
Qed.

Lemma protect_abbrev_rsub item : rsub protected_from (protect_abbrev item) item.
Proof.
  unfold protect_abbrev.
  assert (F : Forall (fun a => never_empty (lit_ci a)) common_abbrev).
  { repeat constructor; apply never_empty_chr_seq. }
  revert item. induction F as [|a l Ha F IH]; intros item; simpl.
  - apply rsub_refl. left. reflexivity.
  - eapply rsub_trans; [exact protected_from_trans|apply IH|].
    apply protect_one_rsub. exact Ha.
Qed.

(** The period split. *)
Lemma split_from_skip r keep n : forall cur pre rest,
  n <= length rest ->
  split_from r keep n cur pre rest
  = split_from r keep 0 cur (rev (firstn n rest) ++ pre) (skipn n rest).
Proof.
  induction n as [|n IH]; intros cur pre rest H; [reflexivity|].
  destruct rest as [|c t]; [simpl in H; lia|].
  simpl in H. cbn [split_from firstn skipn]. rewrite IH by lia.
  simpl. rewrite <- app_assoc. reflexivity.
Qed.

Lemma period_shape pre rest n cs :
  match_at re_period pre rest = Some (n, cs) -> exists t, rest = "."%char :: t.
Proof.
  intros H. apply match_at_matches in H. destruct H as (st' & H & _).
  unfold re_period, Plus in H. inversion H; subst; clear H.
  invert_matches. char_facts. eexists. reflexivity.
Qed.

Lemma period_parts_subseq : forall rest cur pre part,
  In part (period_parts (split_from re_period true 0 cur pre rest)) ->
  subseq part (rev cur ++ rest).
Proof.
  intros rest. remember (length rest) as k eqn:Ek. revert rest Ek.
  induction k as [k IH] using lt_wf_ind. intros rest Ek cur pre part H.
  destruct rest as [|c t].
  - cbn [split_from] in H.
    destruct (match_at re_period pre []) as [[[|n] cs]|] eqn:E.
    + destruct H as [<-|[]]. rewrite app_nil_r. apply subseq_refl.
    + apply match_at_length in E. simpl in E. lia.
    + destruct H as [<-|[]]. rewrite app_nil_r. apply subseq_refl.
  - cbn [split_from] in H.
    assert (K : In part (period_parts (split_from re_period true 0 (c :: cur) (c :: pre) t))
                -> subseq part (rev cur ++ c :: t)).
    { intros H1. apply (IH (length t)) in H1; [|simpl in Ek; lia|reflexivity].
      simpl in H1. rewrite <- app_assoc in H1. exact H1. }
    destruct (match_at re_period pre (c :: t)) as [[[|n] cs]|] eqn:E; auto.
    pose proof (match_at_length _ _ _ _ _ E) as L. simpl in L.
    apply period_shape in E. destruct E as (t' & E). inversion E; subst c t'.
    rewrite split_from_skip in H by lia.
    cbn [app period_parts] in H. destruct H as [<-|H].
    + apply rsub_app; [apply subseq_refl|].
      apply rsub_take; [reflexivity|constructor].
    + apply (IH (length (skipn n t))) in H; [|rewrite length_skipn; simpl in Ek; lia|reflexivity].
      simpl in H. apply rsub_skip_front. apply rsub_skip.
      eapply rsub_trans_eq; [exact H|apply subseq_skipn].
Qed.

Lemma parts_subseq protected part :
  In part (match period_parts (split re_period true protected) with
           | [] => [protected]
           | ps => ps
           end) ->
  subseq part protected.
Proof.
  intros H.
  assert (K : forall p, In p (period_parts (split re_period true protected)) ->
                        subseq p protected).
  { intros p Hp. apply period_parts_subseq in Hp. exact Hp. }
  destruct (period_parts (split re_period true protected)) as [|p ps].
  - destruct H as [<-|[]]. apply subseq_refl.
  - apply K. exact H.
Qed.

(** The fusion split. *)
Lemma cut_at_subseq part : forall splits start_idx sub,
  In sub (fst (cut_at part start_idx splits)) -> subseq sub part.
Proof.
  induction splits as [|idx rest IH]; intros start_idx sub H; [contradiction|].
  cbn [cut_at] in H. destruct (cut_at part idx rest) as [tl last] eqn:E.
  assert (T : forall x, In x tl -> subseq x part).
  { intros x Hx. apply (IH idx). rewrite E. exact Hx. }
  cbn [fst] in H.
  destruct (strip (slice start_idx idx part)) as [|c u] eqn:Es; [apply T; exact H|].
  destruct H as [<-|H]; [|apply T; exact H].
  rewrite <- Es. eapply rsub_trans_eq; [apply subseq_strip|apply subseq_slice].
Qed.

Lemma split_fused_subseq part0 sub :
  In sub (split_fused part0) -> subseq sub (replace_char "@" "." part0).
Proof.
  unfold split_fused. set (part := replace_char "@" "." part0).
  destruct (finditer_starts re_seam part) as [|i is_].
  { intros [<-|[]]. apply subseq_refl. }
  destruct (filter (valid_split part) (map S (i :: is_))) as [|v vs].
  { intros [<-|[]]. apply subseq_refl. }
  destruct (cut_at part 0 (v :: vs)) as [subparts start_idx] eqn:E.
  assert (T : forall x, In x subparts -> subseq x part).
  { intros x Hx. apply (cut_at_subseq part (v :: vs) 0). rewrite E. exact Hx. }
  destruct (Nat.ltb start_idx (length part)); intros H.
  - apply in_app_or in H. destruct H as [H|[<-|[]]]; [apply T; exact H|].
    eapply rsub_trans_eq; [apply subseq_strip|apply subseq_skipn].
  - apply T. exact H.
Qed.

(** Cleaning. *)
Lemma unconfuse_rsub x : forall s, rsub (unconfused_from x) (unconfuse x s) s.
Proof.
  intros s. remember (length s) as n eqn:En. revert s En.
  induction n as [n IH] using lt_wf_ind. intros s En.
  destruct s as [|a [|b [|d t]]]; try (apply rsub_refl; left; reflexivity).
  rewrite unconfuse_cons. destruct (alpha a && Ascii.eqb b x && d09 d)%bool eqn:E.
  - apply andb_true_iff in E. destruct E as [E _].
    apply andb_true_iff in E. destruct E as [_ E]. apply Ascii.eqb_eq in E. subst b.
    apply rsub_take; [left; reflexivity|].
    apply rsub_take; [right; auto|].
    apply rsub_take; [left; reflexivity|].
    apply (IH (length t)); [simpl in En; lia|reflexivity].
  - apply rsub_take; [left; reflexivity|].
    apply (IH (length (b :: d :: t))); [simpl in *; lia|reflexivity].
Qed.

Lemma rendered_trans c y x : rendered c y -> rendered y x -> rendered c x.
Proof.
  unfold rendered.
  intros [H1|[[H1 H1']|[[H1 H1']|[H1 H1']]]] [H2|[[H2 H2']|[[H2 H2']|[H2 H2']]]];
    subst; auto; try discriminate;
    try (destruct H2; discriminate); try (destruct H1; subst; auto).
Qed.

Lemma clean_rendered ing : rsub rendered (clean ing) ing.
Proof.
  rewrite clean_spec.
  eapply rsub_trans; [exact rendered_trans| |].
  { eapply rsub_weaken; [|apply unconfuse_rsub].
    intros c x [H|[H1 H2]]; [left; exact H|right; right; right; auto]. }
  eapply rsub_trans; [exact rendered_trans| |].
  { eapply rsub_weaken; [|apply unconfuse_rsub].
    intros c x [H|[H1 H2]]; [left; exact H|right; right; right; auto]. }
  eapply rsub_trans; [exact rendered_trans| |].
  { eapply rsub_weaken; [|apply squeeze_rsub; auto].
    intros c x [H|H]; [left; exact H|right; left; exact H]. }
  eapply rsub_weaken; [intros c x H; left; symmetry; exact H|].
  eapply rsub_trans_eq; [apply subseq_rtrim|].
  eapply rsub_trans_eq; [apply subseq_after|apply subseq_strip].
Qed.

(** From a comma-separated item to its pieces. *)
Lemma segment_item_rendered item sub :
  In sub (segment_item item) -> rsub rendered sub item.
Proof.
  unfold segment_item. intros H. apply in_flat_map in H.
  destruct H as (part0 & Hp & Hs).
  apply parts_subseq in Hp. apply split_fused_subseq in Hs.
  pose proof (protect_abbrev_rsub item) as Hi.
  assert (H1 : rsub (fun c x => x = (if Ascii.eqb c "@" then "."%char else c))
                    sub part0).
  { eapply rsub_eq_l; [exact Hs|]. apply (rsub_map (fun c => if Ascii.eqb c "@" then "."%char else c)). }
  eapply rsub_weaken; [|eapply rsub_comp; [exact H1|eapply rsub_eq_l; [exact Hp|exact Hi]]].
  intros c x (y & [Hy|[Hy Hy']] & Hx); subst.
  - destruct (Ascii.eqb c "@") eqn:E; [|left; reflexivity].
    apply Ascii.eqb_eq in E. subst. right. right. left. auto.
  - left. reflexivity.
Qed.

Lemma segment_rendered text sub :
  In sub (segment (normalize text)) -> rsub rendered sub text.
Proof.
  unfold segment. intros H. apply in_flat_map in H. destruct H as (item & Hi & Hs).
  destruct (Nat.leb (length item) 2); [contradiction|].
  apply segment_item_rendered in Hs.
  apply in_map_iff in Hi. destruct Hi as (field & <- & Hf).
  apply split_on_fields in Hf. destruct Hf as [Hf Hc].
  assert (Hi : subseq (strip field) (normalize text)).
  { eapply rsub_trans_eq; [apply subseq_strip|exact Hf]. }
  assert (Nc : Forall (fun x => x <> ","%char) (strip field)).
  { apply Forall_forall. intros x Hx C. subst x. apply Hc.
    eapply subseq_in; [apply subseq_strip|exact Hx]. }
  pose proof (rsub_eq_l _ _ _ _ Hi (normalize_rsub text)) as Hn.
  pose proof (rsub_restrict _ _ _ _ Hn Nc) as Hr.
  eapply rsub_trans; [exact rendered_trans|exact Hs|].
  eapply rsub_weaken; [|exact Hr].
  intros c x [[H|[H|[_ H]]] Hx]; [left; exact H|right; left; exact H|contradiction].
Qed.

(** C9 (amended).  Every token is a subsequence of the span up to the
    rewritings of the pipeline: each of its characters comes, in order, from
    a character of the span that is the same, or is whitespace rendered as
    a space, or [@] rendered as a period, or [l] or [O] rendered as a
    hyphen. *)
Theorem C9_rendered_subsequence (ocr_text tok : str) :
  In tok (parse_ingredients_from_ocr ocr_text) ->
  rsub rendered tok (extract_span ocr_text).
Proof.
  unfold parse_ingredients_from_ocr, parse_span, clean_all.
  destruct ocr_text as [|c0 t0]; [intros []|].
  intros H. apply filter_In in H. destruct H as [H _].
  apply in_map_iff in H. destruct H as (ing & <- & Hi).
  eapply rsub_trans; [exact rendered_trans|apply clean_rendered|].
  apply segment_rendered. exact Hi.
Qed.

Lemma C9_rendered_subsequence_witness :
  In (s2l "C-2-15 Alkyl Benzoate")
     (parse_ingredients_from_ocr (s2l "Ingredients: Aqua, Cl2-15 Alkyl  Benzoate"))
  /\ rsub rendered (s2l "C-2-15 Alkyl Benzoate")
          (extract_span (s2l "Ingredients: Aqua, Cl2-15 Alkyl  Benzoate")).
Proof.
  assert (H : In (s2l "C-2-15 Alkyl Benzoate")
                (parse_ingredients_from_ocr
                   (s2l "Ingredients: Aqua, Cl2-15 Alkyl  Benzoate")))
    by (vm_compute; right; left; reflexivity).
  split; [exact H|].
  exact (C9_rendered_subsequence
           (s2l "Ingredients: Aqua, Cl2-15 Alkyl  Benzoate")
           (s2l "C-2-15 Alkyl Benzoate") H).
Defined.

(** C9 (as stated) fails: the cleaning step writes a hyphen in place of the
    letter l, and the token has more hyphens than the span. *)
Lemma C9_token_not_a_subsequence :
  extract_span (s2l "Ingredients: Aqua, Cl2-15 Alkyl Benzoate")
  = s2l "Aqua, Cl2-15 Alkyl Benzoate"
  /\ parse_ingredients_from_ocr (s2l "Ingredients: Aqua, Cl2-15 Alkyl Benzoate")
     = [s2l "Aqua"; s2l "C-2-15 Alkyl Benzoate"]
  /\ ~ subseq (s2l "C-2-15 Alkyl Benzoate") (s2l "Aqua, Cl2-15 Alkyl Benzoate").
Proof.
  split; [vm_compute; reflexivity|]. split; [vm_compute; reflexivity|].
  intros H. apply (subseq_count (is_char "-")) in H. vm_compute in H. lia.
Qed.

(** ** Programs that keep an invariant *)

Lemma preserves_ret {A} (I : EWGSkindeepAPI * World -> Prop) (a : A) :
  preserves I (ret a).
Proof. intros s Hs. exact Hs. Qed.

Lemma preserves_bind {A B} (I : EWGSkindeepAPI * World -> Prop)
    (m : M A) (k : A -> M B) :
  preserves I m -> (forall a, preserves I (k a)) -> preserves I (bind m k).
Proof.
  intros Hm Hk s Hs. unfold bind. specialize (Hm s Hs).
  destruct (m s) as [a s1]. apply Hk. exact Hm.
Qed.

Section Preservation.

Variable server : World -> str -> Response * N.
Variable I : EWGSkindeepAPI * World -> Prop.
Hypothesis request_keeps : forall url, preserves I (_make_request server url).
Hypothesis log_keeps : forall t e, preserves I (log_lookup t e).

Lemma search_ingredient_keeps t : preserves I (search_ingredient server t).
Proof.
  unfold search_ingredient. apply preserves_bind; [apply request_keeps|].
  intros r. apply preserves_ret.
Qed.

Lemma get_ingredient_page_keeps u : preserves I (get_ingredient_page server u).
Proof.
  unfold get_ingredient_page. apply preserves_bind; [apply request_keeps|].
  intros r. apply preserves_ret.
Qed.

Lemma get_ingredient_data_keeps t e : preserves I (get_ingredient_data server t e).
Proof.
  unfold get_ingredient_data.
  apply preserves_bind; [apply log_keeps|]. intros _.
  apply preserves_bind; [apply search_ingredient_keeps|]. intros [status osoup].
  destruct (status =? 200)%Z; [|apply preserves_ret].
  destruct osoup as [sp|]; [|apply preserves_ret].
  destruct (find_matches sp t e) as [[oname ourl] all].
  destruct oname as [[|n0 n']|]; try apply preserves_ret.
  destruct ourl as [[|u0 u']|]; try apply preserves_ret.
  apply preserves_bind; [apply get_ingredient_page_keeps|]. intros [st2 os2].
  destruct (st2 =? 200)%Z; [|apply preserves_ret].
  destruct os2 as [sp2|]; [|apply preserves_ret].
  destruct (extract_score sp2). apply preserves_ret.
Qed.

End Preservation.

(** The programs built from [get_ingredient_data].  An invariant that the
    fuzzy query of [test3.py] keeps must not depend on the client, which is
    created on the spot. *)
Lemma shared_client_any (I : EWGSkindeepAPI * World -> Prop) :
  false = true -> forall c c' w, I (c, w) -> I (c', w).
Proof. discriminate. Qed.

Section LookupPreservation.

Variable server : World -> str -> Response * N.
Variable new_client : bool.
Variable I : EWGSkindeepAPI * World -> Prop.
Hypothesis data_keeps : forall t e, preserves I (get_ingredient_data server t e).
Hypothesis client_free : new_client = true -> forall c c' w, I (c, w) -> I (c', w).

Lemma analyze_ingredient_keeps t : preserves I (analyze_ingredient server t).
Proof.
  unfold analyze_ingredient. apply preserves_bind; [apply data_keeps|].
  intros r. apply preserves_ret.
Qed.

Lemma split_phase_keeps ws : preserves I (split_phase server ws).
Proof.
  induction ws as [|w ws IH]; simpl; [apply preserves_ret|].
  apply preserves_bind; [apply analyze_ingredient_keeps|]. intros r.
  apply preserves_bind; [exact IH|]. intros found. apply preserves_ret.
Qed.

Lemma fuzzy_query_keeps t : preserves I (fuzzy_query server new_client t).
Proof.
  unfold fuzzy_query. destruct new_client eqn:E; [|apply data_keeps].
  intros [c w] H. unfold on_new_client. cbn [fst snd].
  pose proof (data_keeps t false (EWGSkindeepAPI_new, w)
                (client_free eq_refl c EWGSkindeepAPI_new w H)) as K.
  destruct (get_ingredient_data server t false (EWGSkindeepAPI_new, w)) as [r [c1 w1]].
  cbn [snd] in *. apply (client_free eq_refl c1 c w1 K).
Qed.

Lemma smart_analyze_keeps t : preserves I (smart_analyze_with server new_client t).
Proof.
  unfold smart_analyze_with.
  apply preserves_bind; [apply analyze_ingredient_keeps|]. intros r.
  destruct (is_exact_hit r); [apply preserves_ret|].
  apply preserves_bind.
  { destruct (Nat.ltb 1 (length (words_of t)));
      [apply split_phase_keeps|apply preserves_ret]. }
  intros [|m found]; [|apply preserves_ret].
  apply preserves_bind; [apply fuzzy_query_keeps|].
  intros fr. apply preserves_ret.
Qed.

Lemma first_pass_keeps l : preserves I (first_pass server new_client l).
Proof.
  induction l as [|t l IH]; simpl; [apply preserves_ret|].
  apply preserves_bind; [apply smart_analyze_keeps|]. intros r.
  apply preserves_bind; [exact IH|]. intros [rs us]. apply preserves_ret.
Qed.

Lemma combine_scan_keeps u : preserves I (combine_scan server u).
Proof.
  remember (length u) as n eqn:En. revert u En.
  induction n as [n IH] using lt_wf_ind. intros u En.
  destruct u as [|a [|b rest]]; try apply preserves_ret.
  cbn [combine_scan].
  apply preserves_bind; [apply analyze_ingredient_keeps|]. intros cr.
  assert (K : preserves I (combine_scan server rest))
    by (apply (IH (length rest)); [simpl in En; lia|reflexivity]).
  destruct (is_exact_hit cr).
  - apply preserves_bind; [exact K|]. intros [rs rem]. apply preserves_ret.
  - apply preserves_bind; [apply analyze_ingredient_keeps|]. intros cm.
    destruct (is_exact_hit cm).
    + apply preserves_bind; [exact K|]. intros [rs rem]. apply preserves_ret.
    + exact (IH (length (b :: rest)) ltac:(simpl in *; lia) (b :: rest) eq_refl).
Qed.

Lemma final_fuzzy_keeps u : preserves I (final_fuzzy server u).
Proof.
  induction u as [|t u IH]; simpl; [apply preserves_ret|].
  apply preserves_bind; [apply data_keeps|]. intros fr.
  apply preserves_bind; [exact IH|]. intros rs. apply preserves_ret.
Qed.

Lemma smart_analyze_list_keeps l :
  preserves I (smart_analyze_list_with server new_client l).
Proof.
  unfold smart_analyze_list_with.
  apply preserves_bind; [apply first_pass_keeps|]. intros [results unmatched].
  destruct (Nat.leb 2 (length unmatched)); [|apply preserves_ret].
  apply preserves_bind; [apply combine_scan_keeps|]. intros [rs remaining].
  apply preserves_bind; [apply final_fuzzy_keeps|]. intros fs. apply preserves_ret.
Qed.

End LookupPreservation.

(** ** The pace of the requests *)

Lemma last_send_snoc log t u : last_send (log ++ [(t, u)]) = Some t.
Proof. unfold last_send. rewrite rev_app_distr. reflexivity. Qed.

Lemma last_send_cons q q' log : last_send (q :: q' :: log) = last_send (q' :: log).
Proof.
  unfold last_send. simpl. destruct (rev log) as [|[t u] r]; simpl.
  - destruct q'. reflexivity.
  - reflexivity.
Qed.

Lemma spaced_snoc i log t u :
  spaced i log ->
  match last_send log with Some t0 => (t0 + i <= t)%Z | None => True end ->
  spaced i (log ++ [(t, u)]).
Proof.
  induction log as [|[t1 u1] [|[t2 u2] log] IH]; intros Hs Hl.
  - exact I.
  - simpl. split; [exact Hl|exact I].
  - change (spaced i ((t1, u1) :: ((t2, u2) :: log) ++ [(t, u)])).
    destruct Hs as [H12 Hs]. cbn [spaced app]. split; [exact H12|].
    apply IH; [exact Hs|]. rewrite last_send_cons in Hl. exact Hl.
Qed.

Section Pace.

Variable server : World -> str -> Response * N.

Lemma make_request_limiter url : preserves limiter_ok (_make_request server url).
Proof.
  intros [self w] [Hs Hl]. unfold _make_request. cbn [fst snd] in *.
  set (elapsed := (now w - last_request_time self)%Z).
  set (t_send := if (elapsed <? rate_limit self)%Z
                 then (now w + (rate_limit self - elapsed))%Z else now w).
  destruct (server _ url) as [resp took]. unfold limiter_ok. cbn [fst snd rate_limit sent
    last_request_time now].
  assert (T : (last_request_time self + rate_limit self <= t_send)%Z).
  { unfold t_send, elapsed. destruct (_ <? _)%Z eqn:E.
    - lia.
    - apply Z.ltb_ge in E. lia. }
  split.
  - apply spaced_snoc; [exact Hs|].
    destruct (last_send (sent w)) as [t0|]; [lia|exact I].
  - rewrite last_send_snoc. lia.
Qed.

Lemma log_lookup_limiter t e : preserves limiter_ok (log_lookup t e).
Proof. intros [self w] H. exact H. Qed.

End Pace.

(** ** The choice made by [find_matches] *)

Lemma tile_entries_app a b : tile_entries (a ++ b) = tile_entries a ++ tile_entries b.
Proof. unfold tile_entries. apply flat_map_app. Qed.

Lemma tile_link_absolute p : absolute (tile_link p).
Proof.
  unfold tile_link, absolute. destruct (tile_href p) as [h|]; [|exact I].
  destruct (startswith (s2l "http") h) eqn:E; [exact E|reflexivity].
Qed.

Lemma tile_entries_absolute ps : Forall (fun m => absolute (snd m)) (tile_entries ps).
Proof.
  induction ps as [|p ps IH]; [constructor|].
  unfold tile_entries in *. cbn [flat_map].
  destruct (tile_name p); [|exact IH].
  constructor; [apply tile_link_absolute|exact IH].
Qed.

(** What the loop over the tiles returns, whatever its accumulators. *)
Lemma find_loop_spec tn ps : forall all b bl,
  match find_loop ps tn all b bl with
  | inl (name, link, all') =>
      exists before tl after raw,
        ps = before ++ tl :: after
        /\ tile_name tl = Some raw /\ name = strip raw /\ link = tile_link tl
        /\ lower_str name = tn
        /\ all' = all ++ tile_entries (before ++ [tl])
        /\ Forall (fun m => lower_str (fst m) <> tn) (tile_entries before)
  | inr (all', b', bl') =>
      all' = all ++ tile_entries ps
      /\ Forall (fun m => lower_str (fst m) <> tn) (tile_entries ps)
      /\ (if truthy b then b' = b /\ bl' = bl
          else (exists before name after,
                  b' = Some name /\ name <> []
                  /\ tile_entries ps = before ++ (name, bl') :: after
                  /\ contains tn (lower_str name) = true
                  /\ Forall (fun m => fst m = []
                                      \/ contains tn (lower_str (fst m)) = false) before)
               \/ (truthy b' = false
                   /\ Forall (fun m => fst m = []
                                       \/ contains tn (lower_str (fst m)) = false)
                             (tile_entries ps)))
  end.
Proof.
  induction ps as [|p ps IH]; intros all b bl.
  - simpl. rewrite app_nil_r. split; [reflexivity|]. split; [constructor|].
    destruct (truthy b) eqn:E; [auto|]. right. split; [reflexivity|constructor].
  - cbn [find_loop]. destruct (tile_name p) as [text|] eqn:Ep.
    2:{ specialize (IH all b bl).
        assert (Et : tile_entries (p :: ps) = tile_entries ps)
          by (unfold tile_entries; cbn [flat_map]; rewrite Ep; reflexivity).
        destruct (find_loop ps tn all b bl) as [[[name link] all']|[[all' b'] bl']].
        - destruct IH as (before & tl & after & raw & E & Ht & En & El & Hl & Ea & F).
          exists (p :: before), tl, after, raw. rewrite E.
          assert (Eb : forall x, tile_entries (p :: x) = tile_entries x)
            by (intro x; unfold tile_entries; cbn [flat_map]; rewrite Ep; reflexivity).
          change ((p :: before) ++ [tl]) with (p :: (before ++ [tl])).
          rewrite !Eb. auto 10.
        - rewrite Et. exact IH. }
    set (name := strip text). set (link := tile_link p).
    assert (Eb : forall x, tile_entries (p :: x) = (name, link) :: tile_entries x)
      by (intro x; unfold tile_entries; cbn [flat_map]; rewrite Ep; reflexivity).
    destruct (str_eqb tn (lower_str name)) eqn:Eq.
    { apply str_eqb_eq in Eq. exists [], p, ps, text.
      cbn [app]. rewrite Eb. repeat split; auto. }
    assert (Nq : lower_str name <> tn).
    { intros C. assert (T : str_eqb tn (lower_str name) = true)
        by (apply str_eqb_eq; auto). congruence. }
    assert (Kl : forall nm lk all',
               (exists before tl after raw,
                  ps = before ++ tl :: after
                  /\ tile_name tl = Some raw /\ nm = strip raw /\ lk = tile_link tl
                  /\ lower_str nm = tn
                  /\ all' = (all ++ [(name, link)]) ++ tile_entries (before ++ [tl])
                  /\ Forall (fun m => lower_str (fst m) <> tn) (tile_entries before)) ->
               exists before tl after raw,
                 p :: ps = before ++ tl :: after
                 /\ tile_name tl = Some raw /\ nm = strip raw /\ lk = tile_link tl
                 /\ lower_str nm = tn
                 /\ all' = all ++ tile_entries (before ++ [tl])
                 /\ Forall (fun m => lower_str (fst m) <> tn) (tile_entries before)).
    { intros nm lk all'
             (before & tl & after & raw & E & Ht & En & El & Hl & Ea & F).
      exists (p :: before), tl, after, raw. rewrite E.
      change ((p :: before) ++ [tl]) with (p :: (before ++ [tl])).
      rewrite !Eb. rewrite <- app_assoc in Ea. repeat split; auto. }
    destruct (contains tn (lower_str name) && negb (truthy b))%bool eqn:Ec.
    + apply andb_true_iff in Ec. destruct Ec as [Ec Eb0].
      apply negb_true_iff in Eb0. rewrite Eb0.
      specialize (IH (all ++ [(name, link)]) (Some name) link).
      destruct (find_loop ps tn (all ++ [(name, link)]) (Some name) link)
        as [[[nm lk] all']|[[all' b'] bl']] eqn:Ef.
      * apply Kl. exact IH.
      * destruct IH as (Ea & F & D). rewrite Eb.
        split; [rewrite Ea, <- app_assoc; reflexivity|].
        split; [constructor; [exact Nq|exact F]|].
        destruct name as [|n0 n'] eqn:En0.
        -- cbn [truthy] in D.
           destruct D as [(before & nm & after & E1 & E2 & E3 & E4 & E5)|[D1 D2]].
           ++ left. exists (([], link) :: before), nm, after. rewrite E3.
              repeat split; auto.
           ++ right. split; [exact D1|]. constructor; [left; reflexivity|exact D2].
        -- cbn [truthy] in D. destruct D as [-> ->].
           left. exists [], (n0 :: n'), (tile_entries ps).
           repeat split; auto. discriminate.
    + specialize (IH (all ++ [(name, link)]) b bl).
      destruct (find_loop ps tn (all ++ [(name, link)]) b bl)
        as [[[nm lk] all']|[[all' b'] bl']] eqn:Ef.
      * apply Kl. exact IH.
      * destruct IH as (Ea & F & D). rewrite Eb.
        split; [rewrite Ea, <- app_assoc; reflexivity|].
        split; [constructor; [exact Nq|exact F]|].
        destruct (truthy b) eqn:Et; [exact D|].
        rewrite andb_true_r in Ec.
        destruct D as [(before & nm & after & E1 & E2 & E3 & E4 & E5)|[D1 D2]].
        -- left. exists ((name, link) :: before), nm, after. rewrite E3.
           repeat split; auto.
        -- right. split; [exact D1|]. constructor; [right; exact Ec|exact D2].
Qed.

(** The result of [find_matches], by priority. *)
Lemma find_matches_spec sp term e name link all :
  find_matches sp term e = (Some name, link, all) ->
  exists before after,
    all = before ++ (name, link) :: after
    /\ Forall (fun m => lower_str (fst m) <> lower_str term) before
    /\ (lower_str name = lower_str term /\ after = []
        \/ (e = false /\ name <> []
            /\ contains (lower_str term) (lower_str name) = true
            /\ Forall (no_partial term) before
            /\ Forall (fun m => lower_str (fst m) <> lower_str term)
                      ((name, link) :: after))
        \/ (e = false /\ before = []
            /\ Forall (no_partial term) ((name, link) :: after)
            /\ Forall (fun m => lower_str (fst m) <> lower_str term)
                      ((name, link) :: after))).
Proof.
  unfold find_matches.
  pose proof (find_loop_spec (lower_str term) (product_tiles sp) [] None None) as S.
  destruct (find_loop (product_tiles sp) (lower_str term) [] None None)
    as [[[nm lk] all']|[[all' b'] bl']].
  - destruct S as (before & tl & after & raw & E & Ht & En & El & Hl & Ea & F).
    intros H. inversion H; subst name link all. clear H.
    exists (tile_entries before), []. cbn [app] in Ea.
    rewrite tile_entries_app in Ea.
    assert (Et : tile_entries [tl] = [(nm, lk)]).
    { unfold tile_entries. cbn [flat_map]. rewrite Ht, En, El. reflexivity. }
    rewrite Et in Ea. split; [exact Ea|]. split; [exact F|]. left. auto.
  - destruct S as (Ea & F & D). cbn [app truthy] in *.
    destruct e; [discriminate|].
    destruct D as [(before & nm & after & E1 & E2 & E3 & E4 & E5)|[D1 D2]].
    + subst b'. destruct nm as [|n0 n']; [contradiction E2; reflexivity|].
      cbn [truthy]. intros H. inversion H; subst name link all. clear H.
      exists before, after. rewrite Ea, E3 in *. split; [reflexivity|].
      apply Forall_app in F. destruct F as [F1 F2].
      split; [exact F1|]. right. left. repeat split; auto.
    + rewrite D1. destruct all' as [|[n0 l0] rest]; [discriminate|].
      intros H. inversion H; subst name link all. clear H.
      exists [], rest. split; [reflexivity|]. split; [constructor|].
      right. right. rewrite <- Ea in *. repeat split; auto.
Qed.

Lemma find_matches_all sp term e :
  exists k, snd (find_matches sp term e) = tile_entries (firstn k (product_tiles sp)).
Proof.
  unfold find_matches.
  pose proof (find_loop_spec (lower_str term) (product_tiles sp) [] None None) as S.
  destruct (find_loop (product_tiles sp) (lower_str term) [] None None)
    as [[[nm lk] all']|[[all' b'] bl']].
  - destruct S as (before & tl & after & raw & E & Ht & En & El & Hl & Ea & F).
    exists (length (before ++ [tl])). cbn [snd app] in *. rewrite Ea, E.
    replace (before ++ tl :: after) with ((before ++ [tl]) ++ after)
      by (rewrite <- app_assoc; reflexivity).
    rewrite firstn_app, Nat.sub_diag, firstn_all. cbn [firstn]. rewrite app_nil_r.
    reflexivity.
  - destruct S as (Ea & _). exists (length (product_tiles sp)).
    rewrite firstn_all. cbn [app] in Ea.
    destruct e; [exact Ea|]. destruct (truthy b'); [exact Ea|].
    destruct all' as [|[n0 l0] rest]; exact Ea.
Qed.

Lemma find_matches_none sp term e link all :
  find_matches sp term e = (None, link, all) -> link = None.
Proof.
  unfold find_matches.
  destruct (find_loop (product_tiles sp) (lower_str term) [] None None)
    as [[[nm lk] all']|[[all' b'] bl']]; [discriminate|].
  destruct e; [intros H; inversion H; reflexivity|].
  destruct b' as [[|n0 n']|]; cbn [truthy];
    try (intros H; discriminate H);
    destruct all' as [|[n1 l1] rest]; intros H; inversion H; reflexivity.
Qed.

(** ** One lookup: its requests and its result *)

Section Lookup.

Variable server : World -> str -> Response * N.

Lemma make_request_sent url s r s1 :
  _make_request server url s = (r, s1) ->
  exists t,
    sent (snd s1) = sent (snd s) ++ [(t, url)]
    /\ (last_request_time (fst s) + rate_limit (fst s) <= t)%Z
    /\ (now (snd s) <= t)%Z
    /\ (t <= last_request_time (fst s1))%Z
    /\ rate_limit (fst s1) = rate_limit (fst s).
Proof.
  destruct s as [self w]. unfold _make_request. cbn [fst snd].
  set (elapsed := (now w - last_request_time self)%Z).
  set (t_send := if (elapsed <? rate_limit self)%Z
                 then (now w + (rate_limit self - elapsed))%Z else now w).
  destruct (server _ url) as [resp took]. intros H. inversion H; subst r s1. clear H.
  exists t_send. cbn [fst snd sent last_request_time rate_limit now].
  assert (T : (last_request_time self + rate_limit self <= t_send
               /\ now w <= t_send)%Z).
  { unfold t_send, elapsed. destruct (_ <? _)%Z eqn:E.
    - apply Z.ltb_lt in E. lia.
    - apply Z.ltb_ge in E. lia. }
  repeat split; try reflexivity; lia.
Qed.

Lemma search_ingredient_inv t s status osoup s1 :
  search_ingredient server t s = ((status, osoup), s1) ->
  ((status = 200%Z /\ osoup <> None) \/ (status <> 200%Z /\ osoup = None))
  /\ exists r, _make_request server (search_url t) s = (r, s1).
Proof.
  unfold search_ingredient. intros H. apply bind_inv in H.
  destruct H as (r & s2 & H1 & H). apply ret_inv in H. destruct H as [E ->].
  split; [|exists r; exact H1].
  destruct (status_code r =? 200)%Z eqn:Es; inversion E; subst.
  - left. split; [apply Z.eqb_eq; exact Es|discriminate].
  - right. split; [apply Z.eqb_neq; exact Es|reflexivity].
Qed.

Lemma get_ingredient_page_inv u s status osoup s1 :
  get_ingredient_page server u s = ((status, osoup), s1) ->
  ((status = 200%Z /\ osoup <> None) \/ (status <> 200%Z /\ osoup = None))
  /\ exists r, _make_request server u s = (r, s1).
Proof.
  unfold get_ingredient_page. intros H. apply bind_inv in H.
  destruct H as (r & s2 & H1 & H). apply ret_inv in H. destruct H as [E ->].
  split; [|exists r; exact H1].
  destruct (status_code r =? 200)%Z eqn:Es; inversion E; subst.
  - left. split; [apply Z.eqb_eq; exact Es|discriminate].
  - right. split; [apply Z.eqb_neq; exact Es|reflexivity].
Qed.

Lemma log_lookup_inv t e s u s1 :
  log_lookup t e s = (u, s1) -> fst s1 = fst s /\ sent (snd s1) = sent (snd s).
Proof.
  destruct s as [self w]. unfold log_lookup. intros H. inversion H. auto.
Qed.

(** The requests of one call of [get_ingredient_data]. *)
Lemma get_ingredient_data_requests term e s r s1 :
  get_ingredient_data server term e s = (r, s1) ->
  exists t1,
    (last_request_time (fst s) + rate_limit (fst s) <= t1)%Z
    /\ if ingredient_found r
       then exists t2 url,
              info_url (ingredient_info r) = Some url
              /\ sent (snd s1) = sent (snd s) ++ [(t1, search_url term); (t2, url)]
              /\ (t1 + rate_limit (fst s) <= t2)%Z
       else sent (snd s1) = sent (snd s) ++ [(t1, search_url term)].
Proof.
  unfold get_ingredient_data. intros H.
  apply bind_inv in H. destruct H as (u & s2 & H1 & H).
  apply log_lookup_inv in H1. destruct H1 as [Ec Es].
  apply bind_inv in H. destruct H as ([status osoup] & s3 & H2 & H).
  apply search_ingredient_inv in H2. destruct H2 as [_ (resp & H2)].
  apply make_request_sent in H2. destruct H2 as (t1 & S1 & T1 & _ & L1 & R1).
  rewrite Ec in T1, R1. rewrite Es in S1. exists t1. split; [exact T1|].
  assert (Simple : forall r0, ingredient_found r0 = false ->
                     ret r0 s3 = (r, s1) ->
                     if ingredient_found r
                     then exists t2 url,
                            info_url (ingredient_info r) = Some url
                            /\ sent (snd s1)
                               = sent (snd s) ++ [(t1, search_url term); (t2, url)]
                            /\ (t1 + rate_limit (fst s) <= t2)%Z
                     else sent (snd s1) = sent (snd s) ++ [(t1, search_url term)]).
  { intros r0 F0 Hr. apply ret_inv in Hr. destruct Hr as [-> ->]. rewrite F0. exact S1. }
  destruct (status =? 200)%Z; [|eapply Simple; [|exact H]; reflexivity].
  destruct osoup as [sp|]; [|eapply Simple; [|exact H]; reflexivity].
  destruct (find_matches sp term e) as [[oname ourl] all].
  destruct oname as [[|n0 n']|]; try (eapply Simple; [|exact H]; reflexivity).
  destruct ourl as [[|u0 u']|]; try (eapply Simple; [|exact H]; reflexivity).
  apply bind_inv in H. destruct H as ([st2 os2] & s4 & H3 & H).
  apply get_ingredient_page_inv in H3. destruct H3 as [_ (resp2 & H3)].
  apply make_request_sent in H3. destruct H3 as (t2 & S2 & T2 & _ & _ & _).
  assert (Found : forall r0, ingredient_found r0 = true ->
                    info_url (ingredient_info r0) = Some (u0 :: u') ->
                    ret r0 s4 = (r, s1) ->
                    if ingredient_found r
                    then exists t2 url,
                           info_url (ingredient_info r) = Some url
                           /\ sent (snd s1)
                              = sent (snd s) ++ [(t1, search_url term); (t2, url)]
                           /\ (t1 + rate_limit (fst s) <= t2)%Z
                    else sent (snd s1) = sent (snd s) ++ [(t1, search_url term)]).
  { intros r0 F0 U0 Hr. apply ret_inv in Hr. destruct Hr as [-> ->]. rewrite F0.
    exists t2, (u0 :: u'). split; [exact U0|].
    split; [rewrite S2, S1, <- app_assoc; reflexivity|]. lia. }
  destruct (st2 =? 200)%Z; [|eapply Found; [| |exact H]; reflexivity].
  destruct os2 as [sp2|]; [|eapply Found; [| |exact H]; reflexivity].
  destruct (extract_score sp2). eapply Found; [| |exact H]; reflexivity.
Qed.

(** The dictionary of one call of [get_ingredient_data]. *)
Lemma get_ingredient_data_contract term e s :
  lookup_contract term (fst (get_ingredient_data server term e s)).
Proof.
  destruct (get_ingredient_data server term e s) as [r s1] eqn:H. cbn [fst].
  unfold get_ingredient_data in H.
  apply bind_inv in H. destruct H as (u & s2 & _ & H).
  apply bind_inv in H. destruct H as ([status osoup] & s3 & H2 & H).
  apply search_ingredient_inv in H2. destruct H2 as [St _].
  assert (Failed : (status =? 200)%Z = false \/ osoup = None ->
            lookup_contract term
              {| search_term := term; ingredient_found := false;
                 ingredient_info := empty_info; all_matches := [];
                 error := Some (SearchFailed status);
                 exact_match := None; analysis_type := None |}).
  { intros C. unfold lookup_contract. cbn. repeat split; auto.
    left. exists status. repeat split; auto.
    destruct St as [[E N]|[E _]]; [|exact E].
    destruct C as [C|C]; [subst; discriminate C|contradiction]. }
  destruct (status =? 200)%Z eqn:Es.
  2:{ apply ret_inv in H. destruct H as [-> _]. apply Failed. auto. }
  destruct osoup as [sp|].
  2:{ apply ret_inv in H. destruct H as [-> _]. apply Failed. auto. }
  clear Failed.
  destruct (find_matches sp term e) as [[oname ourl] all] eqn:Ef.
  assert (NoMatch : lookup_contract term
            {| search_term := term; ingredient_found := false;
               ingredient_info := empty_info; all_matches := all;
               error := Some (NoSuitableMatch term);
               exact_match := None; analysis_type := None |}).
  { unfold lookup_contract. cbn. repeat split; auto. }
  destruct oname as [[|n0 n']|];
    try (apply ret_inv in H; destruct H as [-> _]; exact NoMatch).
  destruct ourl as [[|u0 u']|];
    try (apply ret_inv in H; destruct H as [-> _]; exact NoMatch).
  clear NoMatch.
  assert (Hin : In (n0 :: n', Some (u0 :: u')) all).
  { apply find_matches_spec in Ef. destruct Ef as (before & after & -> & _).
    apply in_or_app. right. left. reflexivity. }
  apply bind_inv in H. destruct H as ([st2 os2] & s4 & H3 & H).
  apply get_ingredient_page_inv in H3. destruct H3 as [St2 _].
  assert (PageFailedCase : (st2 =? 200)%Z = false \/ os2 = None ->
            lookup_contract term
              {| search_term := term; ingredient_found := true;
                 ingredient_info :=
                   {| info_name := Some (n0 :: n'); info_url := Some (u0 :: u');
                      info_score_range := None; info_data_level := None;
                      info_concerns := None |};
                 all_matches := all; error := Some (PageFailed st2);
                 exact_match := Some (ratio_above_09 term (n0 :: n'));
                 analysis_type := None |}).
  { intros C. unfold lookup_contract. cbn. repeat split; auto.
    exists (n0 :: n'), (u0 :: u'). repeat split; auto; try discriminate.
    right. exists st2. repeat split; auto.
    destruct St2 as [[E N]|[E _]]; [|exact E].
    destruct C as [C|C]; [subst; discriminate C|contradiction]. }
  destruct (st2 =? 200)%Z.
  2:{ apply ret_inv in H. destruct H as [-> _]. apply PageFailedCase. auto. }
  destruct os2 as [sp2|].
  2:{ apply ret_inv in H. destruct H as [-> _]. apply PageFailedCase. auto. }
  destruct (extract_score sp2) as [score_range data_level].
  apply ret_inv in H. destruct H as [-> _].
  unfold lookup_contract. cbn. repeat split; auto.
  exists (n0 :: n'), (u0 :: u'). repeat split; auto; discriminate.
Qed.

Lemma analyze_ingredient_shape t s :
  search_term (fst (analyze_ingredient server t s)) = t
  /\ (is_exact_hit (fst (analyze_ingredient server t s)) = true ->
      analysis_type (fst (analyze_ingredient server t s)) = Some Exact).
Proof.
  unfold analyze_ingredient, bind.
  pose proof (get_ingredient_data_contract t true s) as C.
  destruct (get_ingredient_data server t true s) as [r s1]. cbn [fst] in C.
  destruct C as (C1 & _). unfold ret. cbn [fst].
  destruct (is_exact_hit r) eqn:E; cbn; split; auto.
  rewrite is_exact_hit_set, E. discriminate.
Qed.

End Lookup.

(** ** What the results of reconciliation hold *)

Lemma exact_result_consistent t r ty :
  ty = MtExact \/ ty = MtSplitExact ->
  search_term r = t -> is_exact_hit r = true -> analysis_type r = Some Exact ->
  consistent {| original := t; corrected := Some t; match_type := ty; data := Some r |}.
Proof.
  intros [-> | ->] Hs Hh Ha; unfold consistent; cbn;
    (split; [reflexivity|]); exists r; auto.
Qed.

Lemma fuzzy_result_consistent t fr ty :
  ty = MtFuzzy \/ ty = MtFinalFuzzy ->
  lookup_contract t fr ->
  consistent (if ingredient_found fr
              then {| original := t; corrected := info_name (ingredient_info fr);
                      match_type := ty; data := Some fr |}
              else {| original := t; corrected := None;
                      match_type := MtNoMatch; data := None |}).
Proof.
  intros Hty (Hs & _ & C). destruct (ingredient_found fr) eqn:Ef.
  - destruct C as (name & url & Hn & _ & En & _).
    destruct Hty as [-> | ->]; unfold consistent; cbn;
      exists name, fr; repeat split; auto.
  - unfold consistent. cbn. auto.
Qed.

Lemma combined_result_consistent a b c ty r :
  combined_type ty ->
  search_term r = c -> is_exact_hit r = true -> analysis_type r = Some Exact ->
  consistent (combined_result a b c ty r).
Proof.
  intros [-> | ->] Hs Hh Ha; unfold consistent, combined_result; cbn;
    exists c, r; auto.
Qed.

Section Consistency.

Variable server : World -> str -> Response * N.
Variable new_client : bool.

Lemma split_phase_consistent ws s : Forall consistent (fst (split_phase server ws s)).
Proof.
  revert s. induction ws as [|w ws IH]; intros s; simpl; [constructor|].
  unfold bind. pose proof (analyze_ingredient_shape server w s) as [Hs Ha].
  destruct (analyze_ingredient server w s) as [r s1]. cbn [fst] in Hs, Ha.
  specialize (IH s1). destruct (split_phase server ws s1) as [found s2].
  unfold ret. cbn [fst] in *. destruct (is_exact_hit r) eqn:E; [|exact IH].
  constructor; [|exact IH]. apply exact_result_consistent; auto.
Qed.

Lemma fuzzy_query_contract t s :
  lookup_contract t (fst (fuzzy_query server new_client t s)).
Proof.
  unfold fuzzy_query. destruct new_client.
  - unfold on_new_client.
    pose proof (get_ingredient_data_contract server t false (EWGSkindeepAPI_new, snd s)) as C.
    destruct (get_ingredient_data server t false (EWGSkindeepAPI_new, snd s)) as [r s1].
    exact C.
  - apply get_ingredient_data_contract.
Qed.

Lemma smart_analyze_consistent t s :
  consistent (fst (smart_analyze_with server new_client t s)).
Proof.
  unfold smart_analyze_with, bind.
  pose proof (analyze_ingredient_shape server t s) as [Hs Ha].
  destruct (analyze_ingredient server t s) as [r s1]. cbn [fst] in Hs, Ha.
  destruct (is_exact_hit r) eqn:E.
  { unfold ret. cbn [fst]. apply exact_result_consistent; auto. }
  assert (F : forall s', Forall consistent
                (fst ((if Nat.ltb 1 (length (words_of t))
                       then split_phase server (words_of t) else ret []) s'))).
  { intros s'. destruct (Nat.ltb 1 (length (words_of t)));
      [apply split_phase_consistent|constructor]. }
  specialize (F s1).
  destruct ((if Nat.ltb 1 (length (words_of t))
             then split_phase server (words_of t) else ret []) s1) as [found s2].
  cbn [fst] in F. destruct found as [|m found'].
  - pose proof (fuzzy_query_contract t s2) as C.
    destruct (fuzzy_query server new_client t s2) as [fr s3]. cbn [fst] in C.
    unfold ret. cbn [fst]. apply fuzzy_result_consistent; auto.
  - unfold ret. cbn [fst]. inversion F; assumption.
Qed.

Lemma first_pass_results l s :
  Forall consistent (fst (fst (first_pass server new_client l s)))
  /\ length (fst (fst (first_pass server new_client l s)))
     + length (snd (fst (first_pass server new_client l s))) = length l.
Proof.
  revert s. induction l as [|t l IH]; intros s; simpl; [split; [constructor|reflexivity]|].
  unfold bind. pose proof (smart_analyze_consistent t s) as C.
  destruct (smart_analyze_with server new_client t s) as [r s1]. cbn [fst] in C.
  specialize (IH s1). destruct (first_pass server new_client l s1) as [[rs us] s2].
  cbn [fst snd] in IH. destruct IH as [IH1 IH2].
  unfold ret. destruct (direct_or_fuzzy r); cbn [fst snd length].
  - split; [constructor; assumption|lia].
  - split; [assumption|lia].
Qed.

Lemma combine_scan_cons a b rest :
  combine_scan server (a :: b :: rest)
  = (combined_res <- analyze_ingredient server (a ++ s2l " " ++ b) ;;
     if is_exact_hit combined_res
     then '(rs, remaining) <- combine_scan server rest ;;
          ret (combined_result a b (a ++ s2l " " ++ b) MtCombinedExact combined_res :: rs,
               remaining)
     else
       comma_res <- analyze_ingredient server (a ++ s2l ", " ++ b) ;;
       if is_exact_hit comma_res
       then '(rs, remaining) <- combine_scan server rest ;;
            ret (combined_result a b (a ++ s2l ", " ++ b) MtCombinedCommaExact comma_res
                   :: rs, remaining)
       else combine_scan server (b :: rest)).
Proof. reflexivity. Qed.

Lemma combine_scan_results u : forall s,
  Forall consistent (fst (fst (combine_scan server u s)))
  /\ 2 * length (fst (fst (combine_scan server u s)))
     + length (snd (fst (combine_scan server u s))) <= length u.
Proof.
  remember (length u) as n eqn:En. revert u En.
  induction n as [n IH] using lt_wf_ind. intros u En s.
  destruct u as [|a [|b rest]];
    try (cbn [combine_scan]; unfold ret; cbn [fst snd length]; split;
         [constructor|subst n; simpl; lia]).
  rewrite combine_scan_cons. unfold bind.
  pose proof (analyze_ingredient_shape server (a ++ s2l " " ++ b) s) as [Hs Ha].
  destruct (analyze_ingredient server (a ++ s2l " " ++ b) s) as [cr s1].
  cbn [fst] in Hs, Ha.
  assert (K : forall s', Forall consistent (fst (fst (combine_scan server rest s')))
                         /\ 2 * length (fst (fst (combine_scan server rest s')))
                            + length (snd (fst (combine_scan server rest s')))
                            <= length rest).
  { intros s'. apply (IH (length rest)); [subst n; simpl; lia|reflexivity]. }
  destruct (is_exact_hit cr) eqn:E.
  - specialize (K s1). destruct (combine_scan server rest s1) as [[rs rem] s2].
    cbn [fst snd] in *. destruct K as [K1 K2]. unfold ret. cbn [fst snd length].
    split; [|subst n; simpl; lia].
    constructor; [|exact K1]. apply combined_result_consistent; auto.
    left. reflexivity.
  - pose proof (analyze_ingredient_shape server (a ++ s2l ", " ++ b) s1) as [Hs2 Ha2].
    destruct (analyze_ingredient server (a ++ s2l ", " ++ b) s1) as [cm s2].
    cbn [fst] in Hs2, Ha2. destruct (is_exact_hit cm) eqn:E2.
    + specialize (K s2). destruct (combine_scan server rest s2) as [[rs rem] s3].
      cbn [fst snd] in *. destruct K as [K1 K2]. unfold ret. cbn [fst snd length].
      split; [|subst n; simpl; lia].
      constructor; [|exact K1]. apply combined_result_consistent; auto.
      right. reflexivity.
    + destruct (IH (length (b :: rest)) ltac:(subst n; simpl; lia) (b :: rest) eq_refl s2)
        as [K1 K2].
      split; [exact K1|]. subst n. simpl in *. lia.
Qed.

Lemma final_fuzzy_results u s :
  Forall consistent (fst (final_fuzzy server u s))
  /\ length (fst (final_fuzzy server u s)) = length u.
Proof.
  revert s. induction u as [|t u IH]; intros s; simpl; [split; [constructor|reflexivity]|].
  unfold bind. pose proof (get_ingredient_data_contract server t false s) as C.
  destruct (get_ingredient_data server t false s) as [fr s1]. cbn [fst] in C.
  specialize (IH s1). destruct (final_fuzzy server u s1) as [rs s2].
  cbn [fst] in IH. destruct IH as [IH1 IH2]. unfold ret. cbn [fst length].
  split; [|lia]. constructor; [|exact IH1].
  apply fuzzy_result_consistent; auto.
Qed.

Lemma smart_analyze_list_results l s :
  Forall consistent (fst (smart_analyze_list_with server new_client l s))
  /\ length (fst (smart_analyze_list_with server new_client l s)) <= length l.
Proof.
  unfold smart_analyze_list_with, bind.
  pose proof (first_pass_results l s) as [F1 F2].
  destruct (first_pass server new_client l s) as [[results unmatched] s1].
  cbn [fst snd] in F1, F2.
  destruct (Nat.leb 2 (length unmatched)).
  - pose proof (combine_scan_results unmatched s1) as [C1 C2].
    destruct (combine_scan server unmatched s1) as [[rs remaining] s2].
    cbn [fst snd] in C1, C2.
    pose proof (final_fuzzy_results remaining s2) as [G1 G2].
    destruct (final_fuzzy server remaining s2) as [fs s3]. cbn [fst] in G1, G2.
    unfold ret. cbn [fst]. split.
    + apply Forall_app. split; [exact F1|]. apply Forall_app. auto.
    + rewrite !length_app. lia.
  - unfold ret. cbn [fst]. split; [exact F1|lia].
Qed.

End Consistency.

(** ** The client and the reconciliation, as their users see them *)

Lemma limiter_with_rate_request server r url :
  preserves (fun s => limiter_ok s /\ rate_limit (fst s) = r) (_make_request server url).
Proof.
  intros s [H Hr]. split; [apply make_request_limiter; exact H|].
  destruct (_make_request server url s) as [resp s1] eqn:E.
  apply make_request_sent in E. destruct E as (t & _ & _ & _ & _ & Er).
  cbn [snd]. congruence.
Qed.

Lemma limiter_with_rate_log r t e :
  preserves (fun s => limiter_ok s /\ rate_limit (fst s) = r) (log_lookup t e).
Proof. intros [self w] H. exact H. Qed.

(** X1.  [IngredientAnalyzer.smart_analyze_list] sends every request
    through the one client [self.ewg_api]: if the requests sent so far are
    [rate_limit] apart and the client's [last_request_time] is not earlier
    than the latest of them (as at the start of a run), any two consecutive
    requests of the log after the run are at least [rate_limit] apart. *)
Theorem X1_shared_client_keeps_the_pace
    (server : World -> str -> Response * N) (l : list str)
    (s : EWGSkindeepAPI * World) :
  limiter_ok s ->
  spaced (rate_limit (fst s))
         (sent (snd (snd (IngredientAnalyzer.smart_analyze_list server l s)))).
Proof.
  intros H. unfold IngredientAnalyzer.smart_analyze_list.
  destruct (smart_analyze_list_keeps server false
              (fun s' => limiter_ok s' /\ rate_limit (fst s') = rate_limit (fst s))
              (get_ingredient_data_keeps server _
                 (limiter_with_rate_request server (rate_limit (fst s)))
                 (limiter_with_rate_log (rate_limit (fst s))))
              (shared_client_any _) l s (conj H eq_refl))
    as [[Hs _] Hr].
  rewrite <- Hr. exact Hs.
Qed.

Lemma X1_shared_client_keeps_the_pace_witness :
  limiter_ok start
  /\ spaced (rate_limit (fst start))
            (sent (snd (snd (IngredientAnalyzer.smart_analyze_list
                               (site_server site_stearic 200)
                               (map s2l ["Stearic"; "Foo"; "Bar"]%string) start)))).
Proof.
  assert (H : limiter_ok start) by (split; exact I).
  split; [exact H|].
  exact (X1_shared_client_keeps_the_pace (site_server site_stearic 200)
           (map s2l ["Stearic"; "Foo"; "Bar"]%string) start H).
Defined.

(** X2.  One call of [get_ingredient_data] sends the search request, whose
    address holds the term as it is, and then, exactly when an ingredient
    was found, the request for the page at the [url] it reports; the first
    leaves no sooner than [rate_limit] after the client's
    [last_request_time], the second no sooner than [rate_limit] after the
    first. *)
Theorem X2_lookup_sends_search_then_page
    (server : World -> str -> Response * N) (term : str) (e : bool)
    (s : EWGSkindeepAPI * World) :
  exists t1,
    (last_request_time (fst s) + rate_limit (fst s) <= t1)%Z
    /\ if ingredient_found (fst (get_ingredient_data server term e s))
       then exists t2 url,
              info_url (ingredient_info (fst (get_ingredient_data server term e s)))
              = Some url
              /\ sent (snd (snd (get_ingredient_data server term e s)))
                 = sent (snd s) ++ [(t1, search_url term); (t2, url)]
              /\ (t1 + rate_limit (fst s) <= t2)%Z
       else sent (snd (snd (get_ingredient_data server term e s)))
            = sent (snd s) ++ [(t1, search_url term)].
Proof.
  destruct (get_ingredient_data server term e s) as [r s1] eqn:E.
  apply get_ingredient_data_requests in E. exact E.
Qed.

(** X3.  The dictionary returned by [get_ingredient_data]: when
    [ingredient_found] is true, the name and the url are set and not empty,
    the pair is one of [all_matches], [exact_match] is set, and an error can
    only be a failed page request, with no score, data level or concerns;
    when it is false, [ingredient_info] is empty, there is no [exact_match]
    key and the error says why. *)
Theorem X3_lookup_contract
    (server : World -> str -> Response * N) (term : str) (e : bool)
    (s : EWGSkindeepAPI * World) :
  lookup_contract term (fst (get_ingredient_data server term e s)).
Proof. apply get_ingredient_data_contract. Qed.

(** X4.  The choice of [find_matches]: the name it returns is the first
    entry of [all_matches] equal to the term up to case, the list stopping
    there; failing that, and unless [exact_match_only], the first entry with
    a non-empty name that contains the term up to case; failing that, the
    first entry. *)
Theorem X4_find_matches_priority
    (sp : Soup) (term : str) (e : bool) (name : str) (link : option str)
    (all : list (str * option str)) :
  find_matches sp term e = (Some name, link, all) ->
  exists before after,
    all = before ++ (name, link) :: after
    /\ Forall (fun m => lower_str (fst m) <> lower_str term) before
    /\ (lower_str name = lower_str term /\ after = []
        \/ (e = false /\ name <> []
            /\ contains (lower_str term) (lower_str name) = true
            /\ Forall (no_partial term) before
            /\ Forall (fun m => lower_str (fst m) <> lower_str term)
                      ((name, link) :: after))
        \/ (e = false /\ before = []
            /\ Forall (no_partial term) ((name, link) :: after)
            /\ Forall (fun m => lower_str (fst m) <> lower_str term)
                      ((name, link) :: after))).
Proof. apply find_matches_spec. Qed.

Lemma X4_find_matches_priority_witness :
  let sp := soup (page_of [tile "Cetyl Alcohol" "/a"; tile " Stearic Acid " "/b";
                           tile "Stearic Acid Amide" "http://x.org/c"]) in
  let all := [(s2l "Cetyl Alcohol", Some (s2l "https://www.ewg.org/a"));
              (s2l "Stearic Acid", Some (s2l "https://www.ewg.org/b"));
              (s2l "Stearic Acid Amide", Some (s2l "http://x.org/c"))] in
  find_matches sp (s2l "stearic") false
  = (Some (s2l "Stearic Acid"), Some (s2l "https://www.ewg.org/b"), all)
  /\ exists before after,
       all = before ++ (s2l "Stearic Acid", Some (s2l "https://www.ewg.org/b")) :: after
       /\ Forall (fun m => lower_str (fst m) <> lower_str (s2l "stearic")) before
       /\ (lower_str (s2l "Stearic Acid") = lower_str (s2l "stearic") /\ after = []
           \/ (false = false /\ s2l "Stearic Acid" <> []
               /\ contains (lower_str (s2l "stearic")) (lower_str (s2l "Stearic Acid")) = true
               /\ Forall (no_partial (s2l "stearic")) before
               /\ Forall (fun m => lower_str (fst m) <> lower_str (s2l "stearic"))
                         ((s2l "Stearic Acid", Some (s2l "https://www.ewg.org/b")) :: after))
           \/ (false = false /\ before = []
               /\ Forall (no_partial (s2l "stearic"))
                         ((s2l "Stearic Acid", Some (s2l "https://www.ewg.org/b")) :: after)
               /\ Forall (fun m => lower_str (fst m) <> lower_str (s2l "stearic"))
                         ((s2l "Stearic Acid", Some (s2l "https://www.ewg.org/b")) :: after))).
Proof.
  intros sp all.
  assert (H : find_matches sp (s2l "stearic") false
              = (Some (s2l "Stearic Acid"), Some (s2l "https://www.ewg.org/b"), all))
    by (vm_compute; reflexivity).
  split; [exact H|].
  exact (X4_find_matches_priority sp (s2l "stearic") false (s2l "Stearic Acid")
           (Some (s2l "https://www.ewg.org/b")) all H).
Defined.

(** X5.  [find_matches] never hands out a relative link: the link it
    returns and every link of [all_matches] is absent or starts with
    "http", and [all_matches] is made of the entries of the first tiles of
    the page, in their order. *)
Theorem X5_links_are_absolute (sp : Soup) (term : str) (e : bool) :
  absolute (snd (fst (find_matches sp term e)))
  /\ Forall (fun m => absolute (snd m)) (snd (find_matches sp term e))
  /\ exists k, snd (find_matches sp term e) = tile_entries (firstn k (product_tiles sp)).
Proof.
  destruct (find_matches_all sp term e) as (k & Ek).
  assert (A : Forall (fun m => absolute (snd m)) (snd (find_matches sp term e)))
    by (rewrite Ek; apply tile_entries_absolute).
  split; [|split; [exact A|exists k; exact Ek]].
  destruct (find_matches sp term e) as [[oname link] all] eqn:E. cbn [fst snd] in *.
  destruct oname as [name|].
  - apply find_matches_spec in E. destruct E as (before & after & Ea & _).
    rewrite Forall_forall in A. apply (A (name, link)).
    rewrite Ea. apply in_or_app. right. left. reflexivity.
  - apply find_matches_none in E. subst link. exact I.
Qed.

(** X6.  What [smart_analyze] and [smart_analyze_list] return can be read
    without a check: a result of type [no_match] has neither [corrected] nor
    [data]; every other result has both, [corrected] being the token itself
    for an exact or fragment match, the query for a combined match, and the
    non-empty name found for a fuzzy match, and [data] being the lookup of
    that query. *)
Theorem X6_results_are_consistent
    (server : World -> str -> Response * N) (new_client : bool)
    (t : str) (l : list str) (s : EWGSkindeepAPI * World) :
  consistent (fst (smart_analyze_with server new_client t s))
  /\ Forall consistent (fst (smart_analyze_list_with server new_client l s)).
Proof.
  split; [apply smart_analyze_consistent|].
  apply (smart_analyze_list_results server new_client l s).
Qed.

(** X7.  [smart_analyze_list] never returns more results than it was given
    tokens. *)
Theorem X7_no_more_results_than_tokens
    (server : World -> str -> Response * N) (new_client : bool)
    (l : list str) (s : EWGSkindeepAPI * World) :
  length (fst (smart_analyze_list_with server new_client l s)) <= length l.
Proof. apply (smart_analyze_list_results server new_client l s). Qed.

(** ** Facts on the string primitives *)

Lemma lstrip_after s : lstrip s = after is_space s.
Proof.
  induction s as [|c t IH]; simpl; [reflexivity|].
  destruct (is_space c); [exact IH|reflexivity].
Qed.

Lemma lstrip_head s c t : lstrip s = c :: t -> is_space c = false.
Proof. rewrite lstrip_after. apply after_head. Qed.

Lemma lstrip_suffix s : exists w, s = w ++ lstrip s /\ forallb is_space w = true.
Proof.
  exists (run is_space s). rewrite lstrip_after, run_after. split; [reflexivity|].
  apply run_all.
Qed.

Lemma rstrip_prefix s : exists w, s = rstrip s ++ w /\ forallb is_space w = true.
Proof.
  unfold rstrip. destruct (lstrip_suffix (rev s)) as (w & E & W).
  exists (rev w). split.
  - rewrite <- rev_app_distr, <- E. symmetry. apply rev_involutive.
  - rewrite forallb_forall in *. intros x Hx. apply W. apply in_rev. exact Hx.
Qed.

Lemma rstrip_last s u c : rstrip s = u ++ [c] -> is_space c = false.
Proof.
  unfold rstrip. intros H. apply (f_equal (@rev ascii)) in H.
  rewrite rev_involutive, rev_app_distr in H. simpl in H.
  apply lstrip_head in H. exact H.
Qed.

Lemma rstrip_fixed u c : is_space c = false -> rstrip (u ++ [c]) = u ++ [c].
Proof.
  intros H. unfold rstrip. rewrite rev_app_distr. simpl. rewrite H.
  simpl. rewrite rev_involutive. reflexivity.
Qed.

(** A text that neither starts nor ends with whitespace is its own
    [strip()]. *)
Lemma strip_fixed c t u d :
  c :: t = u ++ [d] -> is_space c = false -> is_space d = false ->
  strip (c :: t) = c :: t.
Proof.
  intros E Hc Hd. unfold strip. simpl. rewrite Hc. rewrite E.
  apply rstrip_fixed. exact Hd.
Qed.

(** What [strip()] returns: nothing, or a text that neither starts nor
    ends with whitespace. *)
Lemma strip_shape s :
  strip s = []
  \/ exists c t u d, strip s = c :: t /\ strip s = u ++ [d]
                     /\ is_space c = false /\ is_space d = false.
Proof.
  destruct (strip s) as [|c t] eqn:E; [left; reflexivity|right].
  assert (N : c :: t <> []) by discriminate.
  destruct (exists_last N) as (u & d & Eu).
  exists c, t, u, d. split; [reflexivity|]. split; [exact Eu|].
  unfold strip in E. split.
  - destruct (rstrip_prefix (lstrip s)) as (w & Ew & _).
    rewrite E in Ew. simpl in Ew. apply lstrip_head in Ew. exact Ew.
  - rewrite Eu in E. apply rstrip_last in E. exact E.
Qed.

Lemma strip_strip s : strip (strip s) = strip s.
Proof.
  destruct (strip_shape s) as [E|(c & t & u & d & E1 & E2 & Hc & Hd)].
  - rewrite E. reflexivity.
  - rewrite E1. rewrite E1 in E2. eapply strip_fixed; eauto.
Qed.

Lemma startswith_app p : forall s b, startswith p s = true -> startswith p (s ++ b) = true.
Proof.
  induction p as [|x p IH]; intros s b H; [reflexivity|].
  destruct s as [|c s]; [discriminate H|]. simpl in *.
  apply andb_true_iff in H. destruct H as [H1 H2]. rewrite H1, (IH _ _ H2). reflexivity.
Qed.

Lemma startswith_self p b : startswith p (p ++ b) = true.
Proof.
  induction p as [|x p IH]; [reflexivity|]. simpl.
  rewrite Ascii.eqb_refl, IH. reflexivity.
Qed.

Lemma contains_cons p c s :
  contains p (c :: s) = (startswith p (c :: s) || contains p s)%bool.
Proof. reflexivity. Qed.

Lemma contains_app_r p : forall s b, contains p s = true -> contains p (s ++ b) = true.
Proof.
  induction s as [|c s IH]; intros b H.
  - simpl in H. rewrite orb_false_r in H. destruct p; [|discriminate H].
    destruct b; reflexivity.
  - rewrite contains_cons in H. apply orb_true_iff in H.
    change ((c :: s) ++ b) with (c :: (s ++ b)). rewrite contains_cons.
    apply orb_true_iff. destruct H as [H|H].
    + left. apply (startswith_app p (c :: s) b H).
    + right. apply IH. exact H.
Qed.

Lemma contains_app_l p a : forall s, contains p s = true -> contains p (a ++ s) = true.
Proof.
  induction a as [|c a IH]; intros s H; [exact H|].
  change ((c :: a) ++ s) with (c :: (a ++ s)). rewrite contains_cons.
  apply orb_true_iff. right. apply IH. exact H.
Qed.

Lemma contains_self p b : contains p (p ++ b) = true.
Proof.
  destruct (p ++ b) as [|c s] eqn:E.
  - apply app_eq_nil in E. destruct E as [-> _]. reflexivity.
  - rewrite contains_cons, <- E, startswith_self. reflexivity.
Qed.

Lemma lower_str_app a b : lower_str (a ++ b) = lower_str a ++ lower_str b.
Proof. apply map_app. Qed.

(** ** The longest common subsequence *)

Lemma lcs_nil_r a : lcs a [] = 0.
Proof. destruct a; reflexivity. Qed.

Lemma lcs_nil_l b : lcs [] b = 0.
Proof. destruct b; reflexivity. Qed.

Lemma lcs_cons x a y b :
  lcs (x :: a) (y :: b)
  = if Ascii.eqb x y then S (lcs a b) else Nat.max (lcs a (y :: b)) (lcs (x :: a) b).
Proof. reflexivity. Qed.

(** One more character on either side adds at most one, and takes nothing
    away. *)
Lemma lcs_grow_l : forall n a b x, length a + length b <= n ->
  lcs a b <= lcs (x :: a) b /\ forall y, lcs a (y :: b) <= S (lcs a b).
Proof.
  induction n as [|n IH]; intros a b x Hn.
  - destruct a, b; simpl in Hn; try lia. split; [reflexivity|]. intros y. simpl. lia.
  - split.
    + destruct b as [|y b']; [rewrite !lcs_nil_r; lia|].
      rewrite lcs_cons. destruct (Ascii.eqb x y).
      * destruct (IH a b' x ltac:(simpl in Hn; lia)) as [_ H4]. apply H4.
      * lia.
    + intros y. destruct a as [|x' a']; [simpl; lia|].
      rewrite lcs_cons.
      destruct (IH a' b x' ltac:(simpl in Hn; lia)) as [H1 H4].
      destruct (Ascii.eqb x' y); [lia|].
      specialize (H4 y). lia.
Qed.

Lemma lcs_grow_r : forall n a b y, length a + length b <= n ->
  lcs a b <= lcs a (y :: b) /\ forall x, lcs (x :: a) b <= S (lcs a b).
Proof.
  induction n as [|n IH]; intros a b y Hn.
  - destruct a, b; simpl in Hn; try lia. split; [reflexivity|]. intros x. simpl. lia.
  - split.
    + destruct a as [|x a']; [rewrite !lcs_nil_l; lia|].
      rewrite lcs_cons. destruct (Ascii.eqb x y).
      * destruct (IH a' b y ltac:(simpl in Hn; lia)) as [_ H3]. apply H3.
      * lia.
    + intros x. destruct b as [|y' b']; [rewrite !lcs_nil_r; lia|].
      rewrite lcs_cons.
      destruct (IH a b' y' ltac:(simpl in Hn; lia)) as [H2 H3].
      destruct (Ascii.eqb x y'); [lia|].
      specialize (H3 x). lia.
Qed.

(** Two texts that differ at few places have a long common subsequence. *)
Lemma lcs_mismatches : forall a b,
  length a + length b <= 2 * lcs a b + 2 * mismatches a b.
Proof.
  induction a as [|x a IH]; intros b; [simpl; lia|].
  destruct b as [|y b]; [simpl; lia|].
  rewrite lcs_cons. cbn [mismatches length]. specialize (IH b).
  destruct (Ascii.eqb x y); [lia|].
  destruct (lcs_grow_r (length a + length b) a b y (le_n _)) as [H _].
  lia.
Qed.

(** ** The line helpers of [RobustIngredientOCR] *)

Lemma normalize_text_squeeze text :
  RobustIngredientOCR._normalize_text text
  = squeeze is_space (s2l " ") false (strip text).
Proof. apply sub_plus_squeeze. Qed.

Lemma squeeze_stripped c t u d :
  c :: t = u ++ [d] -> is_space c = false -> is_space d = false ->
  strip (squeeze is_space (s2l " ") false (c :: t))
  = squeeze is_space (s2l " ") false (c :: t).
Proof.
  intros E Hc Hd.
  assert (L : last (c :: t) " "%char = d) by (rewrite E; apply last_last).
  destruct (squeeze_last is_space (s2l " ") false (c :: t) " "%char) as [N1 N2];
    [discriminate|rewrite L; exact Hd|].
  rewrite L in N2.
  pose proof (app_removelast_last " "%char N1) as R. rewrite N2 in R.
  revert R. rewrite squeeze_cons, Hc. intros R.
  eapply strip_fixed; [exact R|exact Hc|exact Hd].
Qed.

Lemma filter_not_class (p : cclass) (s : str) :
  replace_class (cnot p) [] s = filter p s.
Proof.
  unfold replace_class, cnot. induction s as [|c t IH]; simpl; [reflexivity|].
  destruct (p c); simpl; rewrite IH; reflexivity.
Qed.

Lemma az_lower c : az (lower c) = alpha c.
Proof. destruct c as [[] [] [] [] [] [] [] []]; reflexivity. Qed.

Lemma filter_az_lower s : filter az (lower_str s) = lower_str (filter alpha s).
Proof.
  unfold lower_str. induction s as [|c t IH]; simpl; [reflexivity|].
  rewrite az_lower. destruct (alpha c); simpl; rewrite IH; reflexivity.
Qed.

(** The [compact] of [_is_ingredient_header]: the ASCII letters of the
    text, in lower case. *)
Lemma header_compact text :
  sub (Chr (cnot az)) (const_repl "") (lower_str text) = lower_str (filter alpha text).
Proof.
  unfold sub. rewrite sub_chr_replace. change (s2l "") with (@nil ascii).
  rewrite filter_not_class. apply filter_az_lower.
Qed.

Lemma mismatches_length : forall a b, length a <= length b + mismatches a b.
Proof.
  induction a as [|x a IH]; intros b; [simpl; lia|].
  destruct b as [|y b]; [simpl; lia|].
  cbn [mismatches length]. specialize (IH b). lia.
Qed.

Lemma existsb_contains_app kws a t b :
  existsb (fun keyword => contains (s2l keyword) t) kws = true ->
  existsb (fun keyword => contains (s2l keyword) (a ++ t ++ b)) kws = true.
Proof.
  rewrite !existsb_exists. intros (k & Hk & H). exists k. split; [exact Hk|].
  apply contains_app_l. apply contains_app_r. exact H.
Qed.

(** ** The words and the letters of a line *)

Lemma strip_rewritten s :
  rewritten (fun c => is_space c = true) spaced_from (strip s) s.
Proof.
  unfold strip. destruct (lstrip_suffix s) as (w1 & E1 & W1).
  destruct (rstrip_prefix (lstrip s)) as (w2 & E2 & W2).
  rewrite E1 at 2. rewrite E2 at 2.
  change (rstrip (lstrip s)) with ([] ++ rstrip (lstrip s)) at 1.
  apply rewritten_app; [apply spaces_dropped; exact W1|].
  rewrite <- (app_nil_r (rstrip (lstrip s))) at 1.
  apply rewritten_app; [|apply spaces_dropped; exact W2].
  apply rewritten_refl. intros c. left. reflexivity.
Qed.

Lemma spaced_from_space c y : spaced_from c y -> is_space y = true -> is_space c = true.
Proof. intros [->|[H _]] Hy; [exact Hy|exact H]. Qed.

Lemma join_sp_cons x rest :
  rest <> [] -> join_sp (x :: rest) = x ++ s2l " " ++ join_sp rest.
Proof. destruct rest; [intros C; contradiction C; reflexivity|reflexivity]. Qed.

Lemma split_ws_from_cons cur c t :
  split_ws_from cur (c :: t)
  = if is_space c
    then match cur with [] => split_ws_from [] t | _ => rev cur :: split_ws_from [] t end
    else split_ws_from (c :: cur) t.
Proof. reflexivity. Qed.

Lemma split_ws_from_word : forall t cur, cur <> [] -> split_ws_from cur t <> [].
Proof.
  induction t as [|c t IH]; intros cur H.
  - destruct cur; [contradiction H; reflexivity|discriminate].
  - rewrite split_ws_from_cons. destruct (is_space c).
    + destruct cur; [contradiction H; reflexivity|discriminate].
    + apply IH. discriminate.
Qed.

(** Whitespace before the first word and after the last one gives
    [split()] nothing. *)
Lemma split_ws_leading : forall w s,
  forallb is_space w = true -> split_ws_from [] (w ++ s) = split_ws_from [] s.
Proof.
  induction w as [|c w IH]; intros s H; [reflexivity|].
  cbn [forallb] in H. apply andb_true_iff in H. destruct H as [Hc Hw].
  cbn [app]. rewrite split_ws_from_cons, Hc. apply IH. exact Hw.
Qed.

Lemma split_ws_spaces : forall w cur,
  forallb is_space w = true -> split_ws_from cur w = split_ws_from cur [].
Proof.
  induction w as [|c w IH]; intros cur H; [reflexivity|].
  cbn [forallb] in H. apply andb_true_iff in H. destruct H as [Hc Hw].
  rewrite split_ws_from_cons, Hc, (IH [] Hw). destruct cur; reflexivity.
Qed.

Lemma split_ws_trailing : forall s w cur,
  forallb is_space w = true -> split_ws_from cur (s ++ w) = split_ws_from cur s.
Proof.
  induction s as [|c s IH]; intros w cur H.
  - apply split_ws_spaces. exact H.
  - cbn [app]. rewrite !split_ws_from_cons, !(IH w) by exact H. reflexivity.
Qed.

Lemma split_ws_strip s : split_ws (strip s) = split_ws s.
Proof.
  unfold split_ws, strip. destruct (lstrip_suffix s) as (w1 & E1 & W1).
  destruct (rstrip_prefix (lstrip s)) as (w2 & E2 & W2).
  rewrite E1 at 2. rewrite (split_ws_leading _ _ W1). rewrite E2 at 2.
  rewrite (split_ws_trailing _ _ _ W2). reflexivity.
Qed.

(** On a text that does not end with whitespace, collapsing the runs of
    whitespace and joining the words with single spaces agree, whether the
    scan is inside a word or behind a run. *)
Lemma squeeze_join_split : forall u,
  (u <> [] -> is_space (last u " "%char) = false) ->
  (forall cur, cur <> [] ->
     rev cur ++ squeeze is_space (s2l " ") false u = join_sp (split_ws_from cur u))
  /\ (u <> [] ->
      squeeze is_space (s2l " ") true u = join_sp (split_ws_from [] u)
      /\ split_ws_from [] u <> []).
Proof.
  induction u as [|c t IH]; intros E.
  - split; [|intros C; contradiction C; reflexivity].
    intros cur H. destruct cur as [|x cur]; [contradiction H; reflexivity|].
    cbn [squeeze split_ws_from join_sp]. apply app_nil_r.
  - assert (Et : t <> [] -> is_space (last t " "%char) = false).
    { intros Ht. destruct t as [|c' t']; [contradiction Ht; reflexivity|].
      apply E. discriminate. }
    assert (Ec : is_space c = true -> t <> []).
    { intros Hc Ht. subst t. specialize (E ltac:(discriminate)). simpl in E. congruence. }
    destruct (IH Et) as [IH1 IH2]. split.
    + intros cur H. rewrite squeeze_cons, split_ws_from_cons.
      destruct (is_space c) eqn:Hc.
      * destruct (IH2 (Ec eq_refl)) as [J N].
        destruct cur as [|x cur]; [contradiction H; reflexivity|].
        rewrite (join_sp_cons _ _ N), J. reflexivity.
      * rewrite <- (IH1 (c :: cur)) by discriminate.
        cbn [rev]. rewrite <- app_assoc. reflexivity.
    + intros _. rewrite squeeze_cons, split_ws_from_cons.
      destruct (is_space c) eqn:Hc.
      * apply (IH2 (Ec eq_refl)).
      * split; [|apply split_ws_from_word; discriminate].
        rewrite <- (IH1 [c]) by discriminate. reflexivity.
Qed.

Lemma normalize_text_join_split text :
  RobustIngredientOCR._normalize_text text = join_sp (split_ws text).
Proof.
  rewrite normalize_text_squeeze, <- split_ws_strip.
  destruct (strip_shape text) as [E|(c & t & u & d & E1 & E2 & Hc & Hd)].
  - rewrite E. reflexivity.
  - rewrite E1. rewrite E1 in E2.
    assert (Et : t <> [] -> is_space (last t " "%char) = false).
    { intros Ht. destruct t as [|c' t']; [contradiction Ht; reflexivity|].
      change (last (c' :: t') " "%char) with (last (c :: c' :: t') " "%char).
      rewrite E2, last_last. exact Hd. }
    destruct (squeeze_join_split t Et) as [S1 _].
    unfold split_ws. rewrite squeeze_cons, split_ws_from_cons, Hc.
    rewrite <- (S1 [c]) by discriminate. reflexivity.
Qed.

(** The [compact] of [_is_ingredient_header] is read off the folded
    text. *)
Lemma compact_of_folded text :
  lower_str (filter alpha text) = filter az (ascii_folded text).
Proof.
  unfold lower_str, ascii_folded. induction text as [|c t IH]; [reflexivity|].
  cbn [filter flat_map]. rewrite filter_app, <- IH.
  destruct c as [[] [] [] [] [] [] [] []]; reflexivity.
Qed.

(** X8.  [_normalize_text] returns the words of the text joined by single
    spaces: it is [" ".join(text.split())].  It drops whitespace only and
    turns the whitespace it keeps into spaces, every other character staying
    in place; its result has no whitespace at either end and no whitespace
    but single spaces, and normalizing it again changes nothing. *)
Theorem X8_normalize_text_canonical (text : str) :
  RobustIngredientOCR._normalize_text (RobustIngredientOCR._normalize_text text)
  = RobustIngredientOCR._normalize_text text
  /\ strip (RobustIngredientOCR._normalize_text text)
     = RobustIngredientOCR._normalize_text text
  /\ single_spaced false (RobustIngredientOCR._normalize_text text) = true
  /\ rewritten (fun c => is_space c = true) spaced_from
               (RobustIngredientOCR._normalize_text text) text
  /\ RobustIngredientOCR._normalize_text text = join_sp (split_ws text).
Proof.
  assert (S1 : strip (RobustIngredientOCR._normalize_text text)
               = RobustIngredientOCR._normalize_text text).
  { rewrite normalize_text_squeeze.
    destruct (strip_shape text) as [E|(c & t & u & d & E1 & E2 & Hc & Hd)].
    - rewrite E. reflexivity.
    - rewrite E1. rewrite E1 in E2. apply (squeeze_stripped c t u d E2 Hc Hd). }
  assert (S2 : single_spaced false (RobustIngredientOCR._normalize_text text) = true).
  { rewrite normalize_text_squeeze. apply squeeze_single_spaced. }
  split; [|split; [exact S1|split; [exact S2|split]]].
  - rewrite (normalize_text_squeeze (RobustIngredientOCR._normalize_text text)), S1.
    apply single_spaced_squeeze. exact S2.
  - rewrite normalize_text_squeeze.
    apply rewritten_trans with (u := strip text).
    + intros c y x. apply spaced_from_trans.
    + apply spaced_from_space.
    + apply squeeze_rewritten. auto.
    + apply strip_rewritten.
  - apply normalize_text_join_split.
Qed.

(** X9.  [_is_ingredient_header] reads, of the ASCII characters of a line,
    the letters only, and not their case: two lines that hold the same ASCII
    letters up to case and the same characters above code point 127, in the
    same order, are both headers or both not, whatever ASCII digits, spaces
    and punctuation they hold. *)
Theorem X9_header_reads_letters_only (text text' : str) :
  ascii_folded text = ascii_folded text' ->
  RobustIngredientOCR._is_ingredient_header text
  = RobustIngredientOCR._is_ingredient_header text'.
Proof.
  intros H. unfold RobustIngredientOCR._is_ingredient_header.
  rewrite !header_compact, !compact_of_folded, H. reflexivity.
Qed.

Lemma X9_header_reads_letters_only_witness :
  ascii_folded (s2l "1. I N G R E D I E N T S :") = ascii_folded (s2l "ingredients")
  /\ RobustIngredientOCR._is_ingredient_header (s2l "1. I N G R E D I E N T S :")
     = RobustIngredientOCR._is_ingredient_header (s2l "ingredients").
Proof.
  assert (H : ascii_folded (s2l "1. I N G R E D I E N T S :")
              = ascii_folded (s2l "ingredients")) by (vm_compute; reflexivity).
  split; [exact H|].
  exact (X9_header_reads_letters_only (s2l "1. I N G R E D I E N T S :")
           (s2l "ingredients") H).
Defined.

(** X10.  [_is_ingredient_header] tolerates two misread letters: a line is
    a header when the first eleven characters of its [compact], the letters
    a-z of [text.lower()], differ from "ingredients" at two places at most
    (a missing letter counting as one). *)
Theorem X10_header_tolerates_two_misread_letters (text : str) :
  mismatches (s2l "ingredients")
             (firstn 11 (sub (Chr (cnot az)) (const_repl "") (lower_str text))) <= 2 ->
  RobustIngredientOCR._is_ingredient_header text = true.
Proof.
  intros H. unfold RobustIngredientOCR._is_ingredient_header.
  set (compact := sub (Chr (cnot az)) (const_repl "") (lower_str text)) in *.
  pose proof (mismatches_length (s2l "ingredients") (firstn 11 compact)) as L.
  pose proof (lcs_mismatches (s2l "ingredients") (firstn 11 compact)) as M.
  change (length (s2l "ingredients")) with 11 in L, M.
  destruct compact as [|c0 rest] eqn:Ec; [simpl in L, H; lia|].
  cbv zeta.
  destruct (contains (s2l "ingredient") (c0 :: rest)
            || contains (s2l "ingredients") (c0 :: rest))%bool; [reflexivity|].
  unfold ratio_at_least_073.
  change (length (s2l "ingredients")) with 11.
  destruct (firstn 11 (c0 :: rest)) as [|c1 f] eqn:Ef; [discriminate Ef|].
  change (s2l "ingredients") with ("i"%char :: s2l "ngredients") at 1.
  cbv beta iota. apply Nat.leb_le. lia.
Qed.

Lemma X10_header_tolerates_two_misread_letters_witness :
  mismatches (s2l "ingredients")
             (firstn 11 (sub (Chr (cnot az)) (const_repl "")
                             (lower_str (s2l "lNGREDlENTS: Aqua, Glycerin")))) <= 2
  /\ RobustIngredientOCR._is_ingredient_header (s2l "lNGREDlENTS: Aqua, Glycerin") = true.
Proof.
  assert (H : mismatches (s2l "ingredients")
                (firstn 11 (sub (Chr (cnot az)) (const_repl "")
                                (lower_str (s2l "lNGREDlENTS: Aqua, Glycerin")))) <= 2)
    by (vm_compute; lia).
  split; [exact H|].
  exact (X10_header_tolerates_two_misread_letters (s2l "lNGREDlENTS: Aqua, Glycerin") H).
Defined.

(** X11.  [_is_section_stop] looks for its keywords anywhere in the line,
    inside words too: a line that holds a stopping line as a contiguous
    part stops as well. *)
Theorem X11_section_stop_inside_words (a t b : str) :
  RobustIngredientOCR._is_section_stop t = true ->
  RobustIngredientOCR._is_section_stop (a ++ t ++ b) = true.
Proof.
  unfold RobustIngredientOCR._is_section_stop. intros H.
  rewrite !lower_str_app. apply existsb_contains_app. exact H.
Qed.

Lemma X11_section_stop_inside_words_witness :
  RobustIngredientOCR._is_section_stop (s2l "Exp") = true
  /\ RobustIngredientOCR._is_section_stop (s2l "D" ++ s2l "Exp" ++ s2l "anthenol") = true.
Proof.
  assert (H : RobustIngredientOCR._is_section_stop (s2l "Exp") = true) by reflexivity.
  split; [exact H|].
  exact (X11_section_stop_inside_words (s2l "D") (s2l "Exp") (s2l "anthenol") H).
Defined.

(** ** The text windows and the choice of the best candidate list *)

Section Windows.

Variable OCRLine : Type.
Variable text : OCRLine -> str.

Lemma nth_error_firstn_some {A} n : forall (l : list A) k x,
  nth_error (firstn n l) k = Some x -> nth_error l k = Some x /\ k < n.
Proof.
  induction n as [|n IH]; intros l k x H.
  - destruct k; discriminate H.
  - destruct l as [|y l]; [destruct k; discriminate H|].
    destruct k as [|k]; [simpl in *; split; [exact H|lia]|].
    simpl in H. apply IH in H. destruct H as [H1 H2]. split; [exact H1|lia].
Qed.

(** The followers a chunk takes: all of them up to the first one that is a
    section stop once the chunk has three lines. *)
Lemma followers_loop_spec followers : forall n,
  exists k,
    RobustIngredientOCR.followers_loop text n followers = map text (firstn k followers)
    /\ k <= length followers
    /\ Forall (fun l => RobustIngredientOCR._is_section_stop (text l) = false)
              (skipn (3 - n) (firstn k followers))
    /\ (k = length followers
        \/ (3 - n <= k
            /\ exists l, nth_error followers k = Some l
                         /\ RobustIngredientOCR._is_section_stop (text l) = true)).
Proof.
  induction followers as [|follower rest IH]; intros n.
  - exists 0. simpl. rewrite skipn_nil. repeat split; auto.
  - cbn [RobustIngredientOCR.followers_loop].
    destruct (RobustIngredientOCR._is_section_stop (text follower)) eqn:Es;
      [destruct (Nat.ltb 2 n) eqn:En|]; cbn [andb].
    + apply Nat.ltb_lt in En. exists 0. cbn [firstn map length]. rewrite skipn_nil.
      split; [reflexivity|]. split; [lia|]. split; [constructor|].
      right. split; [lia|]. exists follower. split; [reflexivity|exact Es].
    + apply Nat.ltb_ge in En. destruct (IH (S n)) as (k & E & L & F & C).
      exists (S k). cbn [firstn map length]. rewrite E.
      split; [reflexivity|]. split; [lia|]. split.
      * destruct (3 - n) as [|j] eqn:Ej; [lia|]. cbn [skipn].
        replace j with (3 - S n) by lia. exact F.
      * destruct C as [C|(C1 & l & C2 & C3)]; [left; lia|].
        right. split; [lia|]. exists l. split; [exact C2|exact C3].
    + destruct (IH (S n)) as (k & E & L & F & C).
      exists (S k). cbn [firstn map length]. rewrite E.
      split; [reflexivity|]. split; [lia|]. split.
      * destruct (3 - n) as [|j] eqn:Ej.
        -- cbn [skipn]. constructor; [exact Es|].
           replace (3 - S n) with 0 in F by lia. exact F.
        -- cbn [skipn]. replace j with (3 - S n) by lia. exact F.
      * destruct C as [C|(C1 & l & C2 & C3)]; [left; lia|].
        right. split; [lia|]. exists l. split; [exact C2|exact C3].
Qed.

Lemma header_chunks_spec lines :
  Forall (chunk_extent text lines) (RobustIngredientOCR.header_chunks text lines).
Proof.
  assert (G : forall before lines0,
             lines = before ++ lines0 ->
             Forall (chunk_extent text lines) (RobustIngredientOCR.header_chunks text lines0)).
  2:{ apply (G []). reflexivity. }
  intros before lines0. revert before.
  induction lines0 as [|line rest IH]; intros before E; [constructor|].
  cbn [RobustIngredientOCR.header_chunks]. apply Forall_app. split.
  - destruct (RobustIngredientOCR._is_ingredient_header (text line)) eqn:Eh; [|constructor].
    constructor; [|constructor].
    destruct (followers_loop_spec (firstn 44 rest) 1) as (k & Ek & L & F & C).
    rewrite length_firstn in L, C.
    assert (Kf : firstn k (firstn 44 rest) = firstn k rest).
    { rewrite firstn_firstn. f_equal. lia. }
    rewrite Kf in *.
    exists before, line, rest, k.
    split; [exact E|]. split; [exact Eh|]. split; [cbn [map]; rewrite Ek; reflexivity|].
    split; [lia|]. split; [exact F|].
    destruct C as [C|(C1 & l & C2 & C3)]; [left; exact C|].
    right. apply nth_error_firstn_some in C2. destruct C2 as [C2 C4].
    split; [lia|]. split; [exact C4|]. exists l. auto.
  - apply (IH (before ++ [line])). rewrite <- app_assoc. exact E.
Qed.

Lemma header_chunks_length lines :
  length (RobustIngredientOCR.header_chunks text lines)
  = length (filter (fun l => RobustIngredientOCR._is_ingredient_header (text l)) lines).
Proof.
  induction lines as [|line rest IH]; [reflexivity|].
  cbn [RobustIngredientOCR.header_chunks filter]. rewrite length_app, IH.
  destruct (RobustIngredientOCR._is_ingredient_header (text line)); reflexivity.
Qed.

End Windows.

(** ** The order on the candidate lists *)

Lemma key_ltb_lt a b :
  key_ltb a b = true <-> fst a < fst b \/ (fst a = fst b /\ snd a < snd b).
Proof.
  unfold key_ltb. rewrite orb_true_iff, andb_true_iff, !Nat.ltb_lt, Nat.eqb_eq.
  reflexivity.
Qed.

Lemma key_ltb_ge a b :
  key_ltb a b = false <-> fst b < fst a \/ (fst a = fst b /\ snd b <= snd a).
Proof.
  rewrite <- not_true_iff_false, key_ltb_lt. lia.
Qed.

(** The head of the sorted list: the first of the lists with the greatest
    key. *)
Lemma sort_desc_head (candidate_lists : list (list str)) :
  match sort_desc candidate_lists with
  | [] => candidate_lists = []
  | best :: _ =>
      exists before after,
        candidate_lists = before ++ best :: after
        /\ Forall (fun x => key_ltb (candidate_key x) (candidate_key best) = true) before
        /\ Forall (fun x => key_ltb (candidate_key best) (candidate_key x) = false) after
  end.
Proof.
  induction candidate_lists as [|x l IH]; [reflexivity|].
  cbn [sort_desc fold_right]. fold (sort_desc l).
  destruct (sort_desc l) as [|y ys].
  - subst l. cbn [insert_desc]. exists [], []. repeat split; constructor.
  - destruct IH as (b & a & El & Fb & Fa). cbn [insert_desc].
    destruct (key_ltb (candidate_key x) (candidate_key y)) eqn:E.
    + exists (x :: b), a. rewrite El. split; [reflexivity|].
      split; [constructor; assumption|exact Fa].
    + exists [], l. split; [reflexivity|]. split; [constructor|].
      rewrite El. apply key_ltb_ge in E. apply Forall_app. split.
      * eapply Forall_impl; [|exact Fb]. cbv beta. intros z Hz.
        apply key_ltb_lt in Hz. apply key_ltb_ge. lia.
      * constructor; [apply key_ltb_ge; lia|].
        eapply Forall_impl; [|exact Fa]. cbv beta. intros z Hz.
        apply key_ltb_ge in Hz. apply key_ltb_ge. lia.
Qed.

Lemma filter_map_split {A B} (p : B -> bool) (f : A -> B) : forall ws b x a,
  filter p (map f ws) = b ++ x :: a ->
  exists before w after,
    ws = before ++ w :: after /\ f w = x
    /\ filter p (map f before) = b /\ filter p (map f after) = a.
Proof.
  induction ws as [|w0 ws IH]; intros b x a H.
  - destruct b; discriminate H.
  - cbn [map filter] in H. destruct (p (f w0)) eqn:E.
    + destruct b as [|b0 b].
      * inversion H; subst. exists [], w0, ws. repeat split; reflexivity.
      * inversion H; subst. destruct (IH _ _ _ H2) as (bf & w & af & Ew & Ef & Eb & Ea).
        exists (w0 :: bf), w, af. rewrite Ew. cbn [map filter app]. rewrite E, Eb.
        repeat split; auto.
    + destruct (IH _ _ _ H) as (bf & w & af & Ew & Ef & Eb & Ea).
      exists (w0 :: bf), w, af. rewrite Ew. cbn [map filter app]. rewrite E.
      repeat split; auto.
Qed.

Lemma filter_map_nil {A B} (p : B -> bool) (f : A -> B) (ws : list A) :
  filter p (map f ws) = [] -> Forall (fun w => p (f w) = false) ws.
Proof.
  induction ws as [|w ws IH]; intros H; [constructor|].
  cbn [map filter] in H. destruct (p (f w)) eqn:E; [discriminate H|].
  constructor; [exact E|apply IH; exact H].
Qed.

(** X12.  [_build_text_windows], given at least one line, returns one
    window for each header line and, last, the window of the whole text:
    all the lines joined by single spaces. *)
Theorem X12_whole_text_is_the_last_window
    (OCRLine : Type) (text : OCRLine -> str) (sorted_lines : list OCRLine) :
  sorted_lines <> [] ->
  length (RobustIngredientOCR._build_text_windows text sorted_lines)
  = S (length (filter (fun l => RobustIngredientOCR._is_ingredient_header (text l))
                      sorted_lines))
  /\ last (RobustIngredientOCR._build_text_windows text sorted_lines) []
     = join_sp (map text sorted_lines).
Proof.
  intros N. unfold RobustIngredientOCR._build_text_windows.
  destruct sorted_lines as [|l0 ls]; [contradiction|].
  split.
  - rewrite length_app, length_map, header_chunks_length. simpl. lia.
  - apply last_last.
Qed.

Lemma X12_whole_text_is_the_last_window_witness :
  map s2l ["Ingredients:"; "Aqua, Glycerin"]%string <> []
  /\ length (RobustIngredientOCR._build_text_windows (fun l : str => l)
               (map s2l ["Ingredients:"; "Aqua, Glycerin"]%string))
     = S (length (filter (fun l => RobustIngredientOCR._is_ingredient_header l)
                         (map s2l ["Ingredients:"; "Aqua, Glycerin"]%string)))
  /\ last (RobustIngredientOCR._build_text_windows (fun l : str => l)
             (map s2l ["Ingredients:"; "Aqua, Glycerin"]%string)) []
     = join_sp (map (fun l : str => l) (map s2l ["Ingredients:"; "Aqua, Glycerin"]%string)).
Proof.
  assert (H : map s2l ["Ingredients:"; "Aqua, Glycerin"]%string <> []) by discriminate.
  split; [exact H|].
  exact (X12_whole_text_is_the_last_window str (fun l : str => l)
           (map s2l ["Ingredients:"; "Aqua, Glycerin"]%string) H).
Defined.

(** X13.  Every window of [_build_text_windows] but the last is a header
    line joined with its first [k] followers, [k] at most 44: the first two
    followers are always taken, none of the later ones taken is a section
    stop, and the window ends before its time only at a follower that is a
    section stop. *)
Theorem X13_header_window_extent
    (OCRLine : Type) (text : OCRLine -> str) (sorted_lines : list OCRLine) (window : str) :
  In window (removelast (RobustIngredientOCR._build_text_windows text sorted_lines)) ->
  exists before line rest k,
    sorted_lines = before ++ line :: rest
    /\ RobustIngredientOCR._is_ingredient_header (text line) = true
    /\ window = join_sp (map text (line :: firstn k rest))
    /\ k <= 44
    /\ Forall (fun l => RobustIngredientOCR._is_section_stop (text l) = false)
              (skipn 2 (firstn k rest))
    /\ (k = Nat.min 44 (length rest)
        \/ (2 <= k /\ k < 44
            /\ exists l, nth_error rest k = Some l
                         /\ RobustIngredientOCR._is_section_stop (text l) = true)).
Proof.
  unfold RobustIngredientOCR._build_text_windows.
  destruct sorted_lines as [|l0 ls]; [intros []|].
  rewrite removelast_last. intros H. apply in_map_iff in H.
  destruct H as (chunk & Ew & Hc).
  pose proof (header_chunks_spec OCRLine text (l0 :: ls)) as F.
  rewrite Forall_forall in F. destruct (F chunk Hc) as (before & line & rest & k & E1 & E2 & E3 & R).
  exists before, line, rest, k. split; [exact E1|]. split; [exact E2|].
  split; [rewrite <- E3; symmetry; exact Ew|exact R].
Qed.

Lemma X13_header_window_extent_witness :
  let lines := map s2l ["Ingredients:"; "Aqua,"; "Glycerin"; "Warning: keep dry"]%string in
  In (s2l "Ingredients: Aqua, Glycerin")
     (removelast (RobustIngredientOCR._build_text_windows (fun l : str => l) lines))
  /\ exists before line rest k,
       lines = before ++ line :: rest
       /\ RobustIngredientOCR._is_ingredient_header line = true
       /\ s2l "Ingredients: Aqua, Glycerin" = join_sp (map (fun l : str => l) (line :: firstn k rest))
       /\ k <= 44
       /\ Forall (fun l => RobustIngredientOCR._is_section_stop l = false)
                 (skipn 2 (firstn k rest))
       /\ (k = Nat.min 44 (length rest)
           \/ (2 <= k /\ k < 44
               /\ exists l, nth_error rest k = Some l
                            /\ RobustIngredientOCR._is_section_stop l = true)).
Proof.
  intros lines.
  assert (H : In (s2l "Ingredients: Aqua, Glycerin")
                (removelast (RobustIngredientOCR._build_text_windows (fun l : str => l) lines)))
    by (vm_compute; left; reflexivity).
  split; [exact H|].
  exact (X13_header_window_extent str (fun l : str => l) lines
           (s2l "Ingredients: Aqua, Glycerin") H).
Defined.

(** X14.  [extract_ingredient_candidates] returns the empty list exactly
    when no window parses to a token; otherwise it returns what the parser
    makes of one window, the first among those whose list has the most
    tokens and, for as many tokens, the most characters. *)
Theorem X14_first_longest_candidate
    (OCRLine : Type) (text : OCRLine -> str) (lines : list OCRLine) :
  (RobustIngredientOCR.extract_ingredient_candidates text lines = []
   /\ Forall (fun w => parse_ingredients_from_ocr w = [])
             (RobustIngredientOCR._build_text_windows text lines))
  \/ (RobustIngredientOCR.extract_ingredient_candidates text lines <> []
      /\ exists before window after,
           RobustIngredientOCR._build_text_windows text lines = before ++ window :: after
           /\ parse_ingredients_from_ocr window
              = RobustIngredientOCR.extract_ingredient_candidates text lines
           /\ Forall (fun w =>
                        key_ltb (candidate_key (parse_ingredients_from_ocr w))
                                (candidate_key (parse_ingredients_from_ocr window)) = true)
                     before
           /\ Forall (fun w =>
                        key_ltb (candidate_key (parse_ingredients_from_ocr window))
                                (candidate_key (parse_ingredients_from_ocr w)) = false)
                     after).
Proof.
  unfold RobustIngredientOCR.extract_ingredient_candidates.
  set (windows := RobustIngredientOCR._build_text_windows text lines).
  set (nonempty := fun parsed : list str => match parsed with [] => false | _ => true end).
  pose proof (sort_desc_head (filter nonempty (map parse_ingredients_from_ocr windows))) as H.
  destruct (sort_desc (filter nonempty (map parse_ingredients_from_ocr windows)))
    as [|best tl].
  - left. split; [reflexivity|]. apply filter_map_nil in H.
    eapply Forall_impl; [|exact H]. cbv beta. intros w Hw.
    destruct (parse_ingredients_from_ocr w); [reflexivity|discriminate Hw].
  - right. destruct H as (b & a & E & Fb & Fa).
    assert (Nb : nonempty best = true).
    { assert (I : In best (filter nonempty (map parse_ingredients_from_ocr windows)))
        by (rewrite E; apply in_or_app; right; left; reflexivity).
      apply filter_In in I. exact (proj2 I). }
    assert (Kb : 1 <= fst (candidate_key best)).
    { destruct best; [discriminate Nb|]. simpl. lia. }
    split; [destruct best; [discriminate Nb|discriminate]|].
    apply filter_map_split in E. destruct E as (before & w & after & Ew & Ef & Eb & Ea).
    exists before, w, after. split; [exact Ew|]. split; [exact Ef|]. rewrite Ef.
    rewrite Forall_forall in Fb, Fa. split; apply Forall_forall; intros w' Hw'.
    + destruct (nonempty (parse_ingredients_from_ocr w')) eqn:En.
      * apply Fb. rewrite <- Eb. apply filter_In. split; [|exact En].
        apply in_map. exact Hw'.
      * destruct (parse_ingredients_from_ocr w'); [|discriminate En].
        apply key_ltb_lt. unfold candidate_key in Kb |- *.
        cbn [fst snd length] in Kb |- *. lia.
    + destruct (nonempty (parse_ingredients_from_ocr w')) eqn:En.
      * apply Fa. rewrite <- Ea. apply filter_In. split; [|exact En].
        apply in_map. exact Hw'.
      * destruct (parse_ingredients_from_ocr w'); [|discriminate En].
        apply key_ltb_ge. unfold candidate_key in Kb |- *.
        cbn [fst snd length] in Kb |- *. lia.
Qed.

(** ** Inside a token of [parse_ingredients_from_ocr] *)

Lemma unconfuse_single_spaced x :
  is_space x = false ->
  forall s b, single_spaced b (unconfuse x s) = single_spaced b s.
Proof.
  intros Hx s. remember (length s) as n eqn:En. revert s En.
  induction n as [n IH] using lt_wf_ind. intros s En b0.
  destruct s as [|a [|b [|d t]]]; try reflexivity.
  rewrite unconfuse_cons. destruct (alpha a && Ascii.eqb b x && d09 d)%bool eqn:E.
  - apply andb_true_iff in E. destruct E as [E _].
    apply andb_true_iff in E. destruct E as [_ E]. apply Ascii.eqb_eq in E. subst b.
    assert (K : forall b1, single_spaced b1 (d :: unconfuse x t) = single_spaced b1 (d :: t)).
    { intros b1. cbn [single_spaced].
      rewrite !(IH (length t) ltac:(simpl in En; lia) t eq_refl). reflexivity. }
    cbn [single_spaced] in K |- *. rewrite Hx.
    change (is_space "-"%char) with false. cbv iota.
    rewrite (K false). reflexivity.
  - cbn [single_spaced].
    rewrite !(IH (length (b :: d :: t)) ltac:(simpl in *; lia) (b :: d :: t) eq_refl).
    reflexivity.
Qed.

Lemma clean_single_spaced ing : single_spaced false (clean ing) = true.
Proof.
  rewrite clean_spec, !unconfuse_single_spaced by reflexivity.
  apply squeeze_single_spaced.
Qed.

Lemma rendered_keeps_out (q : cclass) t s :
  q " "%char = false -> q "."%char = false -> q "-"%char = false ->
  rsub rendered t s ->
  Forall (fun c => q c = false) s -> Forall (fun c => q c = false) t.
Proof.
  intros Q1 Q2 Q3. induction 1 as [s|t c s H IH|x t c s Hc H IH]; intros F.
  - constructor.
  - inversion F; subst. apply IH. assumption.
  - inversion F; subst. constructor; [|apply IH; assumption].
    destruct Hc as [->|[[_ ->]|[[_ ->]|[_ ->]]]]; assumption.
Qed.

Lemma subseq_keeps_out {A} (Q : A -> Prop) (t s : list A) :
  subseq t s -> Forall Q s -> Forall Q t.
Proof.
  rewrite !Forall_forall. intros H F x Hx. apply F. eapply subseq_in; eauto.
Qed.

Lemma count_zero_forall q s : count q s = 0 -> Forall (fun c => q c = false) s.
Proof.
  induction s as [|c t IH]; [constructor|]. rewrite count_cons.
  destruct (q c) eqn:E; [discriminate|]. intros H. constructor; [exact E|apply IH; exact H].
Qed.

(** The pieces of a normalized text hold no comma, semicolon or colon. *)
Lemma segment_no_separators text piece :
  In piece (segment (normalize text)) -> Forall (fun c => comma_like c = false) piece.
Proof.
  unfold segment. intros H. apply in_flat_map in H. destruct H as (item & Hi & Hs).
  destruct (Nat.leb (length item) 2); [contradiction|].
  apply segment_item_rendered in Hs.
  apply in_map_iff in Hi. destruct Hi as (field & <- & Hf).
  apply split_on_fields in Hf. destruct Hf as [Hf Hc].
  apply (rendered_keeps_out comma_like _ _ eq_refl eq_refl eq_refl Hs).
  apply (subseq_keeps_out _ _ _ (subseq_strip field)).
  pose proof (count_zero_forall _ _ (normalize_no_separators text)) as Z.
  pose proof (subseq_keeps_out _ _ _ Hf Z) as Zf.
  rewrite Forall_forall in Zf |- *. intros c Hin. specialize (Zf c Hin).
  unfold comma_like, one_of in *. cbn [s2l list_ascii_of_string existsb] in *.
  destruct (Ascii.eqb c ",") eqn:E; [|exact Zf].
  apply Ascii.eqb_eq in E. subst c. contradiction.
Qed.

(** ** The span is cut out of the text *)

Lemma factor_of_refl (s : str) : factor_of s s.
Proof. exists [], []. rewrite app_nil_r. reflexivity. Qed.

Lemma factor_of_nil (s : str) : factor_of [] s.
Proof. exists [], s. reflexivity. Qed.

Lemma factor_of_trans (a b c : str) : factor_of a b -> factor_of b c -> factor_of a c.
Proof.
  intros (x & y & ->) (u & v & ->). exists (u ++ x), (y ++ v).
  rewrite <- !app_assoc. reflexivity.
Qed.

Lemma factor_of_strip (s : str) : factor_of (strip s) s.
Proof.
  destruct (lstrip_suffix s) as (w & E & _).
  destruct (rstrip_prefix (lstrip s)) as (w' & E' & _).
  exists w, w'. unfold strip. rewrite <- E'. exact E.
Qed.

Lemma factor_of_length (t s : str) : factor_of t s -> length t <= length s.
Proof. intros (a & b & ->). rewrite !length_app. lia. Qed.

(** During a match the subject does not change, and every group holds a
    contiguous part of it. *)
Lemma matches_caps_factor r st st' :
  matches r st st' ->
  forall subject,
    rev (ms_pre st) ++ ms_rest st = subject ->
    (forall j, factor_of (ms_caps st j) subject) ->
    rev (ms_pre st') ++ ms_rest st' = subject
    /\ forall j, factor_of (ms_caps st' j) subject.
Proof.
  induction 1 as [st|p c pre t cs Hp|a b st1 st2 st3 H1 IH1 H2 IH2|a b st st' H IH
                  |a b st st' H IH|g p pre m rest cs Hm|i a st st' H IH|st H|st H|st H
                  |st H|a st st' H IH]; intros subject Es Fc; cbn [ms_pre ms_rest ms_caps] in *;
    try (split; assumption).
  - split; [|exact Fc]. rewrite <- Es. cbn [rev]. rewrite <- app_assoc. reflexivity.
  - destruct (IH1 subject Es Fc) as [E2 F2]. apply (IH2 subject E2 F2).
  - apply (IH subject Es Fc).
  - apply (IH subject Es Fc).
  - split; [|exact Fc]. rewrite <- Es, rev_app_distr, rev_involutive, <- app_assoc.
    reflexivity.
  - destruct (IH subject Es Fc) as [E2 F2]. split; [exact E2|].
    intros j. unfold set_cap. destruct (Nat.eqb j i); [|apply F2].
    exists (rev (ms_pre st)), (ms_rest st').
    rewrite <- Es. f_equal. exact (matches_consumed_eq _ _ _ H).
Qed.

Lemma search_from_caps_factor r : forall rest pre i n cs j,
  search_from r pre rest = Some (i, n, cs) -> factor_of (cs j) (rev pre ++ rest).
Proof.
  induction rest as [|c t IH]; intros pre i n cs j H; cbn [search_from] in H.
  - destruct (match_at r pre []) as [[k cs']|] eqn:E; [|discriminate H].
    inversion H; subst. apply match_at_matches in E.
    destruct E as (st' & Hm & _ & ->).
    apply (matches_caps_factor _ _ _ Hm (rev pre ++ []) eq_refl).
    intros j'. apply factor_of_nil.
  - destruct (match_at r pre (c :: t)) as [[k cs']|] eqn:E.
    + inversion H; subst. apply match_at_matches in E.
      destruct E as (st' & Hm & _ & ->).
      apply (matches_caps_factor _ _ _ Hm (rev pre ++ c :: t) eq_refl).
      intros j'. apply factor_of_nil.
    + apply IH with (j := j) in H. cbn [rev] in H. rewrite <- app_assoc in H. exact H.
Qed.

Lemma first_section_factor ps ocr_text section :
  first_section ps ocr_text = Some section -> factor_of section ocr_text.
Proof.
  induction ps as [|p ps IH]; cbn [first_section]; [discriminate|].
  destruct (search p ocr_text) as [[[i n] cs]|] eqn:E; [|exact IH].
  intros H. inversion H; subst.
  apply (factor_of_trans _ (cs 1)); [apply factor_of_strip|].
  apply (search_from_caps_factor p ocr_text [] i n cs 1 E).
Qed.

(** ** The fields of [re.split] on runs of one class *)

Lemma split_plus_fields p : forall rest cur pre w,
  In w (split_from (Plus true p) false 0 cur pre rest) ->
  forallb (cnot p) cur = true ->
  (exists a b, rev cur ++ rest = a ++ w ++ b) /\ forallb (cnot p) w = true.
Proof.
  intros rest. remember (length rest) as n eqn:En. revert rest En.
  induction n as [n IH] using lt_wf_ind. intros rest En cur pre w H Hc.
  assert (Rc : forallb (cnot p) (rev cur) = true).
  { rewrite forallb_forall in *. intros x Hx. apply Hc. apply in_rev. exact Hx. }
  destruct rest as [|c t].
  - cbn [split_from] in H. rewrite match_at_plus in H. destruct H as [<-|[]].
    split; [|exact Rc]. exists [], []. rewrite !app_nil_r. reflexivity.
  - cbn [split_from] in H. rewrite match_at_plus in H. destruct (p c) eqn:Ep.
    + cbn [app] in H. destruct H as [<-|H].
      * split; [|exact Rc]. exists [], (c :: t). reflexivity.
      * rewrite split_from_skip in H by (rewrite <- (run_after p t) at 2;
                                         rewrite length_app; lia).
        rewrite skipn_run in H.
        apply (IH (length (after p t))) in H;
          [|pose proof (after_length p t); simpl in En; lia|reflexivity|reflexivity].
        destruct H as [(a & b & E) Hw]. split; [|exact Hw].
        cbn [rev app] in E. exists (rev cur ++ c :: run p t ++ a), b.
        rewrite <- (run_after p t) at 1. rewrite E. app_norm. reflexivity.
    + apply (IH (length t)) in H; [|simpl in En; lia|reflexivity|].
      * destruct H as [(a & b & E) Hw]. split; [|exact Hw].
        exists a, b. rewrite <- E. cbn [rev]. rewrite <- app_assoc. reflexivity.
      * cbn [forallb]. unfold cnot at 1. rewrite Ep. exact Hc.
Qed.

(** X15.  Inside a token of [parse_ingredients_from_ocr] there is no comma,
    semicolon or colon, and no whitespace but single spaces. *)
Theorem X15_token_interior (ocr_text tok : str) :
  In tok (parse_ingredients_from_ocr ocr_text) ->
  Forall (fun c => comma_like c = false) tok /\ single_spaced false tok = true.
Proof.
  unfold parse_ingredients_from_ocr, parse_span, clean_all.
  destruct ocr_text as [|c0 t0]; [intros []|].
  intros H. apply filter_In in H. destruct H as [H _].
  apply in_map_iff in H. destruct H as (ing & <- & Hi).
  split; [|apply clean_single_spaced].
  apply (rendered_keeps_out comma_like _ _ eq_refl eq_refl eq_refl (clean_rendered ing)).
  eapply segment_no_separators. exact Hi.
Qed.

Lemma X15_token_interior_witness :
  In (s2l "Cetyl Alcohol")
     (parse_ingredients_from_ocr (s2l "Ingredients: Aqua;  Cetyl   Alcohol: Glycerin."))
  /\ Forall (fun c => comma_like c = false) (s2l "Cetyl Alcohol")
  /\ single_spaced false (s2l "Cetyl Alcohol") = true.
Proof.
  assert (H : In (s2l "Cetyl Alcohol")
                (parse_ingredients_from_ocr
                   (s2l "Ingredients: Aqua;  Cetyl   Alcohol: Glycerin.")))
    by (vm_compute; right; left; reflexivity).
  split; [exact H|].
  exact (X15_token_interior (s2l "Ingredients: Aqua;  Cetyl   Alcohol: Glycerin.")
           (s2l "Cetyl Alcohol") H).
Defined.

(** X16.  The span that [parse_ingredients_from_ocr] parses is cut out of
    the text: [extract_span] returns a contiguous part of the text, and an
    empty one for the empty text only. *)
Theorem X16_span_is_part_of_the_text (ocr_text : str) :
  factor_of (extract_span ocr_text) ocr_text
  /\ (extract_span ocr_text = [] <-> ocr_text = []).
Proof.
  assert (F : factor_of (extract_span ocr_text) ocr_text).
  { unfold extract_span.
    destruct (first_section ingredient_patterns ocr_text) as [[|c t]|] eqn:E;
      try apply factor_of_refl.
    apply first_section_factor in E. exact E. }
  split; [exact F|]. split.
  - unfold extract_span.
    destruct (first_section ingredient_patterns ocr_text) as [[|c t]|]; auto. discriminate.
  - intros ->. apply factor_of_length in F. destruct (extract_span []); [reflexivity|].
    simpl in F. lia.
Qed.

(** X17.  The fragments that [smart_analyze] looks up when a token has no
    exact match are cut out of the token: each is a contiguous part of it
    with at least three characters and no whitespace, comma, slash or
    hyphen, and none is "and", "with", "plus" or "the" in any case. *)
Theorem X17_fragments_of_a_token (ingredient w : str) :
  In w (words_of ingredient) ->
  factor_of w ingredient
  /\ 3 <= length w
  /\ forallb (cnot (cor is_space (one_of ",/-"))) w = true
  /\ ~ In (lower_str w) (map s2l stop_words).
Proof.
  unfold words_of. intros H. apply filter_In in H. destruct H as [H C].
  apply andb_true_iff in C. destruct C as [C1 C2].
  apply Nat.ltb_lt in C1. apply negb_true_iff in C2.
  apply split_plus_fields in H; [|reflexivity]. destruct H as [(a & b & E) Hw].
  split; [exists a, b; exact E|]. split; [lia|]. split; [exact Hw|].
  intros I. apply existsb_str_eqb in I. congruence.
Qed.

Lemma X17_fragments_of_a_token_witness :
  In (s2l "Lauryl") (words_of (s2l "Sodium-Lauryl Sulfate/the Oil"))
  /\ factor_of (s2l "Lauryl") (s2l "Sodium-Lauryl Sulfate/the Oil")
  /\ 3 <= length (s2l "Lauryl")
  /\ forallb (cnot (cor is_space (one_of ",/-"))) (s2l "Lauryl") = true
  /\ ~ In (lower_str (s2l "Lauryl")) (map s2l stop_words).
Proof.
  assert (H : In (s2l "Lauryl") (words_of (s2l "Sodium-Lauryl Sulfate/the Oil")))
    by (vm_compute; right; left; reflexivity).
  split; [exact H|].
  exact (X17_fragments_of_a_token (s2l "Sodium-Lauryl Sulfate/the Oil") (s2l "Lauryl") H).
Defined.

(** ** [fix_hyphenated_words] *)

(** A match of [(\w+)\s*-\s*(\w+)]: group 1, whitespace, a hyphen,
    whitespace, group 2. *)
Lemma inner_hyphen_shape pre rest n cs :
  match_at re_inner_hyphen pre rest = Some (n, cs) ->
  exists g1 w1 w2 g2 rest',
    rest = g1 ++ w1 ++ "-"%char :: w2 ++ g2 ++ rest'
    /\ n = length (g1 ++ w1 ++ "-"%char :: w2 ++ g2)
    /\ cs 1 = g1 /\ cs 2 = g2
    /\ forallb is_space w1 = true /\ forallb is_space w2 = true.
Proof.
  intros H. apply match_at_matches in H.
  destruct H as (st' & H & En & Ec).
  unfold re_inner_hyphen, Plus in H. cbn [seqs] in H.
  invert_matches. cbn [ms_rest ms_pre ms_caps] in *.
  rewrite !consumed_cons_app. char_facts.
  exists (c :: m), m2, m1, (c0 :: m0), rest0.
  assert (E : c :: m ++ m2 ++ "-"%char :: m1 ++ c0 :: m0 ++ rest0
              = ((c :: m) ++ m2 ++ "-"%char :: m1 ++ c0 :: m0) ++ rest0).
  { app_norm. reflexivity. }
  split; [rewrite E; app_norm; reflexivity|].
  split; [rewrite E, length_app; lia|].
  split; [reflexivity|]. split; [reflexivity|]. split; assumption.
Qed.

Lemma inner_hyphen_needs_hyphen pre rest :
  ~ In "-"%char rest -> match_at re_inner_hyphen pre rest = None.
Proof.
  intros N. destruct (match_at re_inner_hyphen pre rest) as [[n cs]|] eqn:E; [|reflexivity].
  apply inner_hyphen_shape in E. destruct E as (g1 & w1 & w2 & g2 & rest' & -> & _).
  exfalso. apply N. apply in_or_app. right. apply in_or_app. right. left. reflexivity.
Qed.

Lemma never_empty_inner_hyphen : never_empty re_inner_hyphen.
Proof.
  intros pre rest cs H. apply inner_hyphen_shape in H.
  destruct H as (g1 & w1 & w2 & g2 & rest' & _ & E & _).
  rewrite !length_app in E. simpl in E. lia.
Qed.

Lemma filter_spaces_out (w : str) :
  forallb is_space w = true -> filter (cnot (cor is_space (is_char "-"))) w = [].
Proof.
  induction w as [|c w IH]; [reflexivity|]. cbn [forallb filter]. intros H.
  apply andb_true_iff in H. destruct H as [Hc Hw].
  unfold cnot at 1, cor at 1. rewrite Hc. cbn [orb negb]. apply IH. exact Hw.
Qed.

(** The substitution of [fix_hyphenated_words] removes hyphens and
    whitespace only. *)
Lemma sub_inner_hyphen_letters (s : str) :
  filter (cnot (cor is_space (is_char "-"))) (sub re_inner_hyphen repl_12 s)
  = filter (cnot (cor is_space (is_char "-"))) s.
Proof.
  unfold sub.
  apply (sub_from_ind re_inner_hyphen repl_12
           (fun rest out => filter (cnot (cor is_space (is_char "-"))) out
                            = filter (cnot (cor is_space (is_char "-"))) rest)).
  - apply never_empty_inner_hyphen.
  - reflexivity.
  - intros c t out H. cbn [filter]. rewrite H. reflexivity.
  - intros pre m t cs out _ E H. apply inner_hyphen_shape in E.
    destruct E as (g1 & w1 & w2 & g2 & rest' & E & L & C1 & C2 & W1 & W2).
    replace (g1 ++ w1 ++ "-"%char :: w2 ++ g2 ++ rest')
      with ((g1 ++ w1 ++ "-"%char :: w2 ++ g2) ++ rest') in E by (app_norm; reflexivity).
    destruct (app_eq_length _ _ _ _ E L) as [-> _].
    unfold repl_12. rewrite C1, C2, !filter_app, H. cbn [filter].
    rewrite !filter_app, (filter_spaces_out _ W1), (filter_spaces_out _ W2).
    change (cnot (cor is_space (is_char "-")) "-"%char) with false. cbv iota.
    rewrite <- !app_assoc. reflexivity.
Qed.

Lemma sub_inner_hyphen_fixed (s : str) :
  ~ In "-"%char s -> sub re_inner_hyphen repl_12 s = s.
Proof.
  intros N. apply sub_from_no_match. intros pre' m t E.
  apply inner_hyphen_needs_hyphen. intros C. apply N. rewrite E.
  apply in_or_app. right. exact C.
Qed.

Lemma ends_with_hyphen_last (current : str) :
  ends_with_hyphen current = true -> current = removelast current ++ ["-"%char].
Proof.
  unfold ends_with_hyphen. intros H.
  destruct current as [|c0 t0] using rev_ind; [discriminate H|].
  rewrite rev_app_distr in H. cbn [rev app] in H. apply Ascii.eqb_eq in H. subst.
  rewrite removelast_last. reflexivity.
Qed.

Lemma ends_with_hyphen_in (current : str) :
  ends_with_hyphen current = true -> In "-"%char current.
Proof.
  intros H. rewrite (ends_with_hyphen_last _ H). apply in_or_app. right. left. reflexivity.
Qed.

Lemma fix_hyphenated_words_cons current rest :
  fix_hyphenated_words (current :: rest)
  = if ends_with_hyphen current
    then match rest with
         | next :: rest' => (removelast current ++ next) :: fix_hyphenated_words rest'
         | [] => [sub re_inner_hyphen repl_12 current]
         end
    else sub re_inner_hyphen repl_12 current :: fix_hyphenated_words rest.
Proof. reflexivity. Qed.

(** ** [remove_non_ingredients] *)

Lemma unique_from_fixed : forall l seen,
  NoDup (map lower_str l) ->
  (forall x, In x l -> ~ In (lower_str x) seen) ->
  unique_from seen l = l.
Proof.
  induction l as [|ing rest IH]; intros seen D S; [reflexivity|].
  cbn [unique_from]. cbn [map] in D. inversion D as [|y ys Hn Hd]; subst.
  destruct (existsb (str_eqb (lower_str ing)) seen) eqn:E.
  - apply existsb_str_eqb in E. exfalso. apply (S ing); [left; reflexivity|exact E].
  - f_equal. apply IH; [exact Hd|]. intros x Hx [C|C].
    + apply Hn. rewrite C. apply in_map. exact Hx.
    + apply (S x); [right; exact Hx|exact C].
Qed.

Lemma filter_filter {A} (p : A -> bool) (l : list A) : filter p (filter p l) = filter p l.
Proof.
  induction l as [|x l IH]; [reflexivity|]. cbn [filter].
  destruct (p x) eqn:E; [cbn [filter]; rewrite E, IH; reflexivity|exact IH].
Qed.

(** X18.  [fix_hyphenated_words] loses nothing but hyphens and whitespace:
    the other characters of the entries come out as they went in, in the
    same order; and it returns at least half as many entries as it was
    given, and no more. *)
Theorem X18_fix_hyphenated_words_keeps_the_letters (ingredients_list : list str) :
  filter (cnot (cor is_space (is_char "-"))) (concat (fix_hyphenated_words ingredients_list))
  = filter (cnot (cor is_space (is_char "-"))) (concat ingredients_list)
  /\ length (fix_hyphenated_words ingredients_list) <= length ingredients_list
  /\ length ingredients_list <= 2 * length (fix_hyphenated_words ingredients_list).
Proof.
  set (P := fun l : list str =>
              filter (cnot (cor is_space (is_char "-"))) (concat (fix_hyphenated_words l))
              = filter (cnot (cor is_space (is_char "-"))) (concat l)
              /\ length (fix_hyphenated_words l) <= length l
              /\ length l <= 2 * length (fix_hyphenated_words l)).
  assert (G : forall l, P l /\ forall x, P (x :: l)).
  2:{ apply (G ingredients_list). }
  induction l as [|y l [IH1 IH2]].
  - split; [repeat split; simpl; lia|].
    intros x. unfold P. rewrite fix_hyphenated_words_cons.
    destruct (ends_with_hyphen x); cbn [concat length];
      rewrite !app_nil_r, sub_inner_hyphen_letters; repeat split; simpl; lia.
  - split; [apply IH2|]. intros x. unfold P. rewrite fix_hyphenated_words_cons.
    destruct (ends_with_hyphen x) eqn:E.
    + destruct IH1 as (F & L1 & L2). cbn [concat length].
      split; [|split; lia].
      rewrite (ends_with_hyphen_last _ E) at 2.
      rewrite !filter_app, F. cbn [filter].
      change (cnot (cor is_space (is_char "-")) "-"%char) with false. cbv iota.
      rewrite app_nil_r, <- !app_assoc. reflexivity.
    + destruct (IH2 y) as (F & L1 & L2). cbn [concat length] in *.
      split; [|split; lia].
      rewrite !filter_app, sub_inner_hyphen_letters. f_equal.
      rewrite <- filter_app. exact F.
Qed.

(** X19.  [fix_hyphenated_words] leaves a list without hyphens as it is. *)
Theorem X19_without_hyphens_nothing_changes (ingredients_list : list str) :
  Forall (fun ing => ~ In "-"%char ing) ingredients_list ->
  fix_hyphenated_words ingredients_list = ingredients_list.
Proof.
  induction 1 as [|x l Hx Hl IH]; [reflexivity|].
  rewrite fix_hyphenated_words_cons.
  destruct (ends_with_hyphen x) eqn:E.
  - exfalso. apply Hx. apply ends_with_hyphen_in. exact E.
  - rewrite IH, (sub_inner_hyphen_fixed _ Hx). reflexivity.
Qed.

Lemma X19_without_hyphens_nothing_changes_witness :
  Forall (fun ing => ~ In "-"%char ing) (map s2l ["Aqua"; "Cetyl Alcohol"]%string)
  /\ fix_hyphenated_words (map s2l ["Aqua"; "Cetyl Alcohol"]%string)
     = map s2l ["Aqua"; "Cetyl Alcohol"]%string.
Proof.
  assert (H : Forall (fun ing => ~ In "-"%char ing) (map s2l ["Aqua"; "Cetyl Alcohol"]%string)).
  { repeat constructor; apply count_zero_not_in; reflexivity. }
  split; [exact H|].
  exact (X19_without_hyphens_nothing_changes (map s2l ["Aqua"; "Cetyl Alcohol"]%string) H).
Defined.

(** X20.  [remove_non_ingredients] is idempotent: run on its own result,
    it returns it unchanged. *)
Theorem X20_remove_non_ingredients_idempotent (ingredients_list : list str) :
  remove_non_ingredients (remove_non_ingredients ingredients_list)
  = remove_non_ingredients ingredients_list.
Proof.
  unfold remove_non_ingredients.
  rewrite (unique_from_fixed
             (filter (fun ing => (negb (is_non_ingredient ing) && Nat.leb 2 (length ing))%bool)
                     (unique_from [] ingredients_list)) []).
  - apply filter_filter.
  - apply filter_keeps_unique. apply unique_from_nodup.
  - intros x _ [].
Qed.

(** ** What a run costs in requests *)

Lemma get_ingredient_data_costs server l0 n0 t e :
  preserves (fun s => l0 <= length (lookups (snd s))
                      /\ n0 + (length (lookups (snd s)) - l0) <= length (sent (snd s))
                      /\ length (sent (snd s)) <= n0 + 2 * (length (lookups (snd s)) - l0))
            (get_ingredient_data server t e).
Proof.
  intros s (H1 & H2 & H3).
  destruct (get_ingredient_data server t e s) as [r s1] eqn:E. cbn [snd].
  pose proof (get_ingredient_data_lookups server _ _ _ _ _ E) as L.
  apply get_ingredient_data_requests in E. destruct E as (t1 & _ & R).
  rewrite L, length_app. cbn [length].
  destruct (ingredient_found r).
  - destruct R as (t2 & url & _ & R & _). rewrite R, length_app. cbn [length]. lia.
  - rewrite R, length_app. cbn [length]. lia.
Qed.

(** X21.  A run of [smart_analyze_list] sends its requests in lookups only,
    one or two for each: the number of requests it adds to the log is at
    least the number of its lookups and at most twice that number. *)
Theorem X21_one_or_two_requests_per_lookup
    (server : World -> str -> Response * N) (new_client : bool)
    (l : list str) (s : EWGSkindeepAPI * World) :
  length (sent (snd s))
  + length (new_lookups (smart_analyze_list_with server new_client l) s)
  <= length (sent (snd (snd (smart_analyze_list_with server new_client l s))))
  /\ length (sent (snd (snd (smart_analyze_list_with server new_client l s))))
     <= length (sent (snd s))
        + 2 * length (new_lookups (smart_analyze_list_with server new_client l) s).
Proof.
  unfold new_lookups. rewrite length_skipn.
  destruct (smart_analyze_list_keeps server new_client
              (fun s' => length (lookups (snd s)) <= length (lookups (snd s'))
                         /\ length (sent (snd s))
                            + (length (lookups (snd s')) - length (lookups (snd s)))
                            <= length (sent (snd s'))
                         /\ length (sent (snd s'))
                            <= length (sent (snd s))
                               + 2 * (length (lookups (snd s')) - length (lookups (snd s))))
              (get_ingredient_data_costs server _ _)
              (fun _ c c' w H => H) l s) as (H1 & H2 & H3).
  - cbn beta. lia.
  - split; assumption.
Qed.
